(** * PAYNT synthesis core: holes, SAT enumeration, CEGIS, stage control,
      Storm fusion and path sampling.

    A shallow embedding of
      - paynt/paynt/sketch/holes.py           (Hole, Holes, DesignSpace,
                                               CombinationColoring)
      - paynt/paynt/synthesizers/synthesizer.py (SynthesizerCEGIS, StageControl)
      - paynt/quotient/storm_pomdp_control.py (StormPOMDPControl)
      - paynt/simulation/simulation.py        (SimulatedModel)
    Python exceptions are values of [result]; Python lists are Rocq lists
    read with Python's index rules; dictionaries are stdpp finite maps;
    the numbers of the stage controller are Python's [int]s and binary64
    floats. *)

From Stdlib Require Import ZArith QArith List Lia Ascii String.
From Stdlib Require Floats.
From stdpp Require Import gmap list strings.


(** ** Python results and list indexing *)

Inductive exn : Type :=
  | IndexError
  | KeyError
  | ValueError
  | TypeError
  | AttributeError
  | Z3Exception
  | ZeroDivisionError
  | OverflowError.

Inductive result (A : Type) : Type :=
  | Return (a : A)
  | Raise (e : exn).
Arguments Return {A} a.
Arguments Raise {A} e.

Definition rbind {A B : Type} (m : result A) (k : A -> result B) : result B :=
  match m with
  | Return a => k a
  | Raise e => Raise e
  end.

#[global] Instance result_bind : MBind result := fun A B k m => rbind m k.
#[global] Instance result_ret : MRet result := @Return.

(** [for x in l: body] over a result-returning body, threading a state. *)
Fixpoint rfold {A S : Type} (body : S -> A -> result S) (s : S) (l : list A)
  : result S :=
  match l with
  | [] => Return s
  | x :: l' => s' ← body s x; rfold body s' l'
  end.

(** [[f(x) for x in l]] where [f] may raise. *)
Fixpoint rmap {A B : Type} (f : A -> result B) (l : list A) : result (list B) :=
  match l with
  | [] => Return []
  | x :: l' => y ← f x; ys ← rmap f l'; Return (y :: ys)
  end.

(** Position denoted by a Python index [i] in a list of length [n]:
    [0 <= i < n] is itself, [-n <= i < 0] counts from the end, anything
    else is out of range. *)
Definition py_norm (n : nat) (i : Z) : option nat :=
  if ((0 <=? i) && (i <? Z.of_nat n))%Z then Some (Z.to_nat i)
  else if ((- Z.of_nat n <=? i) && (i <? 0))%Z then Some (Z.to_nat (i + Z.of_nat n))
  else None.

(** [l[i]] *)
Definition py_get {A : Type} (l : list A) (i : Z) : result A :=
  match py_norm (length l) i with
  | Some k => match l !! k with
              | Some x => Return x
              | None => Raise IndexError
              end
  | None => Raise IndexError
  end.

(** [l[i]] for an index that is a loop counter or an entry of one of the
    program's own tables (never negative). *)
Definition at_index {A : Type} (l : list A) (i : nat) : result A :=
  match l !! i with
  | Some x => Return x
  | None => Raise IndexError
  end.

(** [l[i] = x] *)
Definition py_set {A : Type} (l : list A) (i : Z) (x : A) : result (list A) :=
  match py_norm (length l) i with
  | Some k => Return (<[k := x]> l)
  | None => Raise IndexError
  end.

(** [x in l] on a list of integers *)
Definition py_in (x : Z) (l : list Z) : bool := bool_decide (x ∈ l).

(** [list(range(n))] *)
Definition py_range (n : Z) : list Z := map Z.of_nat (seq 0 (Z.to_nat n)).


(** [enumerate(l)] *)
Definition enumerate {A : Type} (l : list A) : list (Z * A) :=
  zip (py_range (Z.of_nat (length l))) l.

(** ** holes.py: Hole and Holes, as values *)

Module Hole.

Record t : Type := mk {
  name : string;
  options : list Z;
  option_labels : list string
}.

(** [size] property *)
Definition size (self : t) : nat := length (options self).

(** [copy]: same name and labels, a copy of the option list. *)
Definition copy (self : t) : t :=
  mk (name self) (options self) (option_labels self).

(** [assume_suboptions] *)
Definition assume_suboptions (self : t) (suboptions : list Z) : t :=
  mk (name self) suboptions (option_labels self).

End Hole.

Module Holes.

Abbreviation t := (list Hole.t).

Definition num_holes (self : t) : nat := length self.

Definition hole_indices (self : t) : list Z := py_range (Z.of_nat (length self)).

(** [size]: [math.prod([hole.size for hole in self])] *)
Definition size (self : t) : nat := foldr Nat.mul 1 (map Hole.size self).

Definition copy (self : t) : t := map Hole.copy self.

(** [assume_hole_suboptions]: copy, then store the refined hole at
    [hole_index]. *)
Definition assume_hole_suboptions (self : t) (hole_index : Z) (suboptions : list Z)
  : result t :=
  let result := copy self in
  hole ← py_get self hole_index;
  py_set result hole_index (Hole.assume_suboptions hole suboptions).

(** [assume_suboptions]: one refined hole per hole of [self], the
    suboptions read at the hole's index. *)
Definition assume_suboptions (self : t) (hole_suboptions : list (list Z))
  : result t :=
  rmap (fun '(hole_index, hole) =>
          suboptions ← py_get hole_suboptions hole_index;
          Return (Hole.assume_suboptions hole suboptions))
       (enumerate self).

Definition pick_any (self : t) : result t :=
  suboptions ← rmap (fun hole => o ← py_get (Hole.options hole) 0; Return [o]) self;
  assume_suboptions self suboptions.

(** [includes]: [hole_options] is the dictionary's [items()], in
    iteration order. *)
Fixpoint includes (self : t) (hole_options : list (Z * Z)) : result bool :=
  match hole_options with
  | [] => Return true
  | (hole_index, option) :: rest =>
      hole ← py_get self hole_index;
      if negb (py_in option (Hole.options hole)) then Return false
      else includes self rest
  end.

End Holes.

(** ** holes.py: Hole and Holes, as objects in a store

    The same methods with object identity: every constructor call
    allocates, [result[hole_index] = ...] writes the list object it is
    applied to. Locations are positions in the store; allocation appends. *)

Module Store.

Inductive obj : Type :=
  | OHole (h : Hole.t)
  | OHoles (hs : list nat).

Abbreviation store := (list obj).
Abbreviation loc := nat.

(** Computations on the store that may raise. *)
Definition M (A : Type) : Type := store -> result (store * A).

Definition ret {A : Type} (a : A) : M A := fun σ => Return (σ, a).
Definition bind {A B : Type} (m : M A) (k : A -> M B) : M B :=
  fun σ => match m σ with
           | Return (σ', a) => k a σ'
           | Raise e => Raise e
           end.
Definition lift {A : Type} (r : result A) : M A :=
  fun σ => match r with Return a => Return (σ, a) | Raise e => Raise e end.

Definition alloc (o : obj) : M loc := fun σ => Return (σ ++ [o], length σ).

Definition get_hole (l : loc) : M Hole.t :=
  fun σ => match σ !! l with
           | Some (OHole h) => Return (σ, h)
           | _ => Raise TypeError
           end.

Definition get_holes (l : loc) : M (list loc) :=
  fun σ => match σ !! l with
           | Some (OHoles hs) => Return (σ, hs)
           | _ => Raise TypeError
           end.

Definition put (l : loc) (o : obj) : M unit :=
  fun σ => Return (<[l := o]> σ, tt).

Fixpoint mapM {A B : Type} (f : A -> M B) (l : list A) : M (list B) :=
  match l with
  | [] => ret []
  | x :: l' => bind (f x) (fun y => bind (mapM f l') (fun ys => ret (y :: ys)))
  end.

(** [Hole.copy] *)
Definition Hole_copy (self : loc) : M loc :=
  bind (get_hole self) (fun h => alloc (OHole (Hole.copy h))).

(** [Hole.assume_suboptions] *)
Definition Hole_assume_suboptions (self : loc) (suboptions : list Z) : M loc :=
  bind (get_hole self) (fun h => alloc (OHole (Hole.assume_suboptions h suboptions))).

(** [Holes.copy] *)
Definition Holes_copy (self : loc) : M loc :=
  bind (get_holes self) (fun hs =>
  bind (mapM Hole_copy hs) (fun hs' =>
  alloc (OHoles hs'))).

(** [Holes.assume_hole_suboptions] *)
Definition Holes_assume_hole_suboptions (self : loc) (hole_index : Z)
    (suboptions : list Z) : M loc :=
  bind (Holes_copy self) (fun result =>
  bind (get_holes self) (fun hs =>
  bind (lift (py_get hs hole_index)) (fun hole =>
  bind (Hole_assume_suboptions hole suboptions) (fun new_hole =>
  bind (get_holes result) (fun rs =>
  bind (lift (py_set rs hole_index new_hole)) (fun rs' =>
  bind (put result (OHoles rs')) (fun _ =>
  ret result))))))).

(** [Holes.assume_suboptions] *)
Definition Holes_assume_suboptions (self : loc) (hole_suboptions : list (list Z))
  : M loc :=
  bind (get_holes self) (fun hs =>
  bind (mapM (fun '(hole_index, hole) =>
                bind (lift (py_get hole_suboptions hole_index)) (fun suboptions =>
                Hole_assume_suboptions hole suboptions))
             (enumerate hs)) (fun hs' =>
  alloc (OHoles hs'))).

(** The family a [Holes] object denotes in a store. *)
Definition hole_at (σ : store) (l : loc) : option Hole.t :=
  match σ !! l with
  | Some (OHole h) => Some h
  | _ => None
  end.

Fixpoint holes_at (σ : store) (ls : list loc) : option Holes.t :=
  match ls with
  | [] => Some []
  | l :: ls' =>
      match hole_at σ l, holes_at σ ls' with
      | Some h, Some hs => Some (h :: hs)
      | _, _ => None
      end
  end.

Definition content (σ : store) (l : loc) : option Holes.t :=
  match σ !! l with
  | Some (OHoles hs) => holes_at σ hs
  | _ => None
  end.

End Store.

(** ** holes.py: CombinationColoring *)

Module Coloring.

(** A hole combination: one entry per hole, [None] where the hole is
    irrelevant (the tuple used as dictionary key). *)
Abbreviation combination := (list (option Z)).

Record CombinationColoring : Type := mkColoring {
  coloring : gmap (list (option Z)) nat;
  reverse_coloring : gmap nat (list (option Z))
}.

(** [CombinationColoring.__init__] (the [holes] field is not read by the
    operations below). *)
Definition init : CombinationColoring :=
  {| coloring := ∅; reverse_coloring := ∅ |}.

(** [colors] property: [len(self.coloring)] *)
Definition colors (cc : CombinationColoring) : nat := size (coloring cc).

(** [get_or_make_color]: the updated object and the returned color. *)
Definition get_or_make_color (cc : CombinationColoring) (hole_assignment : combination)
  : CombinationColoring * nat :=
  let new_color := colors cc + 1 in
  let color := default new_color (coloring cc !! hole_assignment) in
  if decide (color = new_color) then
    ({| coloring := <[hole_assignment := color]> (coloring cc);
        reverse_coloring := <[color := hole_assignment]> (reverse_coloring cc) |},
     color)
  else (cc, color).

(** Objects the class can produce: a fresh coloring, then any number of
    [get_or_make_color] calls. *)
Inductive reachable : CombinationColoring -> Prop :=
  | reachable_init : reachable init
  | reachable_step cc t :
      reachable cc -> reachable (get_or_make_color cc t).1.

(** Every stored color lies in [1 .. colors] and is mapped back to its
    combination. *)
Definition consistent (cc : CombinationColoring) : Prop :=
  forall t c, coloring cc !! t = Some c ->
    1 <= c <= colors cc /\ reverse_coloring cc !! c = Some t.

(** The inner loop of [subcolors] for one combination, with its
    [continue] and [break]: whether the combination is contained in the
    subspace. *)
Fixpoint contained (combination : combination) (subspace : list (Z * Hole.t))
  : result bool :=
  match subspace with
  | [] => Return true
  | (hole_index, hole) :: rest =>
      c ← py_get combination hole_index;
      match c with
      | None => contained combination rest
      | Some o =>
          if negb (py_in o (Hole.options hole)) then Return false
          else contained combination rest
      end
  end.

(** [subcolors]. The items of the dictionary are visited in the order of
    [map_to_list]; the result is a set and [IndexError] the only
    exception, so the order of the visit does not show. *)
Definition subcolors (cc : CombinationColoring) (subspace : Holes.t)
  : result (gset nat) :=
  rfold (fun colors '(combination, color) =>
           c ← contained combination (enumerate subspace);
           Return (if (c : bool) then colors ∪ {[color]} else colors))
        ∅ (map_to_list (coloring cc)).

(** [subcolors_proper] *)
Definition subcolors_proper (cc : CombinationColoring) (hole_index : Z)
    (options : list Z) : result (gset nat) :=
  rfold (fun colors '(combination, color) =>
           c ← py_get combination hole_index;
           Return (match c with
                   | Some o => if py_in o options then colors ∪ {[color]} else colors
                   | None => colors
                   end))
        ∅ (map_to_list (coloring cc)).

(** [get_hole_assignments]; [holes] is [self.holes] and [colors] the
    colors in the order the argument yields them. The result holds the
    sets collected for the holes; the final conversion of each set to a
    list enumerates it in an order Python leaves open. *)
Definition get_hole_assignments (holes : Holes.t) (cc : CombinationColoring)
    (colors : list nat) : result (list (gset Z)) :=
  rfold (fun hole_assignments color =>
           if decide (color = 0) then Return hole_assignments
           else
             match reverse_coloring cc !! color with
             | None => Raise KeyError
             | Some combination =>
                 rfold (fun hole_assignments '(hole_index, assignment) =>
                          match assignment with
                          | None => Return hole_assignments
                          | Some a =>
                              s ← py_get hole_assignments hole_index;
                              py_set hole_assignments hole_index (s ∪ {[a]})
                          end)
                       hole_assignments (enumerate combination)
             end)
        (map (fun _ => (∅ : gset Z)) holes) colors.

End Coloring.

(** ** The SAT oracle (z3), as far as holes.py uses it *)

Module Z3.

(** Formulas over integer variables; a variable is named by the integer
    passed to [z3.Int]. *)
#[warnings="-register-all"]
Inductive expr : Type :=
  | Eq (var : Z) (k : Z)
  | Ge (var : Z) (k : Z)
  | Lt (var : Z) (k : Z)
  | Or (es : list expr)
  | And (es : list expr)
  | Not (e : expr).

Definition model : Type := Z -> Z.

Fixpoint eval (m : model) (e : expr) : bool :=
  match e with
  | Eq v k => (m v =? k)%Z
  | Ge v k => (k <=? m v)%Z
  | Lt v k => (m v <? k)%Z
  | Or es => existsb (eval m) es
  | And es => forallb (eval m) es
  | Not e => negb (eval m e)
  end.

(** Outcome of [solver.check(assumption)]; on [sat] the model that
    [solver.model()] then returns. *)
Inductive check_result : Type :=
  | sat (m : model)
  | unsat
  | unknown.

(** The contract of the oracle: a model reported with [sat] satisfies
    every asserted formula and the assumption. *)
Definition sound (check : list expr -> expr -> check_result) : Prop :=
  forall assertions assumption m,
    check assertions assumption = sat m ->
    forallb (eval m) assertions = true /\ eval m assumption = true.

(** A reference oracle: exhaustive search through a finite list of
    candidate models, [unsat] when none fits. *)
Definition model_of (values : list Z) : model :=
  fun var => nth (Z.to_nat var) values 0%Z.

Definition search (candidates : list (list Z)) (assertions : list expr)
    (assumption : expr) : check_result :=
  match find (fun x => forallb (eval (model_of x)) assertions
                       && eval (model_of x) assumption) candidates with
  | Some x => sat (model_of x)
  | None => unsat
  end.

End Z3.

(** ** holes.py: DesignSpace *)

Module DesignSpace.

(** The class attributes [DesignSpace.solver] (its asserted formulas, in
    insertion order) and [DesignSpace.solver_vars], after [z3_initialize]. *)
Record globals : Type := mkGlobals {
  solver : list Z3.expr;
  solver_vars : list Z
}.

(** A design space: its holes and its [encoding] attribute ([None] until
    [z3_encode]). The [properties] attribute is not read by the methods
    below. *)
Record t : Type := mk {
  holes : Holes.t;
  encoding : option Z3.expr
}.

(** [__init__] *)
Definition init (holes : Holes.t) : t := mk holes None.

(** [z3_initialize] *)
Definition z3_initialize (self : t) : globals :=
  foldl (fun g '(hole_index, hole) =>
           let var := hole_index in
           mkGlobals (solver g ++ [Z3.Ge var 0; Z3.Lt var (Z.of_nat (Hole.size hole))])
                     (solver_vars g ++ [var]))
        (mkGlobals [] []) (enumerate (holes self)).

(** [z3_encode] *)
Definition z3_encode (g : globals) (self : t) : result t :=
  hole_clauses ← rmap (fun '(hole_index, hole) =>
                         var ← py_get (solver_vars g) hole_index;
                         Return (Z3.Or (map (fun option => Z3.Eq var option)
                                            (Hole.options hole))))
                      (enumerate (holes self));
  Return (mk (holes self) (Some (Z3.And hole_clauses))).

Section Solver.

Variable check : list Z3.expr -> Z3.expr -> Z3.check_result.

(** [pick_assignment]: [Return None] is Python's [None]. A [None]
    encoding is not a formula and z3 rejects it. *)
Definition pick_assignment (g : globals) (self : t) : result (option Holes.t) :=
  match encoding self with
  | None => Raise Z3Exception
  | Some enc =>
      match check (solver g) enc with
      | Z3.sat sat_model =>
          assignment ← rmap (fun '(hole_index, hole) =>
                               var ← py_get (solver_vars g) hole_index;
                               let option := sat_model var in
                               Return [option])
                            (enumerate (holes self));
          a ← Holes.assume_suboptions (holes self) assignment;
          Return (Some a)
      | _ => Return None
      end
  end.

End Solver.

(** [exclude_assignment] *)
Definition exclude_assignment (g : globals) (self : t) (assignment : Holes.t)
    (conflict : list Z) : result globals :=
  counterexample_clauses ←
    rmap (fun '(hole_index, var) =>
            if py_in hole_index conflict then
              hole ← py_get assignment hole_index;
              option ← py_get (Hole.options hole) 0;
              Return (Z3.Eq var option)
            else
              hole ← py_get (holes self) hole_index;
              Return (Z3.Or (map (fun option => Z3.Eq var option) (Hole.options hole))))
         (enumerate (solver_vars g));
  let counterexample_encoding := Z3.Not (Z3.And counterexample_clauses) in
  Return (mkGlobals (solver g ++ [counterexample_encoding]) (solver_vars g)).

End DesignSpace.

(** ** synthesizer.py: SynthesizerCEGIS *)

Module SynthesizerCEGIS.

Section Run.

(** The model checker and the quotient are external: the types of
    properties, of the optimality property (with its current optimum), of
    values and of DTMCs, and the operations [run] calls on them. *)
Context {Property Optimality Value DTMC : Type}.
Variable check : list Z3.expr -> Z3.expr -> Z3.check_result.
Variable build : Holes.t -> DTMC.
Variable check_properties_all : DTMC -> list Property -> bool * list Property.
Variable check_optimality : DTMC -> Optimality -> Value * bool.
Variable update_optimum : Optimality -> Value -> Optimality.

Record Sketch : Type := mkSketch {
  design_space : DesignSpace.t;
  properties : list Property;
  optimality_property : option Optimality
}.

(** What [run] mutates: the solver, the optimality property, the local
    [satisfying_assignment] and the two counters of [self.stat]. *)
Record state : Type := mkState {
  globals : DesignSpace.globals;
  optimality : option Optimality;
  satisfying_assignment : option Holes.t;
  iterations_dtmc : nat;
  pruned : nat
}.

Inductive body_result : Type :=
  | Break (st : state)
  | Continue (st : state) (assignment : option Holes.t).

(** One pass through the body of [while assignment is not None]. *)
Definition body (ds : DesignSpace.t) (props : list Property) (st : state)
    (assignment : Holes.t) : result body_result :=
  let dtmc := build assignment in
  let iterations := S (iterations_dtmc st) in
  let '(sat, unsat) := check_properties_all dtmc props in
  let unsat_properties : list (Property + Optimality) := map inl unsat in
  let '(unsat_properties, optimum_improves) :=
    match optimality st with
    | Some opt =>
        let '(optimum, improves) := check_optimality dtmc opt in
        (unsat_properties ++ [inr opt], Some (optimum, improves))
    | None => (unsat_properties, None)
    end in
  match sat, optimum_improves with
  | true, None =>
      Return (Break (mkState (globals st) (optimality st) (Some assignment)
                             iterations (pruned st)))
  | _, _ =>
      let '(opt', satisfying') :=
        match sat, optimum_improves, optimality st with
        | true, Some (optimum, true), Some opt =>
            (Some (update_optimum opt optimum), Some assignment)
        | _, _, _ => (optimality st, satisfying_assignment st)
        end in
      let conflicts :=
        map (fun _ => map fst (enumerate assignment)) unsat_properties in
      g ← rfold (fun g conflict => DesignSpace.exclude_assignment g ds assignment conflict)
                (globals st) conflicts;
      next ← DesignSpace.pick_assignment check g ds;
      Return (Continue (mkState g opt' satisfying' iterations
                                (pruned st + length conflicts))
                       next)
  end.

(** The [while] loop; [fuel] bounds the number of passes through the
    body, [None] is out of fuel. *)
Fixpoint loop (fuel : nat) (ds : DesignSpace.t) (props : list Property)
    (st : state) (assignment : option Holes.t) : option (result state) :=
  match assignment with
  | None => Some (Return st)
  | Some a =>
      match fuel with
      | 0 => None
      | S fuel' =>
          match body ds props st a with
          | Raise e => Some (Raise e)
          | Return (Break st') => Some (Return st')
          | Return (Continue st' next) => loop fuel' ds props st' next
          end
      end
  end.

(** [run] *)
Definition run (sketch : Sketch) (fuel : nat) : option (result state) :=
  let g := DesignSpace.z3_initialize (design_space sketch) in
  match DesignSpace.z3_encode g (design_space sketch) with
  | Raise e => Some (Raise e)
  | Return ds =>
      match DesignSpace.pick_assignment check g ds with
      | Raise e => Some (Raise e)
      | Return assignment =>
          loop fuel ds (properties sketch)
               (mkState g (optimality_property sketch) None 0 0) assignment
      end
  end.

End Run.

End SynthesizerCEGIS.

(** ** Python numbers: [int] and [float] *)

Module PyNum.

Import PrimFloat SpecFloat FloatOps.

(** A Python number as [StageControl] meets them: an [int] of any size or
    a [float] (IEEE 754 binary64, round to nearest even). *)
Inductive num : Type :=
  | PyInt (z : Z)
  | PyFloat (f : float).

(** [float(z)]: the nearest float, [OverflowError] when there is none. *)
Definition float_of_int (z : Z) : result float :=
  match binary_normalize prec emax z 0 false with
  | S754_infinity _ => Raise OverflowError
  | sf => Return (SF2Prim sf)
  end.

(** The float operand an arithmetic operation with a float works on. *)
Definition as_float (x : num) : result float :=
  match x with
  | PyInt z => float_of_int z
  | PyFloat f => Return f
  end.

(** [a / b] on two [int]s: the exact quotient, rounded once. *)
Definition int_truediv (a b : Z) : result float :=
  let spec (z : Z) : spec_float :=
    match z with
    | Z0 => S754_zero false
    | Zpos p => S754_finite false p 0
    | Zneg p => S754_finite true p 0
    end in
  if (b =? 0)%Z then Raise ZeroDivisionError
  else match SFdiv prec emax (spec a) (spec b) with
       | S754_infinity _ => Raise OverflowError
       | sf => Return (SF2Prim sf)
       end.

(** [x + y] *)
Definition add (x y : num) : result num :=
  match x, y with
  | PyInt a, PyInt b => Return (PyInt (a + b))
  | _, _ => a ← as_float x; b ← as_float y; Return (PyFloat (a + b))
  end.

(** [x * y] *)
Definition mul (x y : num) : result num :=
  match x, y with
  | PyInt a, PyInt b => Return (PyInt (a * b))
  | _, _ => a ← as_float x; b ← as_float y; Return (PyFloat (a * b))
  end.

(** [x / y] *)
Definition truediv (x y : num) : result num :=
  match x, y with
  | PyInt a, PyInt b => q ← int_truediv a b; Return (PyFloat q)
  | _, _ =>
      a ← as_float x; b ← as_float y;
      if (b =? 0)%float then Raise ZeroDivisionError else Return (PyFloat (a / b))
  end.

(** The exact order of a float and an [int]; [None] for a NaN. *)
Definition compare_float_int (f : float) (z : Z) : option comparison :=
  match Prim2SF f with
  | S754_nan => None
  | S754_infinity s => Some (if s then Lt else Gt)
  | S754_zero _ => Some (0 ?= z)%Z
  | S754_finite s m e =>
      let v := if s then Zneg m else Zpos m in
      Some (match e with
            | Zneg k => (v ?= z * 2 ^ Zpos k)%Z
            | _ => (v * 2 ^ e ?= z)%Z
            end)
  end.

(** The order of two numbers; [None] when one is a NaN. Python compares
    an [int] and a float by their exact values. *)
Definition compare (x y : num) : option comparison :=
  match x, y with
  | PyInt a, PyInt b => Some (a ?= b)%Z
  | PyFloat a, PyFloat b => SFcompare (Prim2SF a) (Prim2SF b)
  | PyFloat a, PyInt b => compare_float_int a b
  | PyInt a, PyFloat b => option_map CompOpp (compare_float_int b a)
  end.

(** [x == y] *)
Definition eqb (x y : num) : bool :=
  match compare x y with Some Eq => true | _ => false end.

(** [x < y] *)
Definition ltb (x y : num) : bool :=
  match compare x y with Some Lt => true | _ => false end.

End PyNum.

(** ** synthesizer.py: StageControl *)

Module StageControl.

Import PrimFloat PyNum.

(** The attributes of a controller. The class never assigns
    [models_total], which [step] reads: it is [None] until the owner of the
    controller sets it. *)
Record t : Type := mk {
  stage_time_cegar : num;
  stage_pruned_cegar : num;
  stage_time_cegis : num;
  stage_pruned_cegis : num;
  cegis_allocated_time_factor : num;
  stage_cegar : bool;
  cegis_allocated_time : num;
  models_total : option num
}.

(** [__init__] *)
Definition init : t :=
  mk (PyInt 0) (PyInt 0) (PyInt 0) (PyInt 0) (PyFloat 1%float) true (PyInt 0) None.

(** [start]: sets the stage; the timer is reset and started. *)
Definition start (self : t) (request_stage_cegar : bool) : t :=
  mk (stage_time_cegar self) (stage_pruned_cegar self) (stage_time_cegis self)
     (stage_pruned_cegis self) (cegis_allocated_time_factor self)
     request_stage_cegar (cegis_allocated_time self) (models_total self).

(** [self.models_total] *)
Definition get_models_total (self : t) : result num :=
  match models_total self with
  | Some n => Return n
  | None => Raise AttributeError
  end.

Section Step.

(** [step] calls [self.stage_start], a method the class does not define
    (it defines [start]); [stage_start] is what the attribute is bound to
    on the instance, if anything. *)
Variable stage_start : option (t -> bool -> t).

(** [step(models_pruned)]. The stage timer is external: [read_running] is
    what [stage_timer.read()] returns at the allocation test and
    [read_stopped] what it returns after [stage_timer.stop()]. Returns the
    updated controller and whether a switch took place. *)
Definition step (self : t) (models_pruned : num) (read_running read_stopped : num)
    : result (t * bool) :=
  (* record pruned models *)
  d_cegar ← (if stage_cegar self
             then total ← get_models_total self; truediv models_pruned total
             else Return (PyInt 0));
  pruned_cegar ← add (stage_pruned_cegar self) d_cegar;
  let self := mk (stage_time_cegar self) pruned_cegar
                 (stage_time_cegis self) (stage_pruned_cegis self)
                 (cegis_allocated_time_factor self) (stage_cegar self)
                 (cegis_allocated_time self) (models_total self) in
  d_cegis ← (if negb (stage_cegar self)
             then total ← get_models_total self; truediv models_pruned total
             else Return (PyInt 0));
  pruned_cegis ← add (stage_pruned_cegis self) d_cegis;
  let self := mk (stage_time_cegar self) (stage_pruned_cegar self)
                 (stage_time_cegis self) pruned_cegis
                 (cegis_allocated_time_factor self) (stage_cegar self)
                 (cegis_allocated_time self) (models_total self) in
  (* in cegis mode, allow cegis another stage step if some time remains *)
  if negb (stage_cegar self) && ltb read_running (cegis_allocated_time self)
  then Return (self, false)
  else
    let current_time := read_stopped in
    if stage_cegar self then
      (* cegar stage over: allocate time for cegis and switch *)
      time_cegar ← add (stage_time_cegar self) current_time;
      allocated ← mul current_time (cegis_allocated_time_factor self);
      let self := mk time_cegar (stage_pruned_cegar self)
                     (stage_time_cegis self) (stage_pruned_cegis self)
                     (cegis_allocated_time_factor self) (stage_cegar self)
                     allocated (models_total self) in
      match stage_start with
      | Some f => Return (f self false, true)
      | None => Raise AttributeError
      end
    else
      (* cegis stage over *)
      time_cegis ← add (stage_time_cegis self) current_time;
      let self := mk (stage_time_cegar self) (stage_pruned_cegar self)
                     time_cegis (stage_pruned_cegis self)
                     (cegis_allocated_time_factor self) (stage_cegar self)
                     (cegis_allocated_time self) (models_total self) in
      success_rate_cegar ← truediv (stage_pruned_cegar self) (stage_time_cegar self);
      success_rate_cegis ← truediv (stage_pruned_cegis self) (stage_time_cegis self);
      cegar_dominance ←
        (if eqb (stage_pruned_cegar self) (PyInt 0) || eqb (stage_pruned_cegis self) (PyInt 0)
         then Return (PyInt 1)
         else truediv success_rate_cegar success_rate_cegis);
      cegis_dominance ← truediv (PyInt 1) cegar_dominance;
      let self := mk (stage_time_cegar self) (stage_pruned_cegar self)
                     (stage_time_cegis self) (stage_pruned_cegis self)
                     cegis_dominance (stage_cegar self)
                     (cegis_allocated_time self) (models_total self) in
      (* switch back to cegar *)
      Return (start self true, true).

End Step.

(** The owner sets [models_total] (as [SynthesizerHybrid.run] computes it
    from the design space). *)
Definition set_models_total (self : t) (n : num) : t :=
  mk (stage_time_cegar self) (stage_pruned_cegar self) (stage_time_cegis self)
     (stage_pruned_cegis self) (cegis_allocated_time_factor self)
     (stage_cegar self) (cegis_allocated_time self) (Some n).

End StageControl.

(** ** storm_pomdp_control.py: StormPOMDPControl *)

Module StormPOMDPControl.

(** The attributes of the quotient that the methods below read. The
    quotient class is not part of these sources. *)
Record Quotient : Type := mkQuotient {
  observations : nat;
  actions_at_observation : list Z;
  observation_action_holes : list (list nat);
  observation_memory_holes : list (list nat);
  max_successor_memory_size : list Z
}.

(** A record [{"hole": ..., "restriction": ...}]. *)
Record Restriction : Type := mkRestriction {
  hole : nat;
  restriction : list Z
}.

Section Control.

(** Values are Python numbers compared with [<=] and [>=]; the policy
    export is computed by the quotient. *)
Context {Value Export : Type}.
Variable le ge : Value -> Value -> bool.
Variable extract_policy : Quotient -> Holes.t -> Export.

Record t : Type := mk {
  latest_paynt_result : option Holes.t;
  result_dict : gmap nat (list Z);
  result_dict_no_cutoffs : gmap nat (list Z);
  result_dict_paynt : gmap nat (list Z);
  storm_bounds : option Value;
  is_storm_better : bool;
  quotient : Quotient;
  paynt_export : Export
}.

Definition set_is_storm_better (self : t) (b : bool) : t :=
  mk (latest_paynt_result self) (result_dict self) (result_dict_no_cutoffs self)
     (result_dict_paynt self) (storm_bounds self) b (quotient self)
     (paynt_export self).

Definition set_paynt_result (self : t) (assignment : Holes.t) (export : Export) : t :=
  mk (Some assignment) (result_dict self) (result_dict_no_cutoffs self)
     (result_dict_paynt self) (storm_bounds self) (is_storm_better self)
     (quotient self) export.

(** [update_data]; [None] arguments are Python's [None]. *)
Definition update_data (self : t) (paynt_value : option Value) (minimizing : bool)
    (assignment : option Holes.t) : t :=
  match paynt_value, storm_bounds self with
  | Some paynt_value, Some bounds =>
      let self :=
        if minimizing then
          if le paynt_value bounds then set_is_storm_better self false
          else set_is_storm_better self true
        else
          if ge paynt_value bounds then set_is_storm_better self false
          else set_is_storm_better self true in
      match assignment with
      | Some assignment =>
          set_paynt_result self assignment (extract_policy (quotient self) assignment)
      | None => self
      end
  | _, _ => self
  end.

End Control.

(** *** The main restricted family

    [get_main_restricted_family] copies the family and then updates the
    copy's holes in place. Its loops are written once, over the two
    operations they perform on the copy, and run both on the object store
    and on a family value. *)

(** Modelled from the spec: [Hole.assume_options], which
    [get_main_restricted_family] calls and holes.py does not define. The
    spec has refinement "replace hole h's option set with S"; called on a
    hole of the copy for its effect, it replaces that hole's options in
    place. *)
Definition assume_options (h : Hole.t) (options : list Z) : Hole.t :=
  Hole.mk (Hole.name h) options (Hole.option_labels h).

Class FamilyOps (M : Type -> Type) : Type := {
  fret : forall {A}, A -> M A;
  fbind : forall {A B}, M A -> (A -> M B) -> M B;
  flift : forall {A}, result A -> M A;
  (** [restricted_family[hole].options] *)
  hole_options : nat -> M (list Z);
  (** [restricted_family[hole].assume_options(options)] *)
  hole_assume_options : nat -> list Z -> M unit
}.

Section Restrict.

Context {M : Type -> Type} `{FamilyOps M}.

(** [for x in l: s = body(s, x)] *)
Fixpoint foldM {A S : Type} (body : S -> A -> M S) (s : S) (l : list A) : M S :=
  match l with
  | [] => fret s
  | x :: l' => fbind (body s x) (fun s' => foldM body s' l')
  end.

(** The body of [for obs in range(quotient.observations)]. *)
Definition restrict_observation (q : Quotient) (result_dict : gmap nat (list Z))
    (obs : nat) : M unit :=
  fbind (flift (at_index (actions_at_observation q) obs)) (fun num_actions =>
  fbind (flift (at_index (max_successor_memory_size q) obs)) (fun num_updates =>
  fbind (flift (at_index (observation_action_holes q) obs)) (fun act_obs_holes =>
  fbind (flift (at_index (observation_memory_holes q) obs)) (fun mem_obs_holes =>
  let act_num_holes := length act_obs_holes in
  let mem_num_holes := length mem_obs_holes in
  if decide (act_num_holes = 0) then fret tt
  else
    let all_updates := py_range num_updates in
    let selected_updates := map (fun _ => all_updates) mem_obs_holes in
    (* Action restriction *)
    let selected_actions :=
      match result_dict !! obs with
      | None => map (fun _ => [0%Z]) act_obs_holes
      | Some actions => map (fun _ => actions) act_obs_holes
      end in
    (* Apply action restrictions *)
    fbind (foldM (fun (_ : unit) index =>
             fbind (flift (at_index act_obs_holes index)) (fun hole =>
             fbind (flift (at_index selected_actions index)) (fun actions =>
             fbind (foldM (fun options action =>
                      fbind (hole_options hole) (fun current =>
                      if negb (py_in action current) then fret options
                      else fret (options ++ [action])))
                    [] actions) (fun options =>
             let options := if decide (length options = 0) then [0%Z] else options in
             hole_assume_options hole options))))
           tt (seq 0 act_num_holes)) (fun _ =>
    (* Apply memory restrictions *)
    foldM (fun (_ : unit) index =>
             fbind (flift (at_index mem_obs_holes index)) (fun hole =>
             fbind (flift (at_index selected_updates index)) (fun updates =>
             let options := updates in
             hole_assume_options hole options)))
          tt (seq 0 mem_num_holes)))))).

(** The [for obs] loop on the copy. *)
Definition restrict (q : Quotient) (result_dict : gmap nat (list Z)) : M unit :=
  foldM (fun (_ : unit) obs => restrict_observation q result_dict obs)
        tt (seq 0 (observations q)).

End Restrict.

(** Running on a family value. *)
Definition V (A : Type) : Type := Holes.t -> result (Holes.t * A).

#[global] Instance value_ops : FamilyOps V := {|
  fret := fun A a F => Return (F, a);
  fbind := fun A B m k F =>
             match m F with
             | Return (F', a) => k a F'
             | Raise e => Raise e
             end;
  flift := fun A r F => match r with Return a => Return (F, a) | Raise e => Raise e end;
  hole_options := fun hole F => h ← at_index F hole; Return (F, Hole.options h);
  hole_assume_options := fun hole options F =>
    h ← at_index F hole; Return (<[hole := assume_options h options]> F, tt)
|}.

(** Running on the object store, [restricted_family] being the list
    object at [rf]. *)
Definition store_ops (rf : Store.loc) : FamilyOps Store.M := {|
  fret := fun A a => Store.ret a;
  fbind := fun A B m k => Store.bind m k;
  flift := fun A r => Store.lift r;
  hole_options := fun hole =>
    Store.bind (Store.get_holes rf) (fun hs =>
    Store.bind (Store.lift (at_index hs hole)) (fun hl =>
    Store.bind (Store.get_hole hl) (fun h =>
    Store.ret (Hole.options h))));
  hole_assume_options := fun hole options =>
    Store.bind (Store.get_holes rf) (fun hs =>
    Store.bind (Store.lift (at_index hs hole)) (fun hl =>
    Store.bind (Store.get_hole hl) (fun h =>
    Store.put hl (Store.OHole (assume_options h options)))))
|}.

Section MainFamily.

Context {Value Export : Type}.

(** The dictionary the method works with. *)
Definition select_result_dict (self : t (Value:=Value) (Export:=Export))
    (use_cutoffs : bool) : gmap nat (list Z) :=
  if negb (is_storm_better self) then result_dict_paynt self
  else if use_cutoffs then result_dict self
  else result_dict_no_cutoffs self.

(** [get_main_restricted_family]; [family] is the location of the family
    object, the result is the location of the returned object. *)
Definition get_main_restricted_family (self : t (Value:=Value) (Export:=Export))
    (family : Store.loc) (q : Quotient) (use_cutoffs : bool) : Store.M Store.loc :=
  let result_dict := select_result_dict self use_cutoffs in
  if decide (result_dict = ∅) then Store.ret family
  else
    (* go through each observation of interest *)
    Store.bind (Store.Holes_copy family) (fun restricted_family =>
    Store.bind (restrict (H:=store_ops restricted_family) q result_dict) (fun _ =>
    Store.ret restricted_family)).

End MainFamily.

(** [get_subfamilies]; [q] is [self.quotient]. *)
Definition get_subfamilies (q : Quotient) (restrictions : list Restriction)
    (family : Holes.t) : result (list (list Restriction)) :=
  if decide (length restrictions = 0) then Return []
  else
    subfamilies ←
      rmap (fun i =>
              rmap (fun j =>
                      if decide (i <> j) then at_index restrictions j
                      else
                        r ← at_index restrictions j;
                        h ← at_index family (hole r);
                        let actions :=
                          filter (fun action => ¬ action ∈ restriction r)
                                 (Hole.options h) in
                        Return (mkRestriction (hole r) actions))
                   (seq 0 (i + 1)))
           (seq 0 (length restrictions));
    rmap (fun subfamily =>
            let holes := map hole subfamily in
            rfold (fun subfamily obs =>
                     num_actions ← at_index (actions_at_observation q) obs;
                     act_obs_holes ← at_index (observation_action_holes q) obs;
                     rfold (fun subfamily index =>
                              hole ← at_index act_obs_holes index;
                              restriction ←
                                (if decide (hole ∉ holes) then
                                   rfold (fun restriction action =>
                                            h ← at_index family hole;
                                            if py_in action (Hole.options h)
                                            then Return (restriction ++ [action])
                                            else Return restriction)
                                         [] (py_range num_actions)
                                 else Return []);
                              Return (subfamily ++ [mkRestriction hole restriction]))
                           subfamily (seq 0 (length act_obs_holes)))
                  subfamily (seq 0 (observations q)))
         subfamilies.

(** An assignment (one option per hole) meets every record of a list of
    records: its option for the record's hole is in the restriction. *)
Definition satisfies (a : list Z) (description : list Restriction) : Prop :=
  Forall (fun r => exists o, a !! hole r = Some o /\ o ∈ restriction r) description.

(** *** Joining and parsing the result dictionaries *)

(** The inner loop of [join_results]: the actions of [result_dict_paynt]
    not yet listed are appended, in their order. *)
Definition append_missing (actions paynt_actions : list Z) : list Z :=
  foldl (fun actions action =>
           if negb (py_in action actions) then actions ++ [action] else actions)
        actions paynt_actions.

(** [join_results]: the value of [self.result_dict] after the call;
    [observations] is [self.quotient.observations]. No other attribute is
    assigned. The lists are taken as values: lists stored under different
    keys are different objects, as [parse_storm_result] and
    [parse_paynt_result] create them. *)
Definition join_results (observations : nat)
    (result_dict result_dict_paynt : gmap nat (list Z)) : gmap nat (list Z) :=
  foldl (fun result_dict obs =>
           match result_dict !! obs with
           | Some actions =>
               match result_dict_paynt !! obs with
               | Some paynt_actions =>
                   <[obs := append_missing actions paynt_actions]> result_dict
               | None => result_dict
               end
           | None =>
               match result_dict_paynt !! obs with
               | Some paynt_actions => <[obs := paynt_actions]> result_dict
               | None => result_dict
               end
           end)
        result_dict (seq 0 observations).

(** Python's string methods as [parse_paynt_result] uses them, on byte
    strings. *)

(** [s.startswith(c)] for a one-character [c] *)
Definition startswith (s : string) (c : Ascii.ascii) : bool :=
  match s with
  | String c' _ => Ascii.eqb c' c
  | EmptyString => false
  end.

Fixpoint lstrip (chars : list Ascii.ascii) (s : list Ascii.ascii) : list Ascii.ascii :=
  match s with
  | c :: s' => if existsb (Ascii.eqb c) chars then lstrip chars s' else s
  | [] => []
  end.

(** [s.strip(chars)] *)
Definition strip (s : string) (chars : string) : string :=
  let cs := String.list_ascii_of_string chars in
  String.string_of_list_ascii (rev (lstrip cs (rev (lstrip cs (String.list_ascii_of_string s))))).

Fixpoint before (sep : Ascii.ascii) (s : list Ascii.ascii) : list Ascii.ascii :=
  match s with
  | [] => []
  | c :: s' => if Ascii.eqb c sep then [] else c :: before sep s'
  end.

(** [s.split(sep)[0]] for a one-character [sep] *)
Definition split_first (s : string) (sep : Ascii.ascii) : string :=
  String.string_of_list_ascii (before sep (String.list_ascii_of_string s)).

(** [l.index(x)] *)
Fixpoint index (l : list string) (x : string) : result nat :=
  match l with
  | [] => Raise ValueError
  | y :: l' => if String.eqb y x then Return 0 else i ← index l' x; Return (S i)
  end.

(** [parse_paynt_result]: the dictionary assigned to
    [self.result_dict_paynt]. [observation_labels] is
    [self.quotient.observation_labels], [observations] is
    [quotient.observations] of the argument, [latest_paynt_result] the
    attribute ([None], which cannot be iterated, until [update_data] sets
    it). *)
Definition parse_paynt_result (observation_labels : list string) (observations : nat)
    (latest_paynt_result : option Holes.t) : result (gmap nat (list Z)) :=
  match latest_paynt_result with
  | None => Raise TypeError
  | Some holes =>
      result ←
        rfold (fun (result : gmap nat (list Z)) hole =>
                 if startswith (Hole.name hole) "M"%char then Return result
                 else
                   let name := strip (Hole.name hole) "A()" in
                   let obs := split_first name ","%char in
                   observation ← index observation_labels obs;
                   option ← py_get (Hole.options hole) 0;
                   match result !! observation with
                   | None => Raise KeyError
                   | Some actions =>
                       if negb (py_in option actions)
                       then Return (<[observation := actions ++ [option]]> result)
                       else Return result
                   end)
              (list_to_map (map (fun x => (x, [])) (seq 0 observations))) holes;
      Return (filter (fun kv => kv.2 <> []) result)
  end.

(** *** The restrictions handed to [get_subfamilies] *)

(** How a call of [get_subfamilies_restrictions] ends: as the other
    methods do, or by reading the local [obs] before any assignment to it
    (an [UnboundLocalError]). *)
Inductive outcome (A : Type) : Type :=
  | Normal (r : result A)
  | UnboundLocalError.
Arguments Normal {A} r.
Arguments UnboundLocalError {A}.

(** The inner loop over [zip(observation_action_holes, range(...))]: the
    value of [obs] after it, [obs] being its value before ([None] while
    unbound). *)
Definition find_obs (tables : list (list nat)) (hole : nat) (obs : option nat)
  : option nat :=
  foldl (fun obs '(obs_holes, index) =>
           if bool_decide (hole ∈ obs_holes) then Some index else obs)
        obs (zip tables (seq 0 (length tables))).

(** The loop over [restricted_holes_list]. *)
Fixpoint restrictions_loop (q : Quotient) (result_dict : gmap nat (list Z))
    (restricted_holes_list : list nat) (obs : option nat)
    (subfamilies : list Restriction) : outcome (list Restriction) :=
  match restricted_holes_list with
  | [] => Normal (Return subfamilies)
  | hole :: rest =>
      match find_obs (observation_action_holes q) hole obs with
      | None => UnboundLocalError
      | Some obs =>
          match result_dict !! obs with
          | None => Normal (Raise KeyError)
          | Some actions =>
              match at_index (actions_at_observation q) obs with
              | Raise e => Normal (Raise e)
              | Return num_actions =>
                  if decide (Z.of_nat (length actions) = num_actions)
                  then restrictions_loop q result_dict rest (Some obs) subfamilies
                  else restrictions_loop q result_dict rest (Some obs)
                         (subfamilies ++ [mkRestriction hole actions])
              end
          end
      end
  end.

Section Restrictions.

Context {Value Export : Type}.

(** [get_subfamilies_restrictions]; [keys] is [list(result_dict.keys())]
    of the selected dictionary, in its iteration order. The empty
    dictionary that the method returns for an empty [result_dict] is the
    empty list here. *)
Definition get_subfamilies_restrictions (self : t (Value:=Value) (Export:=Export))
    (keys : list nat) (q : Quotient) (use_cutoffs : bool)
  : outcome (list Restriction) :=
  let result_dict := select_result_dict self use_cutoffs in
  if decide (result_dict = ∅) then Normal (Return [])
  else
    match rmap (fun observ => at_index (observation_action_holes q) observ) keys with
    | Raise e => Normal (Raise e)
    | Return act_obs_holes =>
        let restricted_holes_list := concat act_obs_holes in
        restrictions_loop q result_dict restricted_holes_list None []
    end.

End Restrictions.

End StormPOMDPControl.

(** ** simulation.py: SimulatedModel *)

Module SimulatedModel.


(** The underlying stormpy model, as far as the class reads it: the
    sparse transition matrix, one row group per state, each row a list of
    (column, value) entries; the number of available actions of a state is
    the size of its row group. *)
Record Model : Type := mkModel {
  transition_matrix : list (list (list (nat * Q)));
  initial_states : list nat
}.


Definition get_nr_available_actions (model : Model) (state : nat) : result nat :=
  row_group ← at_index (transition_matrix model) state; Return (length row_group).

Record t : Type := mk {
  model : Model;
  current_state : nat;
  state_row_group : list (list (list nat * list Q));
  state_is_absorbing : list bool
}.

(** [__init__] *)
Definition init (model : Model) : result t :=
  current_state ← at_index (initial_states model) 0;
  let state_row_group :=
    map (fun rows => map (fun row => (map fst row, map snd row)) rows)
        (transition_matrix model) in
  let state_is_absorbing :=
    imap (fun state rows =>
            forallb (fun row => forallb (fun entry => Nat.eqb (fst entry) state) row) rows)
         (transition_matrix model) in
  Return (mk model current_state state_row_group state_is_absorbing).

(** The [random] module is modelled by the draw it makes: [randint(0, n-1)]
    with draw [d] yields [d mod n], and [choices(succs, probs)[0]] yields
    the element at [d mod len(succs)]. Every outcome the library can
    produce is produced by some draw. *)

(** [sample_action] *)
Definition sample_action (self : t) (state : nat) (draw : nat) : result nat :=
  num_actions ← get_nr_available_actions (model self) state;
  if decide (num_actions = 0) then Raise ValueError
  else Return (draw mod num_actions).

(** [sample_successor] *)
Definition sample_successor (self : t) (state action : nat) (draw : nat) : result nat :=
  row_group ← at_index (state_row_group self) state;
  '(succs, probs) ← at_index row_group action;
  if decide (length succs = 0) then Raise IndexError
  else if Qle_bool (fold_right Qplus 0%Q probs) 0 then Raise ValueError
  else at_index succs (draw mod length succs).

(** The [for] loop of [sample_path]: [n] iterations remain, [k] draws
    were made. *)
Fixpoint sample_path_loop (self : t) (tape : nat -> nat) (n k : nat) (state : nat)
    (path : list (nat * nat)) : result (list (nat * nat)) :=
  match n with
  | 0 => Return path
  | S n' =>
      absorbing ← at_index (state_is_absorbing self) state;
      if (absorbing : bool) then Return path
      else
        action ← sample_action self state (tape k);
        let path := path ++ [(state, action)] in
        state ← sample_successor self state action (tape (S k));
        sample_path_loop self tape n' (S (S k)) state path
  end.

(** [sample_path(state, length)] with the draws of [tape]. *)
Definition sample_path (self : t) (tape : nat -> nat) (state : nat) (length : Z)
    : result (list (nat * nat)) :=
  sample_path_loop self tape (Z.to_nat length) 0 state [].

(** [reset_simulation] *)
Definition reset_simulation (self : t) : result t :=
  initial_state ← at_index (initial_states (model self)) 0;
  Return (mk (model self) initial_state (state_row_group self) (state_is_absorbing self)).

(** [simulate_action] *)
Definition simulate_action (self : t) (action : nat) (draw : nat) : result t :=
  successor ← sample_successor self (current_state self) action draw;
  Return (mk (model self) successor (state_row_group self) (state_is_absorbing self)).

End SimulatedModel.

(** ** synthesizer.py: SynthesizerAR *)

Module SynthesizerAR.

Section Synthesize.

(** The quotient and the model checker are external: the types of
    families (design spaces with their properties), properties, the
    optimality property, MDPs, model checking results and values, and the
    operations [synthesize] calls on them. [feasible] is [True], [False]
    or [None]. *)
Context {Family Property Optimality MDP Result Value : Type}.
Variable holes : Family -> Holes.t.
Variable properties : Family -> list Property.
Variable build : Family -> MDP.
Variable check_properties :
  MDP -> list Property -> option bool * list Property * list Result.
Variable check_optimality :
  MDP -> Optimality -> Result * option Value * option Holes.t * bool.
Variable update_optimum : Optimality -> Value -> Optimality.
Variable prepare_split : MDP -> Result -> list Property -> list Family.

(** What [synthesize] mutates: the stack [families] (its top, the last
    element of the Python list, first), the optimality property, the
    local [satisfying_assignment] and the two counters of [self.stat]. *)
Record state : Type := mkState {
  families : list Family;
  optimality : option Optimality;
  satisfying_assignment : option Holes.t;
  iterations_mdp : nat;
  pruned : nat
}.

Inductive body_result : Type :=
  | Break (st : state)
  | Continue (st : state).

(** One pass through the body of [while families], [family] being the
    family popped and [rest] the stack left. *)
Definition body (st : state) (family : Family) (rest : list Family)
  : result body_result :=
  let mdp := build family in
  let iterations := S (iterations_mdp st) in
  let '(feasible, undecided_properties, undecided_results) :=
    check_properties mdp (properties family) in
  let properties := undecided_properties in
  match feasible, optimality st with
  | Some true, None =>
      a ← Holes.pick_any (holes family);
      Return (Break (mkState rest (optimality st) (Some a) iterations (pruned st)))
  | _, _ =>
      let can_improve := match feasible with None => true | Some _ => false end in
      let '(opt, satisfying, can_improve, undecided_results) :=
        match feasible, optimality st with
        | Some true, Some o =>
            (* check optimality *)
            let '(results, optimum, improving_assignment, can_improve) :=
              check_optimality mdp o in
            let '(opt, satisfying) :=
              match optimum with
              | Some v => (Some (update_optimum o v), improving_assignment)
              | None => (Some o, satisfying_assignment st)
              end in
            (opt, satisfying, can_improve,
             if can_improve then undecided_results ++ [results] else undecided_results)
        | _, _ => (optimality st, satisfying_assignment st, can_improve, undecided_results)
        end in
      if negb can_improve then
        Return (Continue (mkState rest opt satisfying iterations
                                  (pruned st + Holes.size (holes family))))
      else
        (* split family wrt first undecided result *)
        undecided_result ← py_get undecided_results (-1);
        let subfamilies := prepare_split mdp undecided_result properties in
        Return (Continue (mkState (rev subfamilies ++ rest) opt satisfying iterations
                                  (pruned st)))
  end.

(** The [while] loop; [fuel] bounds the number of passes through the
    body, [None] is out of fuel. *)
Fixpoint loop (fuel : nat) (st : state) : option (result state) :=
  match families st with
  | [] => Some (Return st)
  | family :: rest =>
      match fuel with
      | 0 => None
      | S fuel' =>
          match body st family rest with
          | Raise e => Some (Raise e)
          | Return (Break st') => Some (Return st')
          | Return (Continue st') => loop fuel' st'
          end
      end
  end.

(** [synthesize(family)]: the final state, whose [satisfying_assignment]
    is the value returned; [optimality_property] is
    [self.sketch.optimality_property]. *)
Definition synthesize (optimality_property : option Optimality) (family : Family)
    (fuel : nat) : option (result state) :=
  loop fuel (mkState [family] optimality_property None 0 0).

End Synthesize.

End SynthesizerAR.

(** * Theorems *)

(** ** CombinationColoring *)

Module ColoringFacts.
Import Coloring.

Lemma get_present cc t c :
  consistent cc -> coloring cc !! t = Some c ->
  get_or_make_color cc t = (cc, c).
Proof.
  intros Hc Ht. unfold get_or_make_color. rewrite Ht. simpl.
  destruct (Hc _ _ Ht) as [Hr _].
  case_decide; [lia | reflexivity].
Qed.

Lemma get_absent cc t :
  coloring cc !! t = None ->
  get_or_make_color cc t =
    ({| coloring := <[t := colors cc + 1]> (coloring cc);
        reverse_coloring := <[colors cc + 1 := t]> (reverse_coloring cc) |},
     colors cc + 1).
Proof.
  intros Ht. unfold get_or_make_color. rewrite Ht. simpl.
  case_decide; [reflexivity | congruence].
Qed.

Lemma consistent_init : consistent init.
Proof. intros t c H. simpl in H. rewrite lookup_empty in H. discriminate. Qed.

Lemma consistent_step cc t :
  consistent cc -> consistent (get_or_make_color cc t).1.
Proof.
  intros Hc. destruct (coloring cc !! t) as [c|] eqn:Ht.
  - rewrite (get_present _ _ _ Hc Ht). exact Hc.
  - rewrite (get_absent _ _ Ht). simpl.
    intros t' c' H'. unfold colors in *. simpl in *.
    rewrite (map_size_insert_None _ _ _ Ht).
    destruct (decide (t = t')) as [->|Hne].
    + rewrite lookup_insert_eq in H'. inversion H'; subst.
      split; [lia | apply lookup_insert_eq].
    + rewrite lookup_insert_ne in H' by done.
      destruct (Hc _ _ H') as [Hr Hrev]. unfold colors in Hr.
      split; [lia |].
      rewrite lookup_insert_ne by lia. exact Hrev.
Qed.

Lemma reachable_consistent cc : reachable cc -> consistent cc.
Proof.
  induction 1; [apply consistent_init | by apply consistent_step].
Qed.

(** C6. On every coloring the class can produce and every combination
    [t]: the call stores [t] under the color it returns, and a second
    [get_or_make_color t] returns the same color and leaves the object as
    the first call left it; [reverse_coloring] maps that color back to
    [t]; the color is never 0. A combination that was already stored
    keeps its color and the object is not changed; one that was not yet
    stored receives [len(coloring) + 1], and only its two entries are
    added. *)
Theorem get_or_make_color_round_trip (cc : CombinationColoring) (t : combination) :
  reachable cc ->
  let cc1 := (get_or_make_color cc t).1 in
  let c := (get_or_make_color cc t).2 in
  get_or_make_color cc1 t = (cc1, c)
  /\ coloring cc1 !! t = Some c
  /\ reverse_coloring cc1 !! c = Some t
  /\ c <> 0
  /\ (forall c0, coloring cc !! t = Some c0 -> c = c0 /\ cc1 = cc)
  /\ (coloring cc !! t = None ->
      c = colors cc + 1
      /\ coloring cc1 = <[t := c]> (coloring cc)
      /\ reverse_coloring cc1 = <[c := t]> (reverse_coloring cc)).
Proof.
  intros Hr. apply reachable_consistent in Hr.
  pose proof (consistent_step cc t Hr) as Hc1.
  destruct (coloring cc !! t) as [c0|] eqn:Ht.
  - rewrite (get_present _ _ _ Hr Ht). simpl.
    destruct (Hr _ _ Ht) as [Hrange Hrev].
    repeat split; [by apply get_present | done | done | lia | congruence | discriminate
                   | discriminate | discriminate].
  - rewrite (get_absent _ _ Ht) in *. simpl in *.
    assert (Hin : coloring {| coloring := <[t := colors cc + 1]> (coloring cc);
                  reverse_coloring := <[colors cc + 1 := t]> (reverse_coloring cc) |}
                  !! t = Some (colors cc + 1)) by apply lookup_insert_eq.
    repeat split; try discriminate.
    + by apply get_present.
    + apply lookup_insert_eq.
    + apply lookup_insert_eq.
    + lia.
Qed.

Lemma get_or_make_color_round_trip_witness :
  let cc := (get_or_make_color init [Some 1%Z; None]).1 in
  let t := [None; Some 0%Z] in
  let cc1 := (get_or_make_color cc t).1 in
  let c := (get_or_make_color cc t).2 in
  reachable cc /\
  (get_or_make_color cc1 t = (cc1, c)
   /\ coloring cc1 !! t = Some c
   /\ reverse_coloring cc1 !! c = Some t
   /\ c <> 0
   /\ (forall c0, coloring cc !! t = Some c0 -> c = c0 /\ cc1 = cc)
   /\ (coloring cc !! t = None ->
       c = colors cc + 1
       /\ coloring cc1 = <[t := c]> (coloring cc)
       /\ reverse_coloring cc1 = <[c := t]> (reverse_coloring cc))).
Proof.
  simpl. split.
  - apply reachable_step, reachable_init.
  - apply (get_or_make_color_round_trip
             (get_or_make_color init [Some 1%Z; None]).1 [None; Some 0%Z]).
    apply reachable_step, reachable_init.
Defined.

End ColoringFacts.

(** ** Python indexing *)

Lemma py_norm_lt n i k : py_norm n i = Some k -> k < n.
Proof.
  unfold py_norm. intros H.
  destruct ((0 <=? i) && (i <? Z.of_nat n))%Z eqn:E1.
  - inversion H; subst. apply andb_prop in E1 as [? ?]. lia.
  - destruct ((- Z.of_nat n <=? i) && (i <? 0))%Z eqn:E2; [|discriminate].
    inversion H; subst. apply andb_prop in E2 as [? ?]. lia.
Qed.

Lemma py_norm_of_nat n k : k < n -> py_norm n (Z.of_nat k) = Some k.
Proof.
  intros H. unfold py_norm.
  replace ((0 <=? Z.of_nat k) && (Z.of_nat k <? Z.of_nat n))%Z with true.
  - by rewrite Nat2Z.id.
  - symmetry. apply andb_true_intro. split; [apply Z.leb_le | apply Z.ltb_lt]; lia.
Qed.

Lemma py_get_Return {A} (l : list A) i x :
  py_get l i = Return x <-> exists k, py_norm (length l) i = Some k /\ l !! k = Some x.
Proof.
  unfold py_get. split.
  - destruct (py_norm (length l) i) as [k|]; [|discriminate].
    destruct (l !! k) eqn:E; [|discriminate]. intros [= ->]. eauto.
  - intros (k & -> & ->). reflexivity.
Qed.

Lemma py_get_of_nat {A} (l : list A) k :
  py_get l (Z.of_nat k) = match l !! k with Some x => Return x | None => Raise IndexError end.
Proof.
  unfold py_get. destruct (decide (k < length l)) as [Hlt|Hge].
  - by rewrite py_norm_of_nat.
  - rewrite (lookup_ge_None_2 l k) by lia.
    unfold py_norm.
    replace (Z.of_nat k <? Z.of_nat (length l))%Z with false
      by (symmetry; apply Z.ltb_ge; lia).
    replace (Z.of_nat k <? 0)%Z with false by (symmetry; apply Z.ltb_ge; lia).
    by rewrite !andb_false_r.
Qed.

Lemma at_index_Return {A} (l : list A) i x :
  at_index l i = Return x <-> l !! i = Some x.
Proof.
  unfold at_index. destruct (l !! i); split; intros H; by inversion H.
Qed.

Lemma rbind_Return {A B} (m : result A) (k : A -> result B) b :
  (x ← m; k x) = Return b <-> exists a, m = Return a /\ k a = Return b.
Proof.
  unfold mbind, result_bind, rbind. destruct m as [a|e]; split.
  - eauto.
  - intros (a' & Ha & Hk). by inversion Ha.
  - discriminate.
  - intros (a' & Ha & _). discriminate.
Qed.

(** ** Holes: refinement *)

Module HolesFacts.

(** Hole by hole, no more options than before and each of them an
    option of the original hole. *)
Definition refines (F' F : Holes.t) : Prop :=
  Forall2 (fun h' h => Hole.size h' <= Hole.size h
                       /\ Hole.options h' ⊆ Hole.options h) F' F.

Lemma copy_id (h : Hole.t) : Hole.copy h = h.
Proof. by destruct h. Qed.

Lemma holes_copy_id (F : Holes.t) : Holes.copy F = F.
Proof.
  unfold Holes.copy. induction F as [|h F IH]; simpl; [done|].
  by rewrite copy_id, IH.
Qed.

Lemma refines_refl F : refines F F.
Proof. apply Forall2_same_length_lookup_2; [done|]. intros i h h' H1 H2.
  rewrite H1 in H2. inversion H2; subst. split; [lia | done]. Qed.

Lemma refines_size F' F : refines F' F -> Holes.size F' <= Holes.size F.
Proof.
  induction 1 as [|h' h F' F [Hs _] _ IH]; simpl; [done|].
  unfold Holes.size in *. simpl. by apply Nat.mul_le_mono.
Qed.

Lemma refines_get F' F i h' :
  refines F' F -> py_get F' i = Return h' ->
  exists h, py_get F i = Return h /\ Hole.options h' ⊆ Hole.options h.
Proof.
  intros HR Hg. apply py_get_Return in Hg as (k & Hk & Hl).
  pose proof (Forall2_length _ _ _ HR) as Hlen.
  destruct (Forall2_lookup_l _ _ _ _ _ HR Hl) as (h & Hh & _ & Hsub).
  exists h. split; [|done]. apply py_get_Return. exists k. by rewrite <- Hlen.
Qed.

Lemma refines_includes F' F d :
  refines F' F ->
  Holes.includes F' d = Return true -> Holes.includes F d = Return true.
Proof.
  intros HR. induction d as [|[i o] d IH]; simpl; [done|].
  intros H. apply rbind_Return in H as (h' & Hg & H).
  destruct (refines_get _ _ _ _ HR Hg) as (h & -> & Hsub). simpl.
  unfold py_in in *.
  destruct (bool_decide (o ∈ Hole.options h')) eqn:E; simpl in H; [|discriminate].
  apply bool_decide_eq_true_1 in E.
  rewrite (bool_decide_eq_true_2 (o ∈ Hole.options h)) by (by apply Hsub).
  simpl. by apply IH.
Qed.

(** A duplicate-free list drawn from [l] is no longer than [l]. *)
Lemma subset_length (s l : list Z) : NoDup s -> s ⊆ l -> length s <= length l.
Proof.
  intros Hnd Hsub. apply submseteq_length. by apply NoDup_submseteq.
Qed.

Lemma assume_hole_suboptions_inv F i sub F' :
  Holes.assume_hole_suboptions F i sub = Return F' <->
  exists k h, py_norm (length F) i = Some k /\ F !! k = Some h
              /\ F' = <[k := Hole.assume_suboptions h sub]> F.
Proof.
  unfold Holes.assume_hole_suboptions. rewrite holes_copy_id.
  rewrite rbind_Return. split.
  - intros (h & Hg & Hs). apply py_get_Return in Hg as (k & Hk & Hl).
    unfold py_set in Hs. rewrite Hk in Hs. inversion Hs; subst. eauto.
  - intros (k & h & Hk & Hl & ->). exists h. split.
    + apply py_get_Return. eauto.
    + unfold py_set. by rewrite Hk.
Qed.

Lemma assume_hole_suboptions_refines F i sub F' h :
  Holes.assume_hole_suboptions F i sub = Return F' ->
  py_get F i = Return h ->
  NoDup sub -> sub ⊆ Hole.options h ->
  refines F' F.
Proof.
  intros H Hg Hnd Hsub.
  apply assume_hole_suboptions_inv in H as (k & h0 & Hk & Hl & ->).
  apply py_get_Return in Hg as (k' & Hk' & Hl').
  rewrite Hk in Hk'. inversion Hk'; subst k'. rewrite Hl in Hl'. inversion Hl'; subst h0.
  apply Forall2_same_length_lookup_2; [by rewrite length_insert|].
  intros j x y Hx Hy. destruct (decide (k = j)) as [->|Hne].
  - rewrite list_lookup_insert_eq in Hx by (by eapply lookup_lt_Some).
    inversion Hx; subst. rewrite Hl in Hy. inversion Hy; subst.
    split; [by apply subset_length | done].
  - rewrite list_lookup_insert_ne in Hx by done.
    rewrite Hx in Hy. inversion Hy; subst. split; [lia | done].
Qed.

Lemma enumerate_seq {A} (l : list A) :
  enumerate l = zip (map Z.of_nat (seq 0 (length l))) l.
Proof. unfold enumerate, py_range. by rewrite Nat2Z.id. Qed.

(** With suboptions for every hole, [assume_suboptions] refines hole by
    hole. *)
Lemma assume_suboptions_run F subs :
  length F <= length subs ->
  Holes.assume_suboptions F subs = Return (zip_with Hole.assume_suboptions F subs).
Proof.
  intros Hlen. unfold Holes.assume_suboptions. rewrite enumerate_seq.
  enough (Hgen : forall a, length F + a <= length subs ->
            rmap (fun '(hole_index, hole) =>
                    suboptions ← py_get subs hole_index;
                    Return (Hole.assume_suboptions hole suboptions))
                 (zip (map Z.of_nat (seq a (length F))) F)
            = Return (zip_with Hole.assume_suboptions F (drop a subs))).
  { rewrite (Hgen 0) by lia. by rewrite drop_0. }
  clear Hlen. induction F as [|h F IH]; intros a Hlen; [done|].
  cbn [length seq map zip zip_with rmap].
  rewrite py_get_of_nat.
  destruct (subs !! a) as [s|] eqn:Es.
  2:{ apply lookup_ge_None in Es. simpl in Hlen. lia. }
  rewrite (drop_S _ _ _ Es).
  unfold mbind, result_bind, rbind. cbn [zip_with].
  unfold mbind, result_bind, rbind in IH.
  rewrite IH by (simpl in Hlen; lia). done.
Qed.

Lemma assume_suboptions_refines F subs :
  length F <= length subs ->
  (forall k h s, F !! k = Some h -> subs !! k = Some s ->
                 NoDup s /\ s ⊆ Hole.options h) ->
  refines (zip_with Hole.assume_suboptions F subs) F.
Proof.
  intros Hlen Hsub. apply Forall2_same_length_lookup_2.
  - rewrite length_zip_with. lia.
  - intros k h' h Hh' Hh.
    apply lookup_zip_with_Some in Hh' as (h0 & s & -> & Hh0 & Hs).
    rewrite Hh in Hh0. inversion Hh0; subst h0.
    destruct (Hsub _ _ _ Hh Hs) as [Hnd Hin].
    split; [by apply subset_length | done].
Qed.

End HolesFacts.

(** ** Holes as objects: what the methods allocate and write *)

Module StoreFacts.
Import Store.

Lemma holes_at_Forall2 σ ls hs :
  holes_at σ ls = Some hs <-> Forall2 (fun l h => hole_at σ l = Some h) ls hs.
Proof.
  revert hs. induction ls as [|l ls IH]; intros hs; simpl.
  - split; [intros [= <-]; constructor | by inversion 1].
  - destruct (hole_at σ l) as [h|] eqn:Eh.
    + destruct (holes_at σ ls) as [hs'|] eqn:Ehs.
      * split.
        -- intros [= <-]. constructor; [done | by apply IH].
        -- inversion 1 as [|? h0 ? hs0 Hh Hrest]; subst.
           apply IH in Hrest. congruence.
      * split; [discriminate|].
        inversion 1 as [|? h0 ? hs0 Hh Hrest]; subst.
        apply IH in Hrest. discriminate.
    + split; [discriminate|]. inversion 1; congruence.
Qed.

Lemma hole_at_prefix σ σ' l h :
  σ `prefix_of` σ' -> hole_at σ l = Some h -> hole_at σ' l = Some h.
Proof.
  unfold hole_at. intros Hp H.
  destruct (σ !! l) as [o|] eqn:E; [|discriminate].
  by rewrite (prefix_lookup_Some _ _ _ _ E Hp).
Qed.

Lemma get_hole_at σ l h : hole_at σ l = Some h -> get_hole l σ = Return (σ, h).
Proof.
  unfold hole_at, get_hole. destruct (σ !! l) as [[h'|]|]; try discriminate.
  by intros [= ->].
Qed.

(** [f] run in any extension of [σ0] allocates exactly one hole object,
    the one [r] describes, or raises as [r] does. *)
Definition allocs (σ0 : store) (f : M loc) (r : result Hole.t) : Prop :=
  forall σ, σ0 `prefix_of` σ ->
    f σ = match r with
          | Return h => Return (σ ++ [OHole h], length σ)
          | Raise e => Raise e
          end.

Lemma mapM_allocs {A B} (f : A -> M loc) (g : B -> result Hole.t) σ0 xs ys :
  Forall2 (fun x y => allocs σ0 (f x) (g y)) xs ys ->
  forall σ, σ0 `prefix_of` σ ->
    mapM f xs σ = match rmap g ys with
                  | Return hs => Return (σ ++ map OHole hs, seq (length σ) (length hs))
                  | Raise e => Raise e
                  end.
Proof.
  induction 1 as [|x y xs ys Hxy _ IH]; intros σ Hp; simpl.
  - unfold ret. by rewrite app_nil_r.
  - unfold bind at 1. rewrite (Hxy σ Hp).
    unfold mbind, result_bind, rbind.
    destruct (g y) as [h|e]; [|done].
    unfold bind at 1. rewrite IH by (by apply prefix_app_r).
    destruct (rmap g ys) as [hs|e]; [|done].
    unfold ret. simpl. rewrite length_app. simpl.
    rewrite <- app_assoc. simpl.
    by replace (length σ + 1) with (S (length σ)) by lia.
Qed.

Lemma Hole_copy_allocs σ0 l h :
  hole_at σ0 l = Some h -> allocs σ0 (Hole_copy l) (Return (Hole.copy h)).
Proof.
  intros Hh σ Hp. unfold Hole_copy, bind.
  by rewrite (get_hole_at _ _ _ (hole_at_prefix _ _ _ _ Hp Hh)).
Qed.

Lemma Hole_assume_suboptions_allocs σ0 l h subs i :
  hole_at σ0 l = Some h ->
  allocs σ0 (bind (lift (py_get subs i)) (fun s => Hole_assume_suboptions l s))
            (s ← py_get subs i; Return (Hole.assume_suboptions h s)).
Proof.
  intros Hh σ Hp. unfold bind, lift, mbind, result_bind, rbind.
  destruct (py_get subs i) as [s|e]; [|done].
  unfold Hole_assume_suboptions, bind.
  by rewrite (get_hole_at _ _ _ (hole_at_prefix _ _ _ _ Hp Hh)).
Qed.

(** Freshly appended hole objects are read back in order. *)
Lemma holes_at_fresh σ hs rest :
  holes_at (σ ++ map OHole hs ++ rest) (seq (length σ) (length hs)) = Some hs.
Proof.
  apply holes_at_Forall2. apply Forall2_same_length_lookup_2.
  - by rewrite length_seq.
  - intros j l h Hl Hh. apply lookup_seq in Hl as [-> Hj].
    unfold hole_at. rewrite lookup_app_r by lia.
    replace (length σ + j - length σ) with j by lia.
    rewrite lookup_app_l by (by rewrite length_map).
    by rewrite list_lookup_fmap, Hh.
Qed.

Lemma content_inv σ l F :
  content σ l = Some F ->
  exists hs, σ !! l = Some (OHoles hs) /\ holes_at σ hs = Some F.
Proof.
  unfold content. destruct (σ !! l) as [[h|hs]|]; try discriminate. eauto.
Qed.

Lemma enumerate_Forall2 {A B} (P : Z * A -> Z * B -> Prop) (R : A -> B -> Prop)
    (xs : list A) (ys : list B) :
  Forall2 R xs ys ->
  (forall i x y, R x y -> P (i, x) (i, y)) ->
  Forall2 P (enumerate xs) (enumerate ys).
Proof.
  intros HR HP. unfold enumerate, py_range.
  rewrite <- (Forall2_length _ _ _ HR), !Nat2Z.id.
  generalize 0 as a. induction HR as [|x y xs ys Hxy _ IH]; intros a.
  - constructor.
  - cbn [length seq map zip zip_with]. constructor; [by apply HP|]. apply IH.
Qed.

Lemma rmap_total {A B} (g : A -> B) (l : list A) :
  rmap (fun x => Return (g x)) l = Return (map g l).
Proof. induction l as [|x l IH]; simpl; [done|]. by rewrite IH. Qed.

Lemma get_holes_at σ l hs : σ !! l = Some (OHoles hs) -> get_holes l σ = Return (σ, hs).
Proof. unfold get_holes. by intros ->. Qed.

(** [Holes.copy] appends a copy of every hole and then the new list
    object, which it returns. *)
Lemma Holes_copy_run σ self F :
  content σ self = Some F ->
  Holes_copy self σ =
    Return (σ ++ map OHole F ++ [OHoles (seq (length σ) (length F))],
            length σ + length F).
Proof.
  intros Hc. apply content_inv in Hc as (hs & Hself & Hhs).
  unfold Holes_copy. unfold bind at 1. rewrite (get_holes_at _ _ _ Hself).
  unfold bind at 1.
  rewrite (mapM_allocs Hole_copy (fun h => Return (Hole.copy h)) σ hs F); [|..|done].
  - rewrite rmap_total. unfold alloc.
    rewrite length_map, length_app, length_map, <- app_assoc.
    replace (map Hole.copy F) with F; [done|].
    clear. induction F as [|h F IH]; simpl; [done|].
    by rewrite HolesFacts.copy_id, <- IH.
  - apply holes_at_Forall2 in Hhs.
    eapply Forall2_impl; [exact Hhs|]. intros l h Hl. by apply Hole_copy_allocs.
Qed.

Lemma py_get_raise {A} (l : list A) i :
  py_norm (length l) i = None -> py_get l i = Raise IndexError.
Proof. unfold py_get. by intros ->. Qed.

(** [Holes.assume_hole_suboptions] at a valid index: the copy, the new
    list object with the refined hole stored at [hole_index], and the
    refined hole object. *)
Lemma Holes_assume_hole_suboptions_run σ self F i sub k h :
  content σ self = Some F ->
  py_norm (length F) i = Some k -> F !! k = Some h ->
  Holes_assume_hole_suboptions self i sub σ =
    Return (σ ++ map OHole F
              ++ [OHoles (<[k := S (length σ + length F)]> (seq (length σ) (length F)));
                  OHole (Hole.assume_suboptions h sub)],
            length σ + length F).
Proof.
  intros Hc Hk Hh. unfold Holes_assume_hole_suboptions.
  unfold bind at 1. rewrite (Holes_copy_run _ _ _ Hc).
  apply content_inv in Hc as (hs & Hself & Hhs).
  pose proof (proj1 (holes_at_Forall2 _ _ _) Hhs) as HF2.
  pose proof (Forall2_length _ _ _ HF2) as Hlen.
  destruct (Forall2_lookup_r _ _ _ _ _ HF2 Hh) as (hl & Hhl & Hat).
  set (σ2 := σ ++ map OHole F ++ [OHoles (seq (length σ) (length F))]).
  assert (Hp : σ `prefix_of` σ2) by apply prefix_app_r, reflexivity.
  unfold bind at 1.
  rewrite (get_holes_at σ2 self hs) by (by eapply prefix_lookup_Some).
  unfold bind at 1, lift.
  replace (py_get hs i) with (Return (A:=nat) hl)
    by (symmetry; apply py_get_Return; exists k; by rewrite Hlen).
  unfold bind at 1, Hole_assume_suboptions. unfold bind at 1.
  rewrite (get_hole_at σ2 hl h) by (by eapply hole_at_prefix).
  unfold alloc.
  assert (Hl2 : length σ2 = S (length σ + length F)).
  { unfold σ2. rewrite !length_app, length_map. simpl. lia. }
  assert (Hres : (σ2 ++ [OHole (Hole.assume_suboptions h sub)]) !! (length σ + length F)
                 = Some (OHoles (seq (length σ) (length F)))).
  { rewrite lookup_app_l by lia. unfold σ2.
    rewrite lookup_app_r by lia. rewrite lookup_app_r by (rewrite length_map; lia).
    rewrite length_map.
    by replace (length σ + length F - length σ - length F) with 0 by lia. }
  unfold bind at 1. rewrite (get_holes_at _ _ _ Hres).
  unfold bind at 1, lift, py_set. rewrite length_seq, Hk.
  unfold bind, put, ret. f_equal. f_equal.
  rewrite Hl2. unfold σ2.
  rewrite <- !app_assoc.
  rewrite insert_app_r_alt by lia.
  f_equal.
  rewrite insert_app_r_alt by (rewrite length_map; lia).
  f_equal. rewrite length_map.
  by replace (length σ + length F - length σ - length F) with 0 by lia.
Qed.

Lemma holes_at_prefix σ σ' ls hs :
  σ `prefix_of` σ' -> holes_at σ ls = Some hs -> holes_at σ' ls = Some hs.
Proof.
  intros Hp H. apply holes_at_Forall2. apply holes_at_Forall2 in H.
  eapply Forall2_impl; [exact H|]. intros l h. by apply hole_at_prefix.
Qed.

(** Objects of the old store keep their content in every extension. *)
Lemma content_prefix σ σ' l F :
  σ `prefix_of` σ' -> content σ l = Some F -> content σ' l = Some F.
Proof.
  intros Hp Hc. apply content_inv in Hc as (hs & Hl & Hhs).
  unfold content. rewrite (prefix_lookup_Some _ _ _ _ Hl Hp).
  by eapply holes_at_prefix.
Qed.

Lemma content_fresh σ F rest :
  content (σ ++ map OHole F ++ OHoles (seq (length σ) (length F)) :: rest)
          (length σ + length F) = Some F.
Proof.
  unfold content. rewrite lookup_app_r by lia.
  rewrite lookup_app_r by (rewrite length_map; lia). rewrite length_map.
  replace (length σ + length F - length σ - length F) with 0 by lia. simpl.
  apply holes_at_fresh.
Qed.

Lemma content_fresh_insert σ F k h' :
  k < length F ->
  content (σ ++ map OHole F
             ++ [OHoles (<[k := S (length σ + length F)]> (seq (length σ) (length F)));
                 OHole h'])
          (length σ + length F) = Some (<[k := h']> F).
Proof.
  intros Hk. unfold content. rewrite lookup_app_r by lia.
  rewrite lookup_app_r by (rewrite length_map; lia). rewrite length_map.
  replace (length σ + length F - length σ - length F) with 0 by lia. simpl.
  apply holes_at_Forall2. apply Forall2_same_length_lookup_2.
  - by rewrite !length_insert, length_seq.
  - intros j l h Hl Hh. unfold hole_at.
    destruct (decide (k = j)) as [->|Hne].
    + rewrite list_lookup_insert_eq in Hl by (rewrite length_seq; lia).
      rewrite list_lookup_insert_eq in Hh by lia.
      inversion Hl; subst l. inversion Hh; subst h.
      rewrite lookup_app_r by lia.
      rewrite lookup_app_r by (rewrite length_map; lia). rewrite length_map.
      by replace (S (length σ + length F) - length σ - length F) with 1 by lia.
    + rewrite list_lookup_insert_ne in Hl by done.
      rewrite list_lookup_insert_ne in Hh by done.
      apply lookup_seq in Hl as [-> Hj].
      rewrite lookup_app_r by lia.
      replace (length σ + j - length σ) with j by lia.
      rewrite lookup_app_l by (by rewrite length_map).
      by rewrite list_lookup_fmap, Hh.
Qed.

(** [Holes.assume_suboptions] appends one refined hole per hole and the
    new list object, or raises where the value-level method does. *)
Lemma Holes_assume_suboptions_run σ self F subs :
  content σ self = Some F ->
  Holes_assume_suboptions self subs σ =
    match Holes.assume_suboptions F subs with
    | Return F' =>
        Return (σ ++ map OHole F' ++ [OHoles (seq (length σ) (length F'))],
                length σ + length F')
    | Raise e => Raise e
    end.
Proof.
  intros Hc. apply content_inv in Hc as (hs & Hself & Hhs).
  unfold Holes_assume_suboptions. unfold bind at 1.
  rewrite (get_holes_at _ _ _ Hself). unfold bind at 1.
  unfold Holes.assume_suboptions.
  rewrite (mapM_allocs
             (fun '(hole_index, hole) =>
                bind (lift (py_get subs hole_index)) (fun suboptions =>
                Hole_assume_suboptions hole suboptions))
             (fun '(hole_index, hole) =>
                suboptions ← py_get subs hole_index;
                Return (Hole.assume_suboptions hole suboptions))
             σ (enumerate hs) (enumerate F)); [|..|done].
  - destruct (rmap _ (enumerate F)) as [F'|e]; [|done].
    unfold alloc. by rewrite length_app, length_map, <- app_assoc.
  - apply holes_at_Forall2 in Hhs.
    eapply enumerate_Forall2; [exact Hhs|].
    intros i l h Hl. simpl. by apply Hole_assume_suboptions_allocs.
Qed.

End StoreFacts.

(** ** Refinement of families *)

Module RefinementFacts.
Import Store HolesFacts StoreFacts.

(** The family of scenario S4 and the store holding it: two hole
    objects and the list object at location 2. *)
Definition h0 : Hole.t := Hole.mk "h0" [0; 1; 2]%Z ["a"; "b"; "c"].
Definition h1 : Hole.t := Hole.mk "h1" [0; 1]%Z ["x"; "y"].
Definition F_S4 : Holes.t := [h0; h1].
Definition σ_S4 : store := [OHole h0; OHole h1; OHoles [0; 1]].

Example S4_sizes :
  Holes.size F_S4 = 6
  /\ (F' ← Holes.assume_hole_suboptions F_S4 0 [1; 2]%Z; Return (Holes.size F'))
     = Return 4
  /\ (a ← Holes.pick_any F_S4; Return (map Hole.options a)) = Return [[0]; [0]]%Z
  /\ (F' ← Holes.assume_hole_suboptions F_S4 0 [1; 2]%Z;
      a ← Holes.pick_any F'; Return (map Hole.options a)) = Return [[1]; [0]]%Z.
Proof. repeat split; reflexivity. Qed.

(** C5. Let the object [self] denote the family [F]. Refining one hole
    ([assume_hole_suboptions]) or every hole ([assume_suboptions]) with
    duplicate-free suboptions taken from the hole's options returns: the
    old store is a prefix of the new one, so no existing object changed
    and [self] still denotes [F]; the returned object denotes a family
    [F'] whose size is at most that of [F]; and every assignment that
    [F'] includes, [F] includes. *)
Theorem refinement_monotone_pure (σ : store) (self : loc) (F : Holes.t) :
  content σ self = Some F ->
  (forall hole_index suboptions hole,
      py_get F hole_index = Return hole ->
      NoDup suboptions -> suboptions ⊆ Hole.options hole ->
      exists σ' r F',
        Holes_assume_hole_suboptions self hole_index suboptions σ = Return (σ', r)
        /\ Holes.assume_hole_suboptions F hole_index suboptions = Return F'
        /\ σ `prefix_of` σ' /\ content σ' self = Some F /\ content σ' r = Some F'
        /\ Holes.size F' <= Holes.size F
        /\ forall d, Holes.includes F' d = Return true -> Holes.includes F d = Return true)
  /\ (forall hole_suboptions,
      length F <= length hole_suboptions ->
      (forall k h s, F !! k = Some h -> hole_suboptions !! k = Some s ->
                     NoDup s /\ s ⊆ Hole.options h) ->
      exists σ' r F',
        Holes_assume_suboptions self hole_suboptions σ = Return (σ', r)
        /\ Holes.assume_suboptions F hole_suboptions = Return F'
        /\ σ `prefix_of` σ' /\ content σ' self = Some F /\ content σ' r = Some F'
        /\ Holes.size F' <= Holes.size F
        /\ forall d, Holes.includes F' d = Return true -> Holes.includes F d = Return true).
Proof.
  intros Hc. split.
  - intros i sub h Hg Hnd Hsub.
    pose proof Hg as Hg'. apply py_get_Return in Hg' as (k & Hk & Hl).
    pose proof (lookup_lt_Some _ _ _ Hl) as Hlt.
    assert (Hv : Holes.assume_hole_suboptions F i sub
                 = Return (<[k := Hole.assume_suboptions h sub]> F))
      by (apply assume_hole_suboptions_inv; eauto).
    pose proof (assume_hole_suboptions_refines _ _ _ _ _ Hv Hg Hnd Hsub) as HR.
    eexists _, _, _. split; [by eapply Holes_assume_hole_suboptions_run|].
    split; [exact Hv|].
    assert (Hp : σ `prefix_of`
              (σ ++ map OHole F
                 ++ [OHoles (<[k := S (length σ + length F)]> (seq (length σ) (length F)));
                     OHole (Hole.assume_suboptions h sub)]))
      by apply prefix_app_r, reflexivity.
    split; [exact Hp|]. split; [by eapply content_prefix|].
    split; [by apply content_fresh_insert|].
    split; [by apply refines_size | intros d; by apply refines_includes].
  - intros subs Hlen Hsubs.
    pose proof (assume_suboptions_run F subs Hlen) as Hv.
    pose proof (assume_suboptions_refines F subs Hlen Hsubs) as HR.
    eexists _, _, _. split.
    { rewrite (Holes_assume_suboptions_run _ _ _ _ Hc), Hv. reflexivity. }
    split; [exact Hv|].
    assert (Hp : σ `prefix_of`
              (σ ++ map OHole (zip_with Hole.assume_suboptions F subs)
                 ++ [OHoles (seq (length σ)
                               (length (zip_with Hole.assume_suboptions F subs)))]))
      by apply prefix_app_r, reflexivity.
    split; [exact Hp|]. split; [by eapply content_prefix|].
    split; [by apply content_fresh|].
    split; [by apply refines_size | intros d; by apply refines_includes].
Qed.

Lemma refinement_monotone_pure_witness :
  exists σ' r F',
    Holes_assume_hole_suboptions 2 0 [1; 2]%Z σ_S4 = Return (σ', r)
    /\ Holes.assume_hole_suboptions F_S4 0 [1; 2]%Z = Return F'
    /\ σ_S4 `prefix_of` σ' /\ content σ' 2 = Some F_S4 /\ content σ' r = Some F'
    /\ Holes.size F' <= Holes.size F_S4
    /\ forall d, Holes.includes F' d = Return true -> Holes.includes F_S4 d = Return true.
Proof.
  apply (proj1 (refinement_monotone_pure σ_S4 2 F_S4 eq_refl) 0%Z [1; 2]%Z h0).
  - reflexivity.
  - compute_done.
  - intros x Hx. revert x Hx. apply Forall_forall. compute_done.
Defined.

End RefinementFacts.

(** ** Comprehensions over [enumerate] *)

Module EnumerateFacts.

Lemma enumerate_unfold {A} (l : list A) :
  enumerate l = zip (map Z.of_nat (seq 0 (length l))) l.
Proof. unfold enumerate, py_range. by rewrite Nat2Z.id. Qed.

Lemma rmap_length {A B} (f : A -> result B) l ys :
  rmap f l = Return ys -> length ys = length l.
Proof.
  revert ys. induction l as [|x l IH]; intros ys; simpl.
  - by intros [= <-].
  - intros H. apply rbind_Return in H as (y & _ & H).
    apply rbind_Return in H as (ys' & Hys' & [= <-]).
    simpl. f_equal. by apply IH.
Qed.

(** Each element of a comprehension over [enumerate(l)] is the body at
    that position. *)
Lemma rmap_enumerate_lookup {A B} (f : Z * A -> result B) (l : list A) ys :
  rmap f (enumerate l) = Return ys ->
  forall k x, l !! k = Some x ->
    exists y, ys !! k = Some y /\ f (Z.of_nat k, x) = Return y.
Proof.
  rewrite enumerate_unfold.
  enough (Hgen : forall a ys,
            rmap f (zip (map Z.of_nat (seq a (length l))) l) = Return ys ->
            forall k x, l !! k = Some x ->
              exists y, ys !! k = Some y /\ f (Z.of_nat (a + k), x) = Return y).
  { intros H k x Hk. exact (Hgen 0 ys H k x Hk). }
  clear ys. induction l as [|x0 l IH]; intros a ys H k x Hk; [done|].
  cbn [length seq map zip zip_with rmap] in H.
  apply rbind_Return in H as (y0 & Hy0 & H).
  apply rbind_Return in H as (ys' & Hys' & [= <-]).
  destruct k as [|k]; simpl in Hk.
  - inversion Hk; subst. exists y0. by rewrite Nat.add_0_r.
  - destruct (IH (S a) ys' Hys' k x Hk) as (y & Hy & Hf).
    exists y. split; [done|]. by replace (a + S k) with (S a + k) by lia.
Qed.

(** A comprehension that reads a second list at the enumeration index
    pairs the two lists, or raises [IndexError] when the second list is
    too short. *)
Lemma rmap_enumerate_zip {A B C} (f : A -> B -> C) (l1 : list A) (l2 : list B) :
  rmap (fun '(i, x) => y ← py_get l2 i; Return (f x y)) (enumerate l1)
  = if decide (length l1 <= length l2) then Return (zip_with f l1 l2)
    else Raise IndexError.
Proof.
  rewrite enumerate_unfold.
  enough (Hgen : forall a, a <= length l2 ->
            rmap (fun '(i, x) => y ← py_get l2 i; Return (f x y))
                 (zip (map Z.of_nat (seq a (length l1))) l1)
            = if decide (length l1 + a <= length l2)
              then Return (zip_with f l1 (drop a l2)) else Raise IndexError).
  { rewrite (Hgen 0) by lia. rewrite Nat.add_0_r, drop_0. done. }
  induction l1 as [|x l1 IH]; intros a Ha.
  - simpl. case_decide; [done | lia].
  - cbn [length seq map zip zip_with rmap]. rewrite py_get_of_nat.
    destruct (l2 !! a) as [y|] eqn:Ey.
    + rewrite (drop_S _ _ _ Ey). unfold mbind, result_bind, rbind.
      unfold mbind, result_bind, rbind in IH.
      rewrite IH by (apply lookup_lt_Some in Ey; lia).
      replace (length l1 + S a) with (S (length l1) + a) by lia.
      by case_decide.
    + apply lookup_ge_None in Ey. unfold mbind, result_bind, rbind.
      case_decide; [lia | done].
Qed.

End EnumerateFacts.

(** ** DesignSpace: picking and excluding assignments *)

Module SolverFacts.
Import DesignSpace EnumerateFacts.

(** The singleton family read off a model: hole [k] pinned to the value
    of its solver variable. *)
Definition pinned (m : Z3.model) (holes : Holes.t) (vars : list Z) : Holes.t :=
  zip_with (fun h var => Hole.mk (Hole.name h) [m var] (Hole.option_labels h)) holes vars.

(** The design space carries the encoding [z3_encode] computes for it. *)
Definition encoded (g : globals) (self : t) : Prop := z3_encode g self = Return self.

(** [b] has every hole of [a] that [conflict] lists, with the option [a]
    gives it. *)
Definition agrees (a b : Holes.t) (conflict : list Z) : Prop :=
  forall k ha, Z.of_nat k ∈ conflict -> a !! k = Some ha ->
    exists hb, b !! k = Some hb /\ head (Hole.options hb) = head (Hole.options ha).

Lemma pinned_zip m (holes : Holes.t) (vars : list Z) :
  zip_with Hole.assume_suboptions holes (zip_with (fun _ var => [m var]) holes vars)
  = pinned m holes vars.
Proof.
  unfold pinned. revert vars. induction holes as [|h holes IH]; intros [|v vars]; simpl; try done.
  by rewrite IH.
Qed.

Lemma pick_assignment_sat check g self enc m :
  encoding self = Some enc -> check (solver g) enc = Z3.sat m ->
  pick_assignment check g self
  = if decide (length (holes self) <= length (solver_vars g))
    then Return (Some (pinned m (holes self) (solver_vars g)))
    else Raise IndexError.
Proof.
  intros He Hc. unfold pick_assignment. rewrite He, Hc.
  change (rmap _ (enumerate (holes self)))
    with (rmap (fun '(i, x) => y ← py_get (solver_vars g) i;
                               Return ((fun (_ : Hole.t) var => [m var]) x y))
               (enumerate (holes self))).
  rewrite rmap_enumerate_zip. case_decide as Hlen; [|done].
  unfold mbind at 1, result_bind, rbind.
  rewrite HolesFacts.assume_suboptions_run by (rewrite length_zip_with; lia).
  unfold mbind, result_bind, rbind. by rewrite pinned_zip.
Qed.

Lemma search_sound candidates : Z3.sound (Z3.search candidates).
Proof.
  intros A e m. unfold Z3.search.
  destruct (find _ candidates) as [x|] eqn:Ef; [|discriminate].
  intros H. apply find_some in Ef as [_ Hx].
  apply andb_prop in Hx. assert (m = Z3.model_of x) as -> by congruence. exact Hx.
Qed.

Lemma forallb_false_lookup {A} (f : A -> bool) (l : list A) :
  forallb f l = false -> exists k x, l !! k = Some x /\ f x = false.
Proof.
  induction l as [|x l IH]; simpl; [discriminate|].
  destruct (f x) eqn:Ex; simpl.
  - intros H. destruct (IH H) as (k & y & Hk & Hy). by exists (S k), y.
  - intros _. by exists 0, x.
Qed.

Lemma forallb_true_lookup {A} (f : A -> bool) (l : list A) k x :
  forallb f l = true -> l !! k = Some x -> f x = true.
Proof.
  intros H Hk. rewrite forallb_forall in H. apply H.
  apply list_elem_of_In. by eapply list_elem_of_lookup_2.
Qed.

Lemma encoded_inv g self :
  encoded g self ->
  exists hole_clauses,
    encoding self = Some (Z3.And hole_clauses)
    /\ forall k h, holes self !! k = Some h ->
         exists var, solver_vars g !! k = Some var
           /\ hole_clauses !! k
              = Some (Z3.Or (map (fun option => Z3.Eq var option) (Hole.options h))).
Proof.
  unfold encoded, z3_encode. intros H.
  apply rbind_Return in H as (hc & Hhc & Hself).
  exists hc. split.
  - destruct self as [hs e]. simpl in *. by inversion Hself.
  - intros k h Hk.
    destruct (rmap_enumerate_lookup _ _ _ Hhc k h Hk) as (c & Hc & Hbody).
    simpl in Hbody. rewrite py_get_of_nat in Hbody.
    destruct (solver_vars g !! k) as [var|]; [|discriminate].
    simpl in Hbody. inversion Hbody; subst c. eauto.
Qed.

(** C7. On an encoded design space, [pick_assignment] returns [None]
    whenever the solver's check is [unsat] or [unknown]; when the check is
    [sat] it never returns [None]: with a solver variable for every hole
    it returns the singleton family that pins each hole to the value its
    variable has in the solver's model (and raises [IndexError] when
    variables are missing). *)
Theorem pick_assignment_contract
    (check : list Z3.expr -> Z3.expr -> Z3.check_result)
    (g : globals) (self : t) (enc : Z3.expr) :
  encoding self = Some enc ->
  match check (solver g) enc with
  | Z3.sat m =>
      pick_assignment check g self <> Return None
      /\ (length (holes self) <= length (solver_vars g) ->
          pick_assignment check g self
          = Return (Some (pinned m (holes self) (solver_vars g)))
          /\ Forall (fun h => Hole.size h = 1) (pinned m (holes self) (solver_vars g))
          /\ length (pinned m (holes self) (solver_vars g)) = length (holes self))
  | Z3.unsat | Z3.unknown => pick_assignment check g self = Return None
  end.
Proof.
  intros He. destruct (check (solver g) enc) as [m| |] eqn:Hc.
  - rewrite (pick_assignment_sat _ _ _ _ _ He Hc). split.
    + case_decide; discriminate.
    + intros Hlen. rewrite decide_True by done. split; [done|]. split.
      * unfold pinned. apply Forall_forall. intros h Hh.
        apply list_elem_of_lookup in Hh as (k & Hk).
        apply lookup_zip_with_Some in Hk as (h0 & v & -> & _ & _). done.
      * unfold pinned. rewrite length_zip_with. lia.
  - unfold pick_assignment. by rewrite He, Hc.
  - unfold pick_assignment. by rewrite He, Hc.
Qed.

(** C3. Let [exclude_assignment(a, c)] be called on an encoded design
    space with a sound solver. In every later solver state (the same
    variables, the formulas asserted so far still asserted) no
    [pick_assignment] on that design space returns an assignment that
    agrees with [a] on every hole of [c]. *)
Theorem blocking_sound
    (check : list Z3.expr -> Z3.expr -> Z3.check_result)
    (g g' g'' : globals) (self : t) (a b : Holes.t) (c : list Z) :
  Z3.sound check ->
  encoded g self ->
  exclude_assignment g self a c = Return g' ->
  solver_vars g'' = solver_vars g ->
  solver g' ⊆ solver g'' ->
  pick_assignment check g'' self = Return (Some b) ->
  ~ agrees a b c.
Proof.
  intros Hsound Henc Hex Hvars Hsub Hpick Hagree.
  destruct (encoded_inv _ _ Henc) as (hc & He & Hhc).
  destruct (check (solver g'') (Z3.And hc)) as [m| |] eqn:Hc;
    try (unfold pick_assignment in Hpick; rewrite He, Hc in Hpick; discriminate).
  rewrite (pick_assignment_sat _ _ _ _ _ He Hc) in Hpick.
  case_decide as Hlen; [|discriminate]. inversion Hpick; subst b. clear Hpick.
  rewrite Hvars in *.
  destruct (Hsound _ _ _ Hc) as [Hall Henc_true].
  unfold exclude_assignment in Hex.
  apply rbind_Return in Hex as (clauses & Hcl & Hg'). inversion Hg'; subst g'. clear Hg'.
  simpl in Hsub.
  assert (Hin : Z3.Not (Z3.And clauses) ∈ solver g'')
    by (apply Hsub, elem_of_app; right; by apply list_elem_of_singleton).
  apply list_elem_of_lookup in Hin as (j & Hj).
  pose proof (forallb_true_lookup _ _ _ _ Hall Hj) as Hnot. simpl in Hnot.
  apply negb_true_iff in Hnot.
  apply forallb_false_lookup in Hnot as (k & cl & Hk & Hfalse).
  pose proof (rmap_length _ _ _ Hcl) as Hlen_cl.
  assert (Hkv : k < length (solver_vars g)).
  { apply lookup_lt_Some in Hk. rewrite Hlen_cl in Hk.
    unfold enumerate in Hk. rewrite length_zip_with in Hk.
    lia. }
  destruct (lookup_lt_is_Some_2 _ _ Hkv) as (var & Hvar).
  destruct (rmap_enumerate_lookup _ _ _ Hcl k var Hvar) as (cl' & Hk' & Hbody).
  rewrite Hk in Hk'. inversion Hk'; subst cl'. clear Hk'.
  simpl in Hbody. unfold py_in in Hbody.
  destruct (bool_decide (Z.of_nat k ∈ c)) eqn:Hconf.
  - apply bool_decide_eq_true_1 in Hconf.
    apply rbind_Return in Hbody as (ha & Hha & Hbody).
    apply rbind_Return in Hbody as (o & Ho & Hbody). inversion Hbody; subst cl.
    rewrite py_get_of_nat in Hha. destruct (a !! k) as [ha'|] eqn:Hak; [|discriminate].
    inversion Hha; subst ha'.
    change 0%Z with (Z.of_nat 0) in Ho. rewrite py_get_of_nat in Ho.
    destruct (Hole.options ha) as [|o' os] eqn:Hopts; [discriminate|].
    simpl in Ho. inversion Ho; subst o'.
    destruct (Hagree k ha Hconf Hak) as (hb & Hb & Hhead).
    unfold pinned in Hb.
    apply lookup_zip_with_Some in Hb as (h0 & var' & -> & _ & Hvar').
    rewrite Hvar in Hvar'. inversion Hvar'; subst var'.
    rewrite Hopts in Hhead. simpl in Hhead, Hfalse. inversion Hhead as [Hm].
    rewrite Hm in Hfalse. by rewrite Z.eqb_refl in Hfalse.
  - apply rbind_Return in Hbody as (h & Hh & Hbody). inversion Hbody; subst cl.
    rewrite py_get_of_nat in Hh. destruct (holes self !! k) as [h'|] eqn:Hhk; [|discriminate].
    inversion Hh; subst h'.
    destruct (Hhc k h Hhk) as (var' & Hvar' & Hck).
    rewrite Hvar in Hvar'. inversion Hvar'; subst var'.
    simpl in Henc_true.
    pose proof (forallb_true_lookup _ _ _ _ Henc_true Hck) as Htrue.
    congruence.
Qed.

(** Scenario S5: three holes with options 0 and 1, the reference oracle
    over all eight assignments, witness (0,0,0) excluded with conflict
    {h0, h1}. *)
Definition holes_S5 : Holes.t :=
  [Hole.mk "h0" [0; 1]%Z ["a"; "b"]; Hole.mk "h1" [0; 1]%Z ["a"; "b"];
   Hole.mk "h2" [0; 1]%Z ["a"; "b"]].

Definition check_S5 : list Z3.expr -> Z3.expr -> Z3.check_result :=
  Z3.search [[0;0;0]; [0;0;1]; [0;1;0]; [0;1;1]; [1;0;0]; [1;0;1]; [1;1;0]; [1;1;1]]%Z.

Definition g0_S5 : globals := z3_initialize (init holes_S5).

Definition self_S5 : t :=
  Eval cbv in match z3_encode g0_S5 (init holes_S5) with
              | Return s => s
              | Raise _ => init holes_S5
              end.

Definition enc_S5 : Z3.expr :=
  Eval cbv in match encoding self_S5 with Some e => e | None => Z3.And [] end.

Definition a_S5 : Holes.t :=
  Eval cbv in match pick_assignment check_S5 g0_S5 self_S5 with
              | Return (Some a) => a
              | _ => []
              end.

Definition g1_S5 : globals :=
  Eval cbv in match exclude_assignment g0_S5 self_S5 a_S5 [0; 1]%Z with
              | Return g => g
              | Raise _ => g0_S5
              end.

Definition b_S5 : Holes.t :=
  Eval cbv in match pick_assignment check_S5 g1_S5 self_S5 with
              | Return (Some b) => b
              | _ => []
              end.

Example S5_picks :
  map Hole.options a_S5 = [[0]; [0]; [0]]%Z /\ map Hole.options b_S5 = [[0]; [1]; [0]]%Z.
Proof. split; reflexivity. Qed.

Lemma pick_assignment_contract_witness :
  match check_S5 (solver g0_S5) enc_S5 with
  | Z3.sat m =>
      pick_assignment check_S5 g0_S5 self_S5 <> Return None
      /\ (length (holes self_S5) <= length (solver_vars g0_S5) ->
          pick_assignment check_S5 g0_S5 self_S5
          = Return (Some (pinned m (holes self_S5) (solver_vars g0_S5)))
          /\ Forall (fun h => Hole.size h = 1)
                    (pinned m (holes self_S5) (solver_vars g0_S5))
          /\ length (pinned m (holes self_S5) (solver_vars g0_S5))
             = length (holes self_S5))
  | Z3.unsat | Z3.unknown => pick_assignment check_S5 g0_S5 self_S5 = Return None
  end.
Proof.
  apply (pick_assignment_contract check_S5 g0_S5 self_S5 enc_S5). reflexivity.
Defined.

Lemma blocking_sound_witness : ~ agrees a_S5 b_S5 [0; 1]%Z.
Proof.
  apply (blocking_sound check_S5 g0_S5 g1_S5 g1_S5 self_S5 a_S5 b_S5 [0; 1]%Z).
  - apply search_sound.
  - reflexivity.
  - reflexivity.
  - reflexivity.
  - intros x Hx. exact Hx.
  - reflexivity.
Defined.

(** The assignments still picked after the exclusion of scenario S5, each
    excluded in turn with the conflict of all holes. *)
Fixpoint remaining (fuel : nat) (g : globals) : list (list (list Z)) :=
  match fuel with
  | 0 => []
  | S fuel' =>
      match pick_assignment check_S5 g self_S5 with
      | Return (Some a) =>
          match exclude_assignment g self_S5 a (map fst (enumerate a)) with
          | Return g' => map Hole.options a :: remaining fuel' g'
          | Raise _ => []
          end
      | _ => []
      end
  end.

Example S5_six_remain :
  remaining 10 g1_S5
  = [ [[0]; [1]; [0]]; [[0]; [1]; [1]]; [[1]; [0]; [0]];
      [[1]; [0]; [1]]; [[1]; [1]; [0]]; [[1]; [1]; [1]] ]%Z.
Proof. vm_compute. reflexivity. Qed.

End SolverFacts.

(** ** CEGIS: counting the assignments of a family *)

Module CegisFacts.
Import DesignSpace EnumerateFacts SolverFacts.

(** All option vectors of a family, hole by hole. *)
Fixpoint candidates (F : Holes.t) : list (list Z) :=
  match F with
  | [] => [[]]
  | h :: F' => flat_map (fun o => map (cons o) (candidates F')) (Hole.options h)
  end.

(** The clause [exclude_assignment] adds for the vector [x] when every
    hole is in the conflict. *)
Definition blocking (vars x : list Z) : Z3.expr :=
  Z3.Not (Z3.And (zip_with Z3.Eq vars x)).

Lemma candidates_length F : length (candidates F) = Holes.size F.
Proof.
  induction F as [|h F IH]; [done|].
  unfold Holes.size in *. cbn [candidates map foldr]. rewrite <- IH.
  unfold Hole.size. induction (Hole.options h) as [|o os IHo]; [done|].
  cbn [flat_map length]. rewrite length_app, length_map, IHo. lia.
Qed.

Lemma candidates_elem F x :
  Forall2 (fun o h => o ∈ Hole.options h) x F -> x ∈ candidates F.
Proof.
  induction 1 as [|o h x F Ho _ IH]; simpl.
  - apply list_elem_of_singleton. done.
  - apply list_elem_of_In, in_flat_map. exists o. split.
    + by apply list_elem_of_In.
    + apply in_map. by apply list_elem_of_In.
Qed.

Lemma z3_initialize_vars ds :
  solver_vars (z3_initialize ds) = map Z.of_nat (seq 0 (length (holes ds))).
Proof.
  unfold z3_initialize. rewrite enumerate_unfold.
  enough (Hgen : forall a g,
    solver_vars (foldl (fun g '(hole_index, hole) =>
                   mkGlobals (solver g ++ [Z3.Ge hole_index 0;
                                           Z3.Lt hole_index (Z.of_nat (Hole.size hole))])
                             (solver_vars g ++ [hole_index]))
                 g (zip (map Z.of_nat (seq a (length (holes ds)))) (holes ds)))
    = solver_vars g ++ map Z.of_nat (seq a (length (holes ds)))).
  { by rewrite Hgen. }
  induction (holes ds) as [|h F IH]; intros a g.
  - simpl. by rewrite app_nil_r.
  - cbn [length seq map zip zip_with foldl]. rewrite IH. simpl.
    by rewrite <- app_assoc.
Qed.

Lemma z3_encode_run g ds :
  length (holes ds) <= length (solver_vars g) ->
  exists enc, z3_encode g ds = Return (mk (holes ds) (Some enc))
              /\ encoded g (mk (holes ds) (Some enc)).
Proof.
  intros Hlen. unfold encoded, z3_encode. simpl.
  change (rmap _ (enumerate (holes ds)))
    with (rmap (fun '(i, x) => y ← py_get (solver_vars g) i;
                  Return ((fun (hole : Hole.t) var =>
                             Z3.Or (map (fun option => Z3.Eq var option)
                                        (Hole.options hole))) x y))
               (enumerate (holes ds))).
  rewrite rmap_enumerate_zip, decide_True by done.
  eexists. split; reflexivity.
Qed.

(** What the loop maintains: [B] lists the vectors excluded so far, all
    distinct members of the family, each with its clause asserted. *)
Definition Inv (vars : list Z) (F : Holes.t) (g : globals) (B : list (list Z)) : Prop :=
  solver_vars g = vars /\ NoDup B /\ B ⊆ candidates F
  /\ forall x, x ∈ B -> blocking vars x ∈ solver g.

Lemma blocking_map m (vars : list Z) :
  zip_with Z3.Eq vars (map m vars) = map (fun var => Z3.Eq var (m var)) vars.
Proof. induction vars as [|v vars IH]; simpl; [done|]. by rewrite IH. Qed.

Lemma rmap_enumerate_ext {A B} (f : Z * A -> result B) (h : A -> B) (l : list A) :
  (forall k x, l !! k = Some x -> f (Z.of_nat k, x) = Return (h x)) ->
  rmap f (enumerate l) = Return (map h l).
Proof.
  rewrite enumerate_unfold.
  enough (Hgen : forall a,
            (forall k x, l !! k = Some x -> f (Z.of_nat (a + k), x) = Return (h x)) ->
            rmap f (zip (map Z.of_nat (seq a (length l))) l) = Return (map h l)).
  { intros H. apply (Hgen 0). exact H. }
  induction l as [|x l IH]; intros a H; [done|].
  cbn [length seq map zip zip_with rmap].
  specialize (H 0 x eq_refl) as H0. rewrite Nat.add_0_r in H0. rewrite H0.
  unfold mbind, result_bind, rbind. unfold mbind, result_bind, rbind in IH.
  rewrite (IH (S a)); [done|].
  intros k y Hk. specialize (H (S k) y Hk).
  by replace (S a + k) with (a + S k) by lia.
Qed.

Lemma enumerate_fst {A} (l : list A) :
  map fst (enumerate l) = map Z.of_nat (seq 0 (length l)).
Proof.
  rewrite enumerate_unfold. generalize 0 as a.
  induction l as [|x l IH]; intros a; [done|].
  cbn [length seq map zip zip_with fst]. by rewrite IH.
Qed.

(** Excluding a picked assignment with the conflict of all its holes
    asserts its blocking clause. *)
Lemma exclude_all g ds m :
  length (holes ds) = length (solver_vars g) ->
  let a := pinned m (holes ds) (solver_vars g) in
  exclude_assignment g ds a (map fst (enumerate a))
  = Return (mkGlobals (solver g ++ [blocking (solver_vars g) (map m (solver_vars g))])
                      (solver_vars g)).
Proof.
  intros Hlen a. unfold exclude_assignment, blocking.
  rewrite (rmap_enumerate_ext _ (fun var => Z3.Eq var (m var))).
  { unfold mbind, result_bind, rbind. by rewrite blocking_map. }
  intros k var Hvar.
  assert (Hk : k < length a).
  { unfold a, pinned. rewrite length_zip_with.
    apply lookup_lt_Some in Hvar. lia. }
  unfold py_in. rewrite bool_decide_eq_true_2.
  2:{ rewrite enumerate_fst. apply list_elem_of_fmap. exists k. split; [done|].
      apply list_elem_of_In, in_seq. lia. }
  rewrite py_get_of_nat.
  destruct (lookup_lt_is_Some_2 (holes ds) k) as (h & Hh).
  { apply lookup_lt_Some in Hvar. lia. }
  assert (Ha : a !! k = Some (Hole.mk (Hole.name h) [m var] (Hole.option_labels h))).
  { unfold a, pinned. apply lookup_zip_with_Some. eauto. }
  rewrite Ha. reflexivity.
Qed.

Lemma exclude_all_conflicts {P} g ds m (unsat_properties : list P) :
  length (holes ds) = length (solver_vars g) ->
  exists g',
    rfold (fun g0 conflict =>
             exclude_assignment g0 ds (pinned m (holes ds) (solver_vars g)) conflict) g
          (map (fun _ => map fst (enumerate (pinned m (holes ds) (solver_vars g))))
               unsat_properties) = Return g'
    /\ solver_vars g' = solver_vars g
    /\ solver g ⊆ solver g'
    /\ (unsat_properties <> [] ->
        blocking (solver_vars g) (map m (solver_vars g)) ∈ solver g').
Proof.
  intros Hlen.
  remember (solver_vars g) as vars eqn:Hvars.
  revert g Hlen Hvars.
  induction unsat_properties as [|p ps IH]; intros g Hlen Hvars.
  - exists g. by repeat split.
  - cbn [map rfold]. subst vars.
    pose proof (exclude_all g ds m Hlen) as Hex. cbv zeta in Hex. rewrite Hex.
    unfold mbind, result_bind, rbind.
    set (g1 := mkGlobals (solver g ++ [blocking (solver_vars g) (map m (solver_vars g))])
                         (solver_vars g)).
    destruct (IH g1 Hlen eq_refl) as (g' & Hr & Hv & Hs & _).
    exists g'. split; [exact Hr|]. split; [exact Hv|]. split.
    + intros x Hx. apply Hs. simpl. apply elem_of_app. by left.
    + intros _. apply Hs. simpl. apply elem_of_app. right.
      by apply list_elem_of_singleton.
Qed.

Lemma encoded_vars g g' ds :
  solver_vars g' = solver_vars g -> encoded g ds -> encoded g' ds.
Proof. unfold encoded, z3_encode. by intros ->. Qed.

Lemma subset_length_lt (B cand : list (list Z)) x :
  NoDup B -> B ⊆ cand -> x ∈ cand -> x ∉ B -> S (length B) <= length cand.
Proof.
  intros Hnd Hsub Hx Hnx.
  change (S (length B)) with (length (x :: B)).
  apply submseteq_length, NoDup_submseteq.
  - by apply NoDup_cons.
  - intros y Hy. apply elem_of_cons in Hy as [->|Hy]; [done | by apply Hsub].
Qed.

Section Loop.

Context {Property Optimality Value DTMC : Type}.
Variable check : list Z3.expr -> Z3.expr -> Z3.check_result.
Variable build : Holes.t -> DTMC.
Variable check_properties_all : DTMC -> list Property -> bool * list Property.
Variable check_optimality : DTMC -> Optimality -> Value * bool.
Variable update_optimum : Optimality -> Value -> Optimality.

Hypothesis check_sound : Z3.sound check.

(** The model checker's contract: a verdict of "not all satisfied" comes
    with at least one unsatisfied property. *)
Hypothesis unsat_reported :
  forall dtmc props unsat,
    check_properties_all dtmc props = (false, unsat) -> unsat <> [].

(** A picked assignment is a member of the family not excluded before. *)
Lemma pick_fresh g ds B a :
  encoded g ds -> length (holes ds) = length (solver_vars g) ->
  Inv (solver_vars g) (holes ds) g B ->
  pick_assignment check g ds = Return (Some a) ->
  exists m, a = pinned m (holes ds) (solver_vars g)
            /\ map m (solver_vars g) ∈ candidates (holes ds)
            /\ map m (solver_vars g) ∉ B.
Proof.
  intros Henc Hlen (_ & _ & _ & Hblock) Hpick.
  destruct (encoded_inv _ _ Henc) as (hc & He & Hhc).
  destruct (check (solver g) (Z3.And hc)) as [m| |] eqn:Hc;
    try (unfold pick_assignment in Hpick; rewrite He, Hc in Hpick; discriminate).
  rewrite (pick_assignment_sat _ _ _ _ _ He Hc) in Hpick.
  case_decide; [|discriminate]. inversion Hpick; subst a. clear Hpick.
  destruct (check_sound _ _ _ Hc) as [Hall Henc_true]. simpl in Henc_true.
  exists m. split; [done|]. split.
  - apply candidates_elem. apply Forall2_same_length_lookup_2.
    + rewrite length_map. lia.
    + intros k o h Ho Hh. destruct (Hhc k h Hh) as (var & Hvar & Hck).
      rewrite list_lookup_fmap, Hvar in Ho. inversion Ho; subst o.
      pose proof (forallb_true_lookup _ _ _ _ Henc_true Hck) as Htrue.
      simpl in Htrue. apply existsb_exists in Htrue as (e & He_in & Hev).
      apply in_map_iff in He_in as (o & <- & Ho_in). simpl in Hev.
      apply Z.eqb_eq in Hev. rewrite Hev. by apply list_elem_of_In.
  - intros Hin. specialize (Hblock _ Hin).
    apply list_elem_of_lookup in Hblock as (j & Hj).
    pose proof (forallb_true_lookup _ _ _ _ Hall Hj) as Hnot.
    unfold blocking in Hnot. simpl in Hnot. apply negb_true_iff in Hnot.
    apply forallb_false_lookup in Hnot as (k & cl & Hk & Hfalse).
    rewrite blocking_map, list_lookup_fmap in Hk.
    destruct (solver_vars g !! k) as [var|]; [|discriminate].
    inversion Hk; subst cl. simpl in Hfalse. by rewrite Z.eqb_refl in Hfalse.
Qed.

Lemma pick_total g ds :
  encoded g ds -> length (holes ds) = length (solver_vars g) ->
  exists next, pick_assignment check g ds = Return next.
Proof.
  intros Henc Hlen. destruct (encoded_inv _ _ Henc) as (hc & He & _).
  destruct (check (solver g) (Z3.And hc)) as [m| |] eqn:Hc.
  - rewrite (pick_assignment_sat _ _ _ _ _ He Hc), decide_True by lia. eauto.
  - unfold pick_assignment. rewrite He, Hc. eauto.
  - unfold pick_assignment. rewrite He, Hc. eauto.
Qed.

Abbreviation body := (SynthesizerCEGIS.body check build check_properties_all
                                            check_optimality update_optimum).
Abbreviation loop := (SynthesizerCEGIS.loop check build check_properties_all
                                            check_optimality update_optimum).

(** One pass either leaves the loop or excludes the picked vector, which
    was not excluded before, and picks again. *)
Lemma body_spec (st : SynthesizerCEGIS.state) ds (props : list Property) a B :
  encoded (SynthesizerCEGIS.globals st) ds ->
  length (holes ds) = length (solver_vars (SynthesizerCEGIS.globals st)) ->
  Inv (solver_vars (SynthesizerCEGIS.globals st)) (holes ds)
      (SynthesizerCEGIS.globals st) B ->
  pick_assignment check (SynthesizerCEGIS.globals st) ds = Return (Some a) ->
  S (length B) <= length (candidates (holes ds))
  /\ ((exists st', body ds props st a = Return (SynthesizerCEGIS.Break st')
         /\ SynthesizerCEGIS.iterations_dtmc st'
            = S (SynthesizerCEGIS.iterations_dtmc st))
      \/ (exists st' next x,
            body ds props st a = Return (SynthesizerCEGIS.Continue st' next)
            /\ SynthesizerCEGIS.iterations_dtmc st'
               = S (SynthesizerCEGIS.iterations_dtmc st)
            /\ solver_vars (SynthesizerCEGIS.globals st')
               = solver_vars (SynthesizerCEGIS.globals st)
            /\ Inv (solver_vars (SynthesizerCEGIS.globals st)) (holes ds)
                   (SynthesizerCEGIS.globals st') (x :: B)
            /\ pick_assignment check (SynthesizerCEGIS.globals st') ds = Return next)).
Proof.
  intros Henc Hlen HInv Hpick.
  destruct (pick_fresh _ _ _ _ Henc Hlen HInv Hpick) as (m & -> & Hcand & Hfresh).
  destruct HInv as (Hvars & Hnd & Hsub & Hblock).
  split; [by eapply subset_length_lt|].
  set (g := SynthesizerCEGIS.globals st) in *.
  set (x := map m (solver_vars g)) in *.
  assert (Hcont : forall (P : Type) (ups : list P) (opt' : option Optimality)
                     (sat' : option Holes.t) (it pr : nat),
            ups <> [] ->
            exists st' next,
              (g' ← rfold (fun g0 conflict =>
                             exclude_assignment g0 ds (pinned m (holes ds) (solver_vars g))
                                                conflict) g
                          (map (fun _ => map fst (enumerate
                                  (pinned m (holes ds) (solver_vars g)))) ups);
               next ← pick_assignment check g' ds;
               Return (SynthesizerCEGIS.Continue
                         (SynthesizerCEGIS.mkState g' opt' sat' it
                            (pr + length (map (fun _ => map fst (enumerate
                                  (pinned m (holes ds) (solver_vars g)))) ups)))
                         next))
              = Return (SynthesizerCEGIS.Continue st' next)
              /\ SynthesizerCEGIS.iterations_dtmc st' = it
              /\ solver_vars (SynthesizerCEGIS.globals st') = solver_vars g
              /\ Inv (solver_vars g) (holes ds) (SynthesizerCEGIS.globals st') (x :: B)
              /\ pick_assignment check (SynthesizerCEGIS.globals st') ds = Return next).
  { intros P ups opt' sat' it pr Hne.
    destruct (exclude_all_conflicts g ds m ups Hlen) as (g' & Hr & Hv & Hs & Hb).
    rewrite Hr. unfold mbind at 1, result_bind, rbind.
    destruct (pick_total g' ds) as (next & Hnext).
    { by eapply encoded_vars. } { by rewrite Hv. }
    rewrite Hnext. unfold mbind, result_bind, rbind.
    eexists _, next. split; [reflexivity|]. simpl.
    split; [done|]. split; [done|]. split; [|done].
    split; [done|]. split; [by apply NoDup_cons|]. split.
    - intros y Hy. apply elem_of_cons in Hy as [->|Hy]; [done | by apply Hsub].
    - intros y Hy. apply elem_of_cons in Hy as [->|Hy].
      + by apply Hb.
      + apply Hs. by apply Hblock. }
  unfold SynthesizerCEGIS.body.
  destruct (check_properties_all _ props) as [sat unsat] eqn:Hcpa.
  destruct (SynthesizerCEGIS.optimality st) as [opt|] eqn:Hopt.
  - destruct (check_optimality _ opt) as [optimum improves] eqn:Hco.
    right.
    assert (Hne : map (inl (B:=Optimality)) unsat ++ [inr opt] <> [])
      by (intros Habs; by apply app_eq_nil in Habs as [_ ?]).
    destruct sat, improves; cbv zeta beta iota;
      match goal with
      | |- context [SynthesizerCEGIS.mkState _ ?o ?s ?i (?p + _)] =>
          destruct (Hcont _ (map (inl (B:=Optimality)) unsat ++ [inr opt]) o s i p Hne)
            as (st' & next & Heq & Hit & Hv & HI & Hn)
      end; exists st', next, x; repeat split; try done; apply HI.
  - destruct sat.
    + left. eexists. split; [reflexivity|]. done.
    + right.
      assert (Hne : map (inl (B:=Optimality)) unsat <> []).
      { intros Habs. apply (unsat_reported _ _ _ Hcpa). by destruct unsat. }
      cbv zeta beta iota.
      match goal with
      | |- context [SynthesizerCEGIS.mkState _ ?o ?s ?i (?p + _)] =>
          destruct (Hcont _ (map (inl (B:=Optimality)) unsat) o s i p Hne)
            as (st' & next & Heq & Hit & Hv & HI & Hn)
      end. exists st', next, x. repeat split; try done; apply HI.
Qed.

Lemma loop_terminates ds (props : list Property) :
  forall fuel (st : SynthesizerCEGIS.state) B assignment,
    encoded (SynthesizerCEGIS.globals st) ds ->
    length (holes ds) = length (solver_vars (SynthesizerCEGIS.globals st)) ->
    Inv (solver_vars (SynthesizerCEGIS.globals st)) (holes ds)
        (SynthesizerCEGIS.globals st) B ->
    pick_assignment check (SynthesizerCEGIS.globals st) ds = Return assignment ->
    length (candidates (holes ds)) <= fuel + length B ->
    exists st',
      loop fuel ds props st assignment = Some (Return st')
      /\ SynthesizerCEGIS.iterations_dtmc st' + length B
         <= SynthesizerCEGIS.iterations_dtmc st + length (candidates (holes ds)).
Proof.
  induction fuel as [|fuel IH]; intros st B assignment Henc Hlen HInv Hpick Hfuel.
  - destruct assignment as [a|].
    + destruct (body_spec st ds props a B Henc Hlen HInv Hpick) as [Hlt _]. lia.
    + exists st. split; [done|].
      destruct HInv as (_ & Hnd & Hsub & _).
      pose proof (submseteq_length _ _ (NoDup_submseteq _ _ Hnd Hsub)). lia.
  - destruct assignment as [a|].
    + destruct (body_spec st ds props a B Henc Hlen HInv Hpick) as [Hlt Hbody].
      cbn [SynthesizerCEGIS.loop].
      destruct Hbody as [(st' & -> & Hit) | (st' & next & x & -> & Hit & Hv & HI & Hn)].
      * exists st'. split; [done|]. lia.
      * destruct (IH st' (x :: B) next) as (st'' & Hloop & Hbound).
        -- by eapply encoded_vars.
        -- by rewrite Hv.
        -- by rewrite Hv.
        -- done.
        -- simpl. lia.
        -- exists st''. split; [done|]. simpl in Hbound. lia.
    + exists st. split; [done|].
      destruct HInv as (_ & Hnd & Hsub & _).
      pose proof (submseteq_length _ _ (NoDup_submseteq _ _ Hnd Hsub)). lia.
Qed.

End Loop.

(** C4. With a sound solver and a model checker that names an unsatisfied
    property whenever it reports a violation, [SynthesizerCEGIS.run] on
    any sketch returns within [size] passes through its loop, [size] being
    the size of the sketch's design space: that much fuel suffices, no
    exception is raised, and the iteration counter of the final state is
    at most [size]. *)
Theorem cegis_terminates {Property Optimality Value DTMC : Type}
    (check : list Z3.expr -> Z3.expr -> Z3.check_result)
    (build : Holes.t -> DTMC)
    (check_properties_all : DTMC -> list Property -> bool * list Property)
    (check_optimality : DTMC -> Optimality -> Value * bool)
    (update_optimum : Optimality -> Value -> Optimality)
    (sketch : SynthesizerCEGIS.Sketch (Property:=Property) (Optimality:=Optimality)) :
  Z3.sound check ->
  (forall dtmc props unsat,
      check_properties_all dtmc props = (false, unsat) -> unsat <> []) ->
  let size := Holes.size (holes (SynthesizerCEGIS.design_space sketch)) in
  exists st,
    SynthesizerCEGIS.run check build check_properties_all check_optimality
                         update_optimum sketch size = Some (Return st)
    /\ SynthesizerCEGIS.iterations_dtmc st <= size.
Proof.
  intros Hsound Hmc size.
  unfold SynthesizerCEGIS.run.
  set (ds0 := SynthesizerCEGIS.design_space sketch) in *.
  set (g := z3_initialize ds0).
  assert (Hvl : length (solver_vars g) = length (holes ds0)).
  { unfold g. by rewrite z3_initialize_vars, length_map, length_seq. }
  destruct (z3_encode_run g ds0) as (enc & -> & Henc); [lia|].
  set (ds := mk (holes ds0) (Some enc)) in *.
  destruct (pick_total check g ds Henc) as (assignment & Hpick); [simpl; lia|].
  rewrite Hpick.
  destruct (loop_terminates check build check_properties_all check_optimality
              update_optimum Hsound Hmc ds (SynthesizerCEGIS.properties sketch) size
              (SynthesizerCEGIS.mkState g (SynthesizerCEGIS.optimality_property sketch)
                                        None 0 0)
              [] assignment) as (st & Hloop & Hbound); simpl.
  - exact Henc.
  - lia.
  - split; [done|]. split; [constructor|]. split.
    + intros x Hx. by apply elem_of_nil in Hx.
    + intros x Hx. by apply elem_of_nil in Hx.
  - exact Hpick.
  - rewrite candidates_length. unfold size. lia.
  - exists st. split; [exact Hloop|]. simpl in Hbound.
    rewrite candidates_length in Hbound. unfold size. lia.
Qed.

(** Scenario S2: two holes of size 2, one property that every assignment
    violates, no optimality. *)
Definition sketch_S2 : SynthesizerCEGIS.Sketch (Property:=unit) (Optimality:=unit) :=
  SynthesizerCEGIS.mkSketch
    (init [Hole.mk "h0" [0; 1]%Z ["a"; "b"]; Hole.mk "h1" [0; 1]%Z ["a"; "b"]])
    [tt] None.

Definition check_S2 : list Z3.expr -> Z3.expr -> Z3.check_result :=
  Z3.search [[0;0]; [0;1]; [1;0]; [1;1]]%Z.

(** Every property is violated by every DTMC. *)
Definition violate_all (dtmc : Holes.t) (props : list unit) : bool * list unit :=
  match props with
  | [] => (true, [])
  | _ => (false, props)
  end.

Definition run_S2 (fuel : nat) : option (result SynthesizerCEGIS.state) :=
  SynthesizerCEGIS.run (DTMC:=Holes.t) (Value:=unit) check_S2 (fun a => a)
    violate_all (fun _ _ => (tt, false)) (fun o _ => o)
    sketch_S2 fuel.

Example S2_all_unsat :
  (match run_S2 4 with
   | Some (Return st) =>
       Some (SynthesizerCEGIS.iterations_dtmc st, SynthesizerCEGIS.pruned st,
             SynthesizerCEGIS.satisfying_assignment st)
   | _ => None
   end) = Some (4, 4, None)
  /\ run_S2 3 = None.
Proof. split; reflexivity. Qed.

Lemma cegis_terminates_witness :
  exists st, run_S2 4 = Some (Return st) /\ SynthesizerCEGIS.iterations_dtmc st <= 4.
Proof.
  apply (cegis_terminates (DTMC:=Holes.t) (Value:=unit) check_S2 (fun a => a)
           violate_all (fun _ _ => (tt, false)) (fun o _ => o)
           sketch_S2).
  - apply search_sound.
  - intros dtmc [|p props] unsat H; [discriminate|].
    inversion H. discriminate.
Defined.

End CegisFacts.


(** ** StageControl: the allocation factor after one AR and one CEGIS stage *)

Module StageFacts.
Import PrimFloat PyNum StageControl.

Ltac step_fields :=
  cbn [stage_cegar get_models_total models_total negb andb stage_time_cegar
       stage_pruned_cegar stage_time_cegis stage_pruned_cegis
       cegis_allocated_time_factor cegis_allocated_time].

(** A fresh controller cannot take a step: [models_total] is not set. *)
Example step_fresh_raises :
  step (Some start) init (PyInt 100) (PyFloat 1) (PyFloat 1) = Raise AttributeError.
Proof. vm_compute. reflexivity. Qed.

(** Without a binding for [stage_start] the AR stage cannot end. *)
Example step_without_stage_start :
  step None (set_models_total init (PyInt 1000)) (PyInt 100) (PyFloat 1) (PyFloat 1)
  = Raise AttributeError.
Proof. vm_compute. reflexivity. Qed.

(** The two steps of scenario S6, (AR prunes 100 in 1s) then (CEGIS
    prunes 10 in 1s), on a controller whose owner set [models_total] to
    [n] and bound [stage_start] to [start]. The pruned counts and the
    total are [int]s, the timer reads the float 1.0. *)
Definition two_stages (n : Z) : result (t * bool) :=
  '(sc1, _) ← step (Some start) (set_models_total init (PyInt n))
                 (PyInt 100) (PyFloat 1) (PyFloat 1);
  step (Some start) sc1 (PyInt 10) (PyFloat 1) (PyFloat 1).

Definition after_S6 : result (t * bool) := two_stages 1000.

(** The float [0.1], the one nearest to 1/10. *)
Definition tenth : float := 0x1.999999999999ap-4.

(** C1, as stated, fails: after (AR prunes 100 in 1s) and (CEGIS prunes 10
    in 1s) the controller is back in the AR stage, but the allocation
    factor is the float 0.1, not 10. *)
Lemma stage_factor_is_not_ten :
  match after_S6 with
  | Return (sc2, switched) =>
      switched = true
      /\ stage_cegar sc2 = true
      /\ cegis_allocated_time_factor sc2 = PyFloat tenth
      /\ PyNum.eqb (cegis_allocated_time_factor sc2) (PyInt 10) = false
  | Raise _ => False
  end.
Proof.
  vm_compute. repeat split; reflexivity.
Qed.

(** The floats 0.09999999999999998 and 0.10000000000000002: the second
    float below [0.1] and the first float above it. *)
Definition tenth_lo : float := 0x1.9999999999998p-4.
Definition tenth_hi : float := 0x1.999999999999bp-4.

(** Two floats are the same float: same sign, mantissa and exponent. *)
Definition same_float (f g : float) : bool :=
  match FloatOps.Prim2SF f, FloatOps.Prim2SF g with
  | SpecFloat.S754_zero s, SpecFloat.S754_zero s' => Bool.eqb s s'
  | SpecFloat.S754_infinity s, SpecFloat.S754_infinity s' => Bool.eqb s s'
  | SpecFloat.S754_nan, SpecFloat.S754_nan => true
  | SpecFloat.S754_finite s m e, SpecFloat.S754_finite s' m' e' =>
      Bool.eqb s s' && Pos.eqb m m' && Z.eqb e e'
  | _, _ => false
  end.

Lemma same_float_eq (f g : float) : same_float f g = true -> f = g.
Proof.
  unfold same_float. intros H.
  rewrite <- (FloatAxioms.SF2Prim_Prim2SF f), <- (FloatAxioms.SF2Prim_Prim2SF g).
  f_equal.
  destruct (FloatOps.Prim2SF f) as [s|s| |s m e], (FloatOps.Prim2SF g) as [s'|s'| |s' m' e'];
    try discriminate; try done.
  - apply Bool.eqb_prop in H. by subst.
  - apply Bool.eqb_prop in H. by subst.
  - apply andb_prop in H as [H He]. apply andb_prop in H as [Hs Hm].
    apply Bool.eqb_prop in Hs. apply Pos.eqb_eq in Hm. apply Z.eqb_eq in He. by subst.
Qed.

(** The outcome of the two stages that the theorem below states, as a
    test. *)
Definition factor_near_tenth (n : Z) : bool :=
  match step (Some start) (set_models_total init (PyInt n))
             (PyInt 100) (PyFloat 1) (PyFloat 1),
        int_truediv 100 n, int_truediv 10 n with
  | Return (sc1, true), Return a, Return b =>
      negb (stage_cegar sc1)
      && match step (Some start) sc1 (PyInt 10) (PyFloat 1) (PyFloat 1) with
         | Return (sc2, true) =>
             stage_cegar sc2
             && match cegis_allocated_time_factor sc2 with
                | PyFloat f =>
                    same_float f (1 / (a / b))
                    && (tenth_lo <=? f)%float && (f <=? tenth_hi)%float
                | PyInt _ => false
                end
         | _ => false
         end
  | _, _, _ => false
  end.

(** The test on [k] totals from [n] on. *)
Fixpoint all_from (k : nat) (n : Z) : bool :=
  match k with
  | O => true
  | S k' => factor_near_tenth n && all_from k' (n + 1)
  end.

Lemma all_from_spec (k : nat) :
  forall n, all_from k n = true ->
  forall m, (n <= m < n + Z.of_nat k)%Z -> factor_near_tenth m = true.
Proof.
  induction k as [|k IH]; intros n H m Hm; [lia|].
  cbn [all_from] in H. apply andb_prop in H as [Hn Hrest].
  destruct (decide (m = n)) as [->|Hne]; [done|].
  apply (IH (n + 1)%Z Hrest). lia.
Qed.

Lemma all_totals_to_10000 : all_from (Z.to_nat 10000) 1 = true.
Proof. vm_compute. reflexivity. Qed.

Lemma factor_near_tenth_spec (n : Z) :
  factor_near_tenth n = true ->
  exists sc1 sc2 a b,
    step (Some start) (set_models_total init (PyInt n))
         (PyInt 100) (PyFloat 1) (PyFloat 1) = Return (sc1, true)
    /\ stage_cegar sc1 = false
    /\ step (Some start) sc1 (PyInt 10) (PyFloat 1) (PyFloat 1) = Return (sc2, true)
    /\ stage_cegar sc2 = true
    /\ int_truediv 100 n = Return a /\ int_truediv 10 n = Return b
    /\ cegis_allocated_time_factor sc2 = PyFloat (1 / (a / b))
    /\ (tenth_lo <=? 1 / (a / b))%float = true
    /\ (1 / (a / b) <=? tenth_hi)%float = true.
Proof.
  unfold factor_near_tenth.
  destruct (step (Some start) (set_models_total init (PyInt n)) _ _ _)
    as [[sc1 [|]]|e]; [|discriminate..].
  destruct (int_truediv 100 n) as [a|e]; [|discriminate].
  destruct (int_truediv 10 n) as [b|e]; [|discriminate].
  intros H. apply andb_prop in H as [H1 H].
  destruct (step (Some start) sc1 _ _ _) as [[sc2 [|]]|e] eqn:E2; [|discriminate..].
  apply andb_prop in H as [H2 H].
  destruct (cegis_allocated_time_factor sc2) as [z|f] eqn:Hf; [discriminate|].
  apply andb_prop in H as [H Hhi]. apply andb_prop in H as [Hsame Hlo].
  apply same_float_eq in Hsame. subst f.
  exists sc1, sc2, a, b. repeat split; try done.
  by destruct (stage_cegar sc1).
Qed.

(** C1, amended. On a controller whose owner set [models_total] to an
    [int] [n] from 1 to 10000 and bound [stage_start] to [start]: after
    (AR prunes 100 in 1s) the controller is in the CEGIS stage, and after
    (CEGIS prunes 10 in 1s) it is back in the AR stage with the
    allocation factor 1 / ((100/n) / (10/n)) of Python's float
    arithmetic, the reciprocal of the AR dominance: a float from
    0.09999999999999998 to 0.10000000000000002, and the float 0.1 itself
    for the total 1000. *)
Theorem stage_factor_after_two_stages (n : Z) :
  (1 <= n <= 10000)%Z ->
  exists sc1 sc2 a b,
    step (Some start) (set_models_total init (PyInt n))
         (PyInt 100) (PyFloat 1) (PyFloat 1) = Return (sc1, true)
    /\ stage_cegar sc1 = false
    /\ step (Some start) sc1 (PyInt 10) (PyFloat 1) (PyFloat 1) = Return (sc2, true)
    /\ stage_cegar sc2 = true
    /\ int_truediv 100 n = Return a /\ int_truediv 10 n = Return b
    /\ cegis_allocated_time_factor sc2 = PyFloat (1 / (a / b))
    /\ (tenth_lo <=? 1 / (a / b))%float = true
    /\ (1 / (a / b) <=? tenth_hi)%float = true
    /\ (n = 1000%Z -> (1 / (a / b))%float = tenth).
Proof.
  intros Hn. destruct (decide (n = 1000%Z)) as [->|Hne].
  - eexists _, _, _, _. split; [vm_compute; reflexivity|].
    split; [reflexivity|]. split; [vm_compute; reflexivity|].
    split; [reflexivity|]. split; [vm_compute; reflexivity|].
    split; [vm_compute; reflexivity|].
    repeat split; vm_compute; reflexivity.
  - destruct (factor_near_tenth_spec n) as (sc1 & sc2 & a & b & H).
    { apply (all_from_spec _ _ all_totals_to_10000). lia. }
    exists sc1, sc2, a, b. repeat split; try apply H. done.
Qed.

Lemma stage_factor_after_two_stages_witness :
  exists sc1 sc2 a b,
    step (Some start) (set_models_total init (PyInt 1000))
         (PyInt 100) (PyFloat 1) (PyFloat 1) = Return (sc1, true)
    /\ stage_cegar sc1 = false
    /\ step (Some start) sc1 (PyInt 10) (PyFloat 1) (PyFloat 1) = Return (sc2, true)
    /\ stage_cegar sc2 = true
    /\ int_truediv 100 1000 = Return a /\ int_truediv 10 1000 = Return b
    /\ cegis_allocated_time_factor sc2 = PyFloat (1 / (a / b))
    /\ (tenth_lo <=? 1 / (a / b))%float = true
    /\ (1 / (a / b) <=? tenth_hi)%float = true
    /\ (1000%Z = 1000%Z -> (1 / (a / b))%float = tenth).
Proof.
  apply (stage_factor_after_two_stages 1000). lia.
Defined.

(** The range of totals matters. With the total 10**322 the two pruned
    fractions are subnormal floats and the factor is 0.0998...; with
    10**400 both fractions are 0.0 and the factor is 1.0. *)
Example stage_factor_huge_total :
  match two_stages (10 ^ 322), two_stages (10 ^ 400) with
  | Return (sc, _), Return (sc', _) =>
      cegis_allocated_time_factor sc = PyFloat 0x1.98ca5f1d58082p-4
      /\ stage_pruned_cegis sc' = PyFloat 0
      /\ cegis_allocated_time_factor sc' = PyFloat 1
  | _, _ => False
  end.
Proof. vm_compute. repeat split; reflexivity. Qed.

End StageFacts.

(** ** StormPOMDPControl: comparing the internal value with the Storm bound *)

Module UpdateDataFacts.
Import StormPOMDPControl.

(** C10. [update_data] changes nothing when the internal value or the
    stored Storm bound is [None]. Otherwise [is_storm_better] becomes
    [False] exactly when the internal value is at least as good as the
    bound ([<=] when minimizing, [>=] when maximizing), and [True]
    otherwise; so with reflexive comparisons a tie counts the internal
    result as better. *)
Theorem update_data_effect {Value Export : Type}
    (le ge : Value -> Value -> bool) (extract_policy : Quotient -> Holes.t -> Export)
    (self : t) (paynt_value : option Value) (minimizing : bool)
    (assignment : option Holes.t) :
  let self' := update_data le ge extract_policy self paynt_value minimizing assignment in
  ((paynt_value = None \/ storm_bounds self = None) ->
     self' = self
     /\ is_storm_better self' = is_storm_better self
     /\ latest_paynt_result self' = latest_paynt_result self
     /\ paynt_export self' = paynt_export self)
  /\ (forall v b, paynt_value = Some v -> storm_bounds self = Some b ->
        is_storm_better self' = negb (if minimizing then le v b else ge v b)
        /\ ((forall x, le x x = true) -> (forall x, ge x x = true) -> v = b ->
            is_storm_better self' = false)).
Proof.
  intros self'. subst self'. split.
  - intros [-> | Hb]; unfold update_data.
    + done.
    + rewrite Hb. by destruct paynt_value.
  - intros v b -> Hb. unfold update_data. rewrite Hb.
    assert (Hgen : is_storm_better
              (match assignment with
               | Some a =>
                   set_paynt_result
                     (if minimizing
                      then if le v b then set_is_storm_better self false
                           else set_is_storm_better self true
                      else if ge v b then set_is_storm_better self false
                           else set_is_storm_better self true)
                     a (extract_policy
                          (quotient
                             (if minimizing
                              then if le v b then set_is_storm_better self false
                                   else set_is_storm_better self true
                              else if ge v b then set_is_storm_better self false
                                   else set_is_storm_better self true)) a)
               | None =>
                   if minimizing
                   then if le v b then set_is_storm_better self false
                        else set_is_storm_better self true
                   else if ge v b then set_is_storm_better self false
                        else set_is_storm_better self true
               end) = negb (if minimizing then le v b else ge v b)).
    { destruct assignment, minimizing; simpl;
        [destruct (le v b) | destruct (ge v b) | destruct (le v b) | destruct (ge v b)];
        reflexivity. }
    split; [exact Hgen|].
    intros Hle Hge ->. rewrite Hgen. destruct minimizing; by rewrite ?Hle, ?Hge.
Qed.

(** A controller with Storm bound 5/2, values compared as rationals. *)
Definition control_ex : t (Value:=Q) (Export:=list Z) :=
  mk None ∅ ∅ ∅ (Some (5 # 2)%Q) true (mkQuotient 0 [] [] [] []) [].

Definition Qge_bool (x y : Q) : bool := Qle_bool y x.

Example update_data_tie :
  is_storm_better
    (update_data Qle_bool Qge_bool (fun _ _ => [1%Z]) control_ex (Some (5 # 2)%Q) true None)
  = false
  /\ is_storm_better
       (update_data Qle_bool Qge_bool (fun _ _ => [1%Z]) control_ex (Some (3 # 1)%Q) true None)
     = true
  /\ is_storm_better
       (update_data Qle_bool Qge_bool (fun _ _ => [1%Z]) control_ex (Some (3 # 1)%Q) false None)
     = false.
Proof. repeat split; reflexivity. Qed.

Lemma update_data_effect_witness :
  is_storm_better
    (update_data Qle_bool Qge_bool (fun _ _ => [1%Z]) control_ex (Some (5 # 2)%Q) true None)
  = negb (Qle_bool (5 # 2) (5 # 2))
  /\ update_data Qle_bool Qge_bool (fun _ _ => [1%Z]) control_ex None true (Some [])
     = control_ex.
Proof.
  split.
  - exact (proj1 (proj2 (update_data_effect Qle_bool Qge_bool (fun _ _ => [1%Z])
                           control_ex (Some (5 # 2)%Q) true None)
                        (5 # 2)%Q (5 # 2)%Q eq_refl eq_refl)).
  - exact (proj1 (proj1 (update_data_effect Qle_bool Qge_bool (fun _ _ => [1%Z])
                           control_ex None true (Some []))
                        (or_introl eq_refl))).
Defined.

End UpdateDataFacts.

(** ** SimulatedModel: sampled paths *)

Module SimulationFacts.
Import SimulatedModel.

(** The loop only appends, at most one pair per iteration, and only pairs
    whose state is flagged as not absorbing. *)
Lemma sample_path_loop_spec self tape n :
  forall k state path res,
    sample_path_loop self tape n k state path = Return res ->
    exists ext, res = path ++ ext /\ length ext <= n
                /\ Forall (fun p => state_is_absorbing self !! p.1 = Some false) ext.
Proof.
  induction n as [|n IH]; intros k state path res H; simpl in H.
  - inversion H; subst. exists []. by rewrite app_nil_r.
  - apply rbind_Return in H as (absorbing & Habs & H).
    apply at_index_Return in Habs.
    destruct absorbing.
    + inversion H; subst. exists []. rewrite app_nil_r. repeat split; [simpl; lia | constructor].
    + apply rbind_Return in H as (action & _ & H).
      apply rbind_Return in H as (state' & _ & H).
      destruct (IH _ _ _ _ H) as (ext & -> & Hlen & Hall).
      exists ((state, action) :: ext). rewrite <- app_assoc. simpl.
      repeat split; [lia | by constructor].
Qed.

Lemma init_absorbing model self state :
  init model = Return self ->
  state_is_absorbing self !! state
  = (fun rows => forallb (fun row => forallb (fun entry => Nat.eqb entry.1 state) row) rows)
      <$> transition_matrix model !! state.
Proof.
  unfold init. intros H. apply rbind_Return in H as (c & _ & H).
  inversion H; subst. simpl. by rewrite list_lookup_imap.
Qed.

(** C9. For a simulated model built by [__init__], any draws, any start
    state [s] and any length [L]: a returned path has at most [max(L, 0)]
    pairs and no pair whose state is absorbing; and whenever [s] is
    absorbing (it is a state of the model and every entry of every row of
    [s] has column [s]) the path returned is empty. *)
Theorem sample_path_bounded (model : Model) (self : t) (tape : nat -> nat)
    (s : nat) (L : Z) :
  init model = Return self ->
  (forall path, sample_path self tape s L = Return path ->
     (Z.of_nat (length path) <= Z.max L 0)%Z
     /\ Forall (fun p => state_is_absorbing self !! p.1 = Some false) path)
  /\ (forall rows, transition_matrix model !! s = Some rows ->
        Forall (fun row => Forall (fun entry => entry.1 = s) row) rows ->
        sample_path self tape s L = Return []).
Proof.
  intros Hinit. split.
  - intros path H. unfold sample_path in H.
    destruct (sample_path_loop_spec _ _ _ _ _ _ _ H) as (ext & -> & Hlen & Hall).
    simpl. split; [lia | done].
  - intros rows Hrows Hloop. unfold sample_path.
    destruct (Z.to_nat L) as [|n]; [done|]. simpl.
    assert (Habs : state_is_absorbing self !! s = Some true).
    { rewrite (init_absorbing _ _ _ Hinit), Hrows. simpl. f_equal.
      apply forallb_forall. intros row Hrow. apply forallb_forall. intros e He.
      apply Nat.eqb_eq.
      rewrite Forall_forall in Hloop. specialize (Hloop row).
      rewrite Forall_forall in Hloop. apply Hloop; by apply list_elem_of_In. }
    unfold at_index. rewrite Habs. reflexivity.
Qed.



(** A three-state chain 0 -> 1 -> 2 with state 2 absorbing. *)
Definition model_ex : Model :=
  mkModel [ [[(1, 1%Q)]]; [[(1, (1#2)%Q); (2, (1#2)%Q)]; [(2, 1%Q)]]; [[(2, 1%Q)]] ] [0].

Definition self_ex : t :=
  Eval cbv in match init model_ex with
              | Return s => s
              | Raise _ => mk model_ex 0 [] []
              end.

Example sample_path_ex :
  state_is_absorbing self_ex = [false; false; true]
  /\ sample_path self_ex (fun k => k) 0 5 = Return [(0, 0); (1, 0)]
  /\ sample_path self_ex (fun _ => 0) 0 3 = Return [(0, 0); (1, 0); (1, 0)]
  /\ sample_path self_ex (fun k => k) 0 2 = Return [(0, 0); (1, 0)]
  /\ sample_path self_ex (fun k => k) 2 5 = Return []
  /\ sample_path self_ex (fun k => k) 0 (-3) = Return []
  /\ sample_path self_ex (fun k => k) 7 1 = Raise IndexError.
Proof. repeat split; reflexivity. Qed.

Lemma sample_path_bounded_witness :
  (Z.of_nat (length [(0, 0); (1, 0)]%nat) <= Z.max 2 0)%Z
  /\ Forall (fun p => state_is_absorbing self_ex !! p.1 = Some false) [(0, 0); (1, 0)]%nat.
Proof.
  apply (proj1 (sample_path_bounded model_ex self_ex (fun k => k) 0 2 eq_refl)).
  reflexivity.
Defined.

End SimulationFacts.

(** ** StormPOMDPControl: subfamilies by prefix flip *)

Module SubfamilyFacts.
Import StormPOMDPControl EnumerateFacts.

Lemma rmap_lookup {A B} (f : A -> result B) (l : list A) ys :
  rmap f l = Return ys ->
  forall k x, l !! k = Some x -> exists y, ys !! k = Some y /\ f x = Return y.
Proof.
  revert ys. induction l as [|x0 l IH]; intros ys H k x Hk; [done|].
  simpl in H. apply rbind_Return in H as (y0 & Hy0 & H).
  apply rbind_Return in H as (ys' & Hys' & [= <-]).
  destruct k as [|k]; simpl in Hk.
  - inversion Hk; subst. by exists y0.
  - destruct (IH _ Hys' k x Hk) as (y & Hy & Hf). by exists y.
Qed.

(** A loop whose body only appends only appends. *)
Lemma rfold_appends {A S} (body : list S -> A -> result (list S)) (l : list A) :
  (forall s x s', body s x = Return s' -> exists t, s' = s ++ t) ->
  forall s s', rfold body s l = Return s' -> exists t, s' = s ++ t.
Proof.
  intros Hbody. induction l as [|x l IH]; intros s s' H; simpl in H.
  - inversion H; subst. exists []. by rewrite app_nil_r.
  - apply rbind_Return in H as (s1 & H1 & H).
    destruct (Hbody _ _ _ H1) as (t1 & ->).
    destruct (IH _ _ H) as (t2 & ->).
    exists (t1 ++ t2). by rewrite app_assoc.
Qed.

(** The record that replaces [r] at the flipped position. *)
Definition flipped (F : Holes.t) (r : Restriction) : option Restriction :=
  h ← F !! hole r;
  Some (mkRestriction (hole r)
          (filter (fun action => ¬ action ∈ restriction r) (Hole.options h))).

Lemma get_subfamilies_shape q R F subs :
  R <> [] -> get_subfamilies q R F = Return subs ->
  length subs = length R
  /\ forall i r, R !! i = Some r ->
       exists d fr, subs !! i = Some d
         /\ flipped F r = Some fr
         /\ (forall j, j < i -> d !! j = R !! j)
         /\ d !! i = Some fr.
Proof.
  intros HR H. unfold get_subfamilies in H.
  destruct (decide (length R = 0)) as [Hz|_]; [by destruct R|].
  apply rbind_Return in H as (subs0 & H1 & H2).
  pose proof (rmap_length _ _ _ H1) as Hl1. rewrite length_seq in Hl1.
  pose proof (rmap_length _ _ _ H2) as Hl2.
  split; [lia|]. intros i r Hr.
  pose proof (lookup_lt_Some _ _ _ Hr) as Hi.
  assert (Hseq : seq 0 (length R) !! i = Some i) by (apply lookup_seq; split; [done | lia]).
  destruct (rmap_lookup _ _ _ H1 _ _ Hseq) as (d0 & Hd0 & Hinner).
  destruct (rmap_lookup _ _ _ H2 _ _ Hd0) as (d & Hd & Hfold).
  pose proof (rmap_length _ _ _ Hinner) as Hld0. rewrite length_seq in Hld0.
  (* the second loop only appends *)
  assert (Happ : exists t, d = d0 ++ t).
  { revert Hfold. apply rfold_appends. clear. intros s obs s' H.
    apply rbind_Return in H as (num_actions & _ & H).
    apply rbind_Return in H as (act_obs_holes & _ & H).
    revert H. apply rfold_appends. clear. intros s index s' H.
    apply rbind_Return in H as (hole & _ & H).
    apply rbind_Return in H as (restriction & _ & H).
    inversion H; subst. eauto. }
  destruct Happ as (t & ->).
  (* the flipped record *)
  assert (Hii : seq 0 (i + 1) !! i = Some i) by (apply lookup_seq; split; [done | lia]).
  destruct (rmap_lookup _ _ _ Hinner _ _ Hii) as (fr & Hfr & Hg).
  rewrite decide_False in Hg by (intros Hne; by apply Hne).
  apply rbind_Return in Hg as (r' & Hr' & Hg).
  apply at_index_Return in Hr'. rewrite Hr in Hr'. inversion Hr'; subst r'.
  apply rbind_Return in Hg as (h & Hh & Hg). apply at_index_Return in Hh.
  inversion Hg; subst fr. clear Hg.
  eexists _, _. split; [exact Hd|]. split.
  { unfold flipped. rewrite Hh. reflexivity. }
  split.
  - intros j Hj. rewrite lookup_app_l by lia.
    assert (Hjj : seq 0 (i + 1) !! j = Some j) by (apply lookup_seq; split; [done | lia]).
    destruct (rmap_lookup _ _ _ Hinner _ _ Hjj) as (y & Hy & Hgy).
    rewrite decide_True in Hgy by lia.
    apply at_index_Return in Hgy. by rewrite Hy, Hgy.
  - rewrite lookup_app_l by lia. exact Hfr.
Qed.

(** No assignment meets both a record and its flip. *)
Lemma flipped_disjoint (F : Holes.t) (r fr : Restriction) (a : list Z) :
  flipped F r = Some fr ->
  ~ ((exists o, a !! hole r = Some o /\ o ∈ restriction r)
     /\ (exists o, a !! hole fr = Some o /\ o ∈ restriction fr)).
Proof.
  unfold flipped. destruct (F !! hole r) as [h|]; [|discriminate].
  simpl. intros [= <-] [(o & Ho & Hin) (o' & Ho' & Hin')]. simpl in *.
  rewrite Ho in Ho'. inversion Ho'; subst o'.
  apply list_elem_of_filter in Hin' as [Hnot _]. by apply Hnot.
Qed.

(** C8. For a non-empty restriction list [R], a returning
    [get_subfamilies(R, F)] yields exactly [len(R)] descriptions; the
    [i]-th starts with the records of [R] before position [i], unchanged,
    followed at position [i] by record [i] of [R] with its restriction
    replaced by the options of that hole in [F] outside the restriction;
    and no assignment meets these first [i + 1] records of two different
    descriptions (whatever the records appended after them are). *)
Theorem get_subfamilies_prefix_flip (q : Quotient) (R : list Restriction)
    (F : Holes.t) (subs : list (list Restriction)) :
  R <> [] -> get_subfamilies q R F = Return subs ->
  length subs = length R
  /\ (forall i r, R !! i = Some r ->
        exists d h, subs !! i = Some d /\ F !! hole r = Some h
          /\ (forall j, j < i -> d !! j = R !! j)
          /\ d !! i = Some (mkRestriction (hole r)
                              (filter (fun action => ¬ action ∈ restriction r)
                                      (Hole.options h))))
  /\ (forall i k di dk a,
        i <> k -> subs !! i = Some di -> subs !! k = Some dk ->
        ~ (satisfies a (take (S i) di) /\ satisfies a (take (S k) dk))).
Proof.
  intros HR H. destruct (get_subfamilies_shape q R F subs HR H) as [Hlen Hshape].
  split; [exact Hlen|]. split.
  - intros i r Hr. destruct (Hshape i r Hr) as (d & fr & Hd & Hfl & Hpre & Hi).
    unfold flipped in Hfl. destruct (F !! hole r) as [h|]; [|discriminate].
    simpl in Hfl. inversion Hfl; subst fr. eauto 10.
  - assert (Hlt : forall i k di dk a,
              i < k -> subs !! i = Some di -> subs !! k = Some dk ->
              ~ (satisfies a (take (S i) di) /\ satisfies a (take (S k) dk))).
    { intros i k di dk a Hik Hdi Hdk [Hsi Hsk].
      destruct (lookup_lt_is_Some_2 R i) as (ri & Hri).
      { apply lookup_lt_Some in Hdi. lia. }
      destruct (lookup_lt_is_Some_2 R k) as (rk & Hrk).
      { apply lookup_lt_Some in Hdk. lia. }
      destruct (Hshape i ri Hri) as (di' & fr & Hdi' & Hfl & _ & Hflip).
      destruct (Hshape k rk Hrk) as (dk' & _ & Hdk' & _ & Hpre & _).
      rewrite Hdi in Hdi'. inversion Hdi'; subst di'.
      rewrite Hdk in Hdk'. inversion Hdk'; subst dk'.
      specialize (Hpre i Hik). rewrite Hri in Hpre.
      unfold satisfies in *. rewrite Forall_forall in Hsi, Hsk.
      apply (flipped_disjoint F ri fr a Hfl). split.
      - apply Hsk. apply (list_elem_of_lookup_2 _ i).
        rewrite lookup_take_lt by lia. exact Hpre.
      - apply Hsi. apply (list_elem_of_lookup_2 _ i).
        rewrite lookup_take_lt by lia. exact Hflip. }
    intros i k di dk a Hne Hdi Hdk.
    destruct (decide (i < k)) as [Hik|Hik].
    + by eapply Hlt.
    + intros [Hsi Hsk]. apply (Hlt k i dk di a); [lia | done | done | done].
Qed.

Lemma rmap_returns {A B} (f : A -> result B) (l : list A) :
  (forall x, x ∈ l -> exists y, f x = Return y) -> exists ys, rmap f l = Return ys.
Proof.
  induction l as [|x l IH]; intros H; simpl; [eauto|].
  destruct (H x) as (y & ->); [by left|].
  destruct IH as (ys & ->); [intros z Hz; apply H; by right|].
  simpl. eauto.
Qed.

Lemma rfold_returns {A S} (body : S -> A -> result S) (l : list A) :
  (forall s x, x ∈ l -> exists s', body s x = Return s') ->
  forall s, exists s', rfold body s l = Return s'.
Proof.
  induction l as [|x l IH]; intros H s; simpl; [eauto|].
  destruct (H s x) as (s1 & ->); [by left|].
  simpl. apply IH. intros s2 z Hz. apply H. by right.
Qed.

(** Tables of the quotient that cover every observation and name only
    holes of the family. *)
Definition quotient_covers (q : Quotient) (F : Holes.t) : Prop :=
  observations q <= length (actions_at_observation q)
  /\ observations q <= length (observation_action_holes q)
  /\ Forall (Forall (fun hole => hole < length F)) (observation_action_holes q).

(** X25. On such a quotient, with restrictions on holes of the family,
    [get_subfamilies] returns. *)
Lemma get_subfamilies_returns q R F :
  quotient_covers q F -> Forall (fun r => hole r < length F) R ->
  exists subs, get_subfamilies q R F = Return subs.
Proof.
  intros (Hact & Hobs & Hholes) HR. unfold get_subfamilies.
  case_decide; [eauto|].
  assert (H1 : exists subs0,
    rmap (fun i =>
            rmap (fun j =>
                    if decide (i <> j) then at_index R j
                    else
                      r ← at_index R j;
                      h ← at_index F (hole r);
                      Return (mkRestriction (hole r)
                                (filter (fun action => ¬ action ∈ restriction r)
                                        (Hole.options h))))
                 (seq 0 (i + 1)))
         (seq 0 (length R)) = Return subs0).
  { apply rmap_returns. intros i Hi. apply list_elem_of_In, in_seq in Hi.
    apply rmap_returns. intros j Hj. apply list_elem_of_In, in_seq in Hj.
    destruct (lookup_lt_is_Some_2 R j) as (r & Hr); [lia|].
    rewrite !(proj2 (at_index_Return _ _ _) Hr). case_decide; [eauto|].
    unfold mbind at 1, result_bind, rbind.
    rewrite Forall_forall in HR.
    destruct (lookup_lt_is_Some_2 F (hole r)) as (h & Hh).
    { apply HR. by eapply list_elem_of_lookup_2. }
    rewrite (proj2 (at_index_Return _ _ _) Hh). simpl. eauto. }
  destruct H1 as (subs0 & ->). simpl.
  apply rmap_returns. intros d _. apply rfold_returns.
  intros s obs Hobs_in. apply list_elem_of_In, in_seq in Hobs_in.
  destruct (lookup_lt_is_Some_2 (actions_at_observation q) obs) as (na & Hna); [lia|].
  destruct (lookup_lt_is_Some_2 (observation_action_holes q) obs) as (hs & Hhs); [lia|].
  rewrite (proj2 (at_index_Return _ _ _) Hna), (proj2 (at_index_Return _ _ _) Hhs).
  unfold mbind at 1 2, result_bind, rbind.
  apply rfold_returns. intros s1 index Hindex.
  apply list_elem_of_In, in_seq in Hindex.
  destruct (lookup_lt_is_Some_2 hs index) as (hl & Hhl); [lia|].
  rewrite (proj2 (at_index_Return _ _ _) Hhl). unfold mbind at 1, result_bind, rbind.
  assert (Hlt : hl < length F).
  { rewrite Forall_forall in Hholes.
    specialize (Hholes hs (list_elem_of_lookup_2 _ _ _ Hhs)).
    rewrite Forall_forall in Hholes. apply Hholes. by eapply list_elem_of_lookup_2. }
  destruct (lookup_lt_is_Some_2 F hl Hlt) as (h & Hh).
  case_decide.
  - match goal with
    | |- exists _, mbind _ ?m = _ => assert (Hm : exists res, m = Return res)
    end.
    { apply rfold_returns. intros s2 action _.
      rewrite (proj2 (at_index_Return _ _ _) Hh).
      unfold mbind, result_bind, rbind.
      destruct (py_in action (Hole.options h)); eauto. }
    destruct Hm as (res & ->). simpl. eauto.
  - simpl. eauto.
Qed.

(** Two observations with one action hole each, three actions; the oracle
    recommends action 0 at hole 0 and action 1 at hole 1. *)
Definition q_ex : Quotient := mkQuotient 2 [3; 3]%Z [[0]; [1]] [[]; []] [1; 1]%Z.

Definition F_ex : Holes.t :=
  [Hole.mk "A(o0,0)" [0; 1; 2]%Z ["a"; "b"; "c"];
   Hole.mk "A(o1,0)" [0; 1; 2]%Z ["a"; "b"; "c"]].

Definition R_ex : list Restriction := [mkRestriction 0 [0%Z]; mkRestriction 1 [1%Z]].

Definition subs_ex : list (list Restriction) :=
  [ [mkRestriction 0 [1; 2]%Z; mkRestriction 0 []; mkRestriction 1 [0; 1; 2]%Z];
    [mkRestriction 0 [0]%Z; mkRestriction 1 [0; 2]%Z; mkRestriction 0 [];
     mkRestriction 1 []] ].

Example get_subfamilies_ex : get_subfamilies q_ex R_ex F_ex = Return subs_ex.
Proof. vm_compute. reflexivity. Qed.

(** The first records of the two descriptions can each be met: the
    assignment [1, 0] meets the flip of record 0, and [0, 0] meets record 0
    and the flip of record 1; neither meets a whole description, which
    ends in records with an empty restriction. *)
Example prefix_records_can_be_met :
  satisfies [1; 0]%Z (take 1 [mkRestriction 0 [1; 2]%Z; mkRestriction 0 [];
                               mkRestriction 1 [0; 1; 2]%Z])
  /\ satisfies [0; 0]%Z (take 2 [mkRestriction 0 [0]%Z; mkRestriction 1 [0; 2]%Z;
                                  mkRestriction 0 []; mkRestriction 1 []])
  /\ forall a d, d ∈ subs_ex -> ~ satisfies a d.
Proof.
  split; [|split].
  - repeat constructor. exists 1%Z. split; [done | set_solver].
  - repeat constructor.
    + exists 0%Z. split; [done | set_solver].
    + exists 0%Z. split; [done | set_solver].
  - intros a d Hd Hs. unfold satisfies in Hs. rewrite Forall_forall in Hs.
    assert (Hin : mkRestriction 0 [] ∈ d).
    { unfold subs_ex in Hd. apply elem_of_cons in Hd as [->|Hd].
      - apply (list_elem_of_lookup_2 _ 1). reflexivity.
      - apply elem_of_cons in Hd as [->|Hd]; [|by apply elem_of_nil in Hd].
        apply (list_elem_of_lookup_2 _ 2). reflexivity. }
    destruct (Hs _ Hin) as (o & _ & Ho). simpl in Ho. by apply elem_of_nil in Ho.
Qed.

Lemma get_subfamilies_prefix_flip_witness :
  length subs_ex = length R_ex
  /\ (forall i r, R_ex !! i = Some r ->
        exists d h, subs_ex !! i = Some d /\ F_ex !! hole r = Some h
          /\ (forall j, j < i -> d !! j = R_ex !! j)
          /\ d !! i = Some (mkRestriction (hole r)
                              (filter (fun action => ¬ action ∈ restriction r)
                                      (Hole.options h))))
  /\ (forall i k di dk a,
        i <> k -> subs_ex !! i = Some di -> subs_ex !! k = Some dk ->
        ~ (satisfies a (take (S i) di) /\ satisfies a (take (S k) dk))).
Proof.
  apply (get_subfamilies_prefix_flip q_ex R_ex F_ex subs_ex).
  - discriminate.
  - vm_compute. reflexivity.
Defined.

End SubfamilyFacts.

(** ** StormPOMDPControl: the main restricted family *)

Module MainFamilyFacts.
Import StormPOMDPControl Store StoreFacts.

(** The store after [family.copy()]: the old store, the copied holes and
    the new list object. *)
Definition repr (σ0 : store) (F : Holes.t) : store :=
  σ0 ++ map OHole F ++ [OHoles (seq (length σ0) (length F))].

(** A computation on the copy in the store does what its counterpart does
    on the family value. *)
Definition sim {A} (σ0 : store) (n : nat) (mv : V A) (ms : Store.M A) : Prop :=
  forall F, length F = n ->
    match mv F with
    | Return (F', a) => length F' = n /\ ms (repr σ0 F) = Return (repr σ0 F', a)
    | Raise e => ms (repr σ0 F) = Raise e
    end.

Lemma repr_list σ0 F :
  repr σ0 F !! (length σ0 + length F) = Some (OHoles (seq (length σ0) (length F))).
Proof.
  unfold repr. rewrite lookup_app_r by lia.
  rewrite lookup_app_r by (rewrite length_map; lia). rewrite length_map.
  by replace (length σ0 + length F - length σ0 - length F) with 0 by lia.
Qed.

Lemma repr_hole σ0 F k :
  k < length F -> repr σ0 F !! (length σ0 + k) = OHole <$> F !! k.
Proof.
  intros Hk. unfold repr. rewrite lookup_app_r by lia.
  replace (length σ0 + k - length σ0) with k by lia.
  rewrite lookup_app_l by (by rewrite length_map).
  by rewrite list_lookup_fmap.
Qed.

Lemma repr_insert σ0 F k h :
  k < length F ->
  <[length σ0 + k := OHole h]> (repr σ0 F) = repr σ0 (<[k := h]> F).
Proof.
  intros Hk. unfold repr. rewrite insert_app_r_alt by lia.
  replace (length σ0 + k - length σ0) with k by lia.
  rewrite insert_app_l by (by rewrite length_map).
  by rewrite list_fmap_insert, length_insert.
Qed.

Lemma at_index_seq a n k :
  at_index (seq a n) k = if decide (k < n) then Return (a + k) else Raise IndexError.
Proof.
  unfold at_index. case_decide as Hk.
  - by rewrite (proj2 (lookup_seq a n k (a + k))).
  - by rewrite lookup_ge_None_2 by (rewrite length_seq; lia).
Qed.

Section Sim.

Variable σ0 : store.
Variable n : nat.

Abbreviation rf := (length σ0 + n).

Lemma sim_ret {A} (a : A) : sim σ0 n (fret (M:=V) a) (Store.ret a).
Proof. intros F HF. simpl. done. Qed.

Lemma sim_bind {A B} (mv : V A) (ms : Store.M A) (kv : A -> V B) (ks : A -> Store.M B) :
  sim σ0 n mv ms -> (forall a, sim σ0 n (kv a) (ks a)) ->
  sim σ0 n (fbind (M:=V) mv kv) (Store.bind ms ks).
Proof.
  intros Hm Hk F HF. specialize (Hm F HF). simpl. unfold Store.bind.
  destruct (mv F) as [[F1 a]|e].
  - destruct Hm as [HF1 ->]. apply (Hk a F1 HF1).
  - by rewrite Hm.
Qed.

Lemma sim_lift {A} (r : result A) : sim σ0 n (flift (M:=V) r) (Store.lift r).
Proof. intros F HF. simpl. unfold Store.lift. by destruct r. Qed.

Lemma sim_foldM {A S} (bv : S -> A -> V S) (bs : S -> A -> Store.M S) :
  (forall s x, sim σ0 n (bv s x) (bs s x)) ->
  forall l s, sim σ0 n (foldM (H:=value_ops) bv s l) (foldM (H:=store_ops rf) bs s l).
Proof.
  intros Hb. induction l as [|x l IH]; intros s.
  - apply sim_ret.
  - cbn [foldM]. apply (sim_bind (bv s x) (bs s x)); [apply Hb | intros s'; apply IH].
Qed.

Lemma sim_hole_options hole :
  sim σ0 n (hole_options (FamilyOps:=value_ops) hole)
           (hole_options (FamilyOps:=store_ops rf) hole).
Proof.
  intros F HF. simpl. unfold Store.bind, Store.get_holes, Store.lift, Store.get_hole,
    Store.ret.
  subst n. rewrite repr_list, at_index_seq. unfold at_index.
  destruct (F !! hole) as [h|] eqn:Hh.
  - rewrite decide_True by (by eapply lookup_lt_Some).
    rewrite repr_hole by (by eapply lookup_lt_Some). rewrite Hh. simpl. done.
  - rewrite decide_False by (apply lookup_ge_None in Hh; lia). done.
Qed.

Lemma sim_hole_assume_options hole options :
  sim σ0 n (hole_assume_options (FamilyOps:=value_ops) hole options)
           (hole_assume_options (FamilyOps:=store_ops rf) hole options).
Proof.
  intros F HF. simpl. unfold Store.bind, Store.get_holes, Store.lift, Store.get_hole,
    Store.put.
  subst n. rewrite repr_list, at_index_seq. unfold at_index.
  destruct (F !! hole) as [h|] eqn:Hh.
  - rewrite decide_True by (by eapply lookup_lt_Some).
    rewrite repr_hole by (by eapply lookup_lt_Some). rewrite Hh. simpl.
    rewrite length_insert. split; [done|].
    by rewrite repr_insert by (by eapply lookup_lt_Some).
  - rewrite decide_False by (apply lookup_ge_None in Hh; lia). done.
Qed.

Lemma sim_restrict_observation q result_dict obs :
  sim σ0 n (restrict_observation (H:=value_ops) q result_dict obs)
           (restrict_observation (H:=store_ops rf) q result_dict obs).
Proof.
  unfold restrict_observation.
  do 4 (apply sim_bind; [apply sim_lift | intros]).
  case_decide; [apply sim_ret|].
  apply sim_bind; [|intros].
  - apply sim_foldM; intros.
    do 2 (apply sim_bind; [apply sim_lift | intros]).
    apply sim_bind; [|intros; apply sim_hole_assume_options].
    apply sim_foldM; intros.
    apply sim_bind; [apply sim_hole_options | intros].
    destruct (negb _); apply sim_ret.
  - apply sim_foldM; intros.
    do 2 (apply sim_bind; [apply sim_lift | intros]).
    apply sim_hole_assume_options.
Qed.

Lemma sim_restrict q result_dict :
  sim σ0 n (restrict (H:=value_ops) q result_dict)
           (restrict (H:=store_ops rf) q result_dict).
Proof.
  unfold restrict. apply sim_foldM. intros. apply sim_restrict_observation.
Qed.

End Sim.

(** With a non-empty dictionary, [get_main_restricted_family] leaves the
    store as [family.copy()] followed by the value-level updates would,
    and returns the new list object; it raises where those updates raise. *)
Lemma get_main_restricted_family_run {Value Export : Type}
    (self : t (Value:=Value) (Export:=Export)) σ family F q use_cutoffs :
  content σ family = Some F ->
  select_result_dict self use_cutoffs <> ∅ ->
  get_main_restricted_family self family q use_cutoffs σ
  = match restrict (H:=value_ops) q (select_result_dict self use_cutoffs) F with
    | Return (F', _) => Return (repr σ F', length σ + length F)
    | Raise e => Raise e
    end.
Proof.
  intros Hc Hne. unfold get_main_restricted_family.
  rewrite decide_False by done.
  unfold Store.bind at 1. rewrite (Holes_copy_run _ _ _ Hc).
  fold (repr σ F). unfold Store.bind.
  pose proof (sim_restrict σ (length F) q (select_result_dict self use_cutoffs) F eq_refl)
    as Hsim.
  destruct (restrict (H:=value_ops) q (select_result_dict self use_cutoffs) F)
    as [[F' []]|e].
  - destruct Hsim as [_ ->]. reflexivity.
  - by rewrite Hsim.
Qed.

(** *** What the updates do to a family value *)

(** A write replaces the options of hole [k] by [f] of its current
    options. *)
Fixpoint apply_writes (W : list (nat * (list Z -> list Z))) (F : Holes.t)
  : result Holes.t :=
  match W with
  | [] => Return F
  | (k, f) :: W' =>
      h ← at_index F k;
      apply_writes W' (<[k := assume_options h (f (Hole.options h))]> F)
  end.

Lemma apply_writes_length W : forall F F',
  apply_writes W F = Return F' -> length F' = length F.
Proof.
  induction W as [|[k f] W IH]; intros F F' H; simpl in H.
  - by inversion H.
  - apply rbind_Return in H as (h & _ & H). apply IH in H.
    by rewrite length_insert in H.
Qed.

(** A hole that no write names is unchanged. *)
Lemma apply_writes_other W k : forall F F',
  apply_writes W F = Return F' -> k ∉ map fst W -> F' !! k = F !! k.
Proof.
  induction W as [|[k0 f] W IH]; intros F F' H Hk; simpl in H.
  - by inversion H.
  - apply rbind_Return in H as (h & _ & H).
    simpl in Hk. apply not_elem_of_cons in Hk as [Hne Hk].
    rewrite (IH _ _ H Hk). by rewrite list_lookup_insert_ne.
Qed.

(** A hole that exactly one write names gets that write's options,
    computed from its original options. *)
Lemma apply_writes_once W k f : forall F F' h,
  apply_writes W F = Return F' -> NoDup (map fst W) -> (k, f) ∈ W ->
  F !! k = Some h ->
  F' !! k = Some (assume_options h (f (Hole.options h))).
Proof.
  induction W as [|[k0 f0] W IH]; intros F F' h H Hnd Hin Hh; simpl in H.
  - by apply elem_of_nil in Hin.
  - apply rbind_Return in H as (h0 & Hh0 & H). apply at_index_Return in Hh0.
    simpl in Hnd. apply NoDup_cons in Hnd as [Hfresh Hnd].
    apply elem_of_cons in Hin as [Heq | Hin].
    + inversion Heq; subst k0 f0. rewrite Hh in Hh0. inversion Hh0; subst h0.
      rewrite (apply_writes_other _ _ _ _ H Hfresh).
      apply list_lookup_insert_eq. by eapply lookup_lt_Some.
    + assert (Hne : k0 <> k).
      { intros ->. apply Hfresh. apply list_elem_of_fmap. by exists (k, f). }
      apply (IH _ _ h H Hnd Hin). by rewrite list_lookup_insert_ne.
Qed.

Lemma apply_writes_app W1 W2 F F' :
  apply_writes (W1 ++ W2) F = Return F' <->
  exists F1, apply_writes W1 F = Return F1 /\ apply_writes W2 F1 = Return F'.
Proof.
  revert F. induction W1 as [|[k f] W1 IH]; intros F; simpl.
  - split; [eauto | by intros (F1 & [= <-] & ?)].
  - rewrite rbind_Return. split.
    + intros (h & Hh & H). apply IH in H as (F1 & H1 & H2).
      exists F1. split; [|done]. apply rbind_Return. eauto.
    + intros (F1 & H1 & H2). apply rbind_Return in H1 as (h & Hh & H1).
      exists h. split; [done|]. apply IH. eauto.
Qed.

(** Inversion of a bind on family values. *)
Lemma vbind_Return {A B} (m : V A) (k : A -> V B) F r :
  fbind (M:=V) m k F = Return r <->
  exists F1 a, m F = Return (F1, a) /\ k a F1 = Return r.
Proof.
  simpl. destruct (m F) as [[F1 a]|e]; split.
  - eauto.
  - by intros (F1' & a' & [= <- <-] & ?).
  - discriminate.
  - by intros (? & ? & ? & ?).
Qed.

Lemma vlift_Return {A} (r : result A) F F' a :
  flift (M:=V) r F = Return (F', a) <-> F' = F /\ r = Return a.
Proof.
  simpl. destruct r as [a'|e]; split.
  - by intros [= <- <-].
  - by intros [-> [= ->]].
  - discriminate.
  - by intros [_ ?].
Qed.

(** The options an action hole with current options [opts] receives when
    the oracle allows [actions]. *)
Definition target (actions opts : list Z) : list Z :=
  let options := filter (fun action => action ∈ opts) actions in
  if decide (length options = 0) then [0%Z] else options.

(** The loop that collects the admissible actions leaves the family as it
    is and filters [actions] by the current options of the hole. *)
Lemma options_loop hole actions : forall acc F F' opts,
  foldM (H:=value_ops)
        (fun options action =>
           fbind (hole_options hole) (fun current =>
           if negb (py_in action current) then fret options
           else fret (options ++ [action])))
        acc actions F = Return (F', opts) ->
  F' = F
  /\ forall h, F !! hole = Some h ->
       opts = acc ++ filter (fun action => action ∈ Hole.options h) actions.
Proof.
  induction actions as [|a actions IH]; intros acc F F' opts H.
  - simpl in H. inversion H; subst. split; [done|]. intros h _.
    by rewrite app_nil_r.
  - cbn [foldM] in H. apply vbind_Return in H as (F1 & s1 & Hbody & Hrest).
    apply vbind_Return in Hbody as (F2 & current & Hopt & Hif).
    simpl in Hopt. apply rbind_Return in Hopt as (h0 & Hh0 & Hopt).
    apply at_index_Return in Hh0. inversion Hopt; subst F2 current. clear Hopt.
    destruct (IH _ _ _ _ Hrest) as [-> Hopts].
    unfold py_in in Hif.
    destruct (bool_decide (a ∈ Hole.options h0)) eqn:Ea; simpl in Hif;
      inversion Hif; subst F1 s1; (split; [done|]); intros h Hh;
      rewrite Hh0 in Hh; inversion Hh; subst h0; rewrite (Hopts h Hh0).
    + apply bool_decide_eq_true_1 in Ea.
      rewrite filter_cons, decide_True by done. by rewrite <- app_assoc.
    + apply bool_decide_eq_false_1 in Ea.
      by rewrite filter_cons, decide_False by done.
Qed.

(** A loop over the positions of a hole list whose body writes the hole
    at its position is the list of these writes. *)
Lemma index_loop (hs : list nat) (body : unit -> nat -> V unit)
    (f : list Z -> list Z) :
  (forall index hole F F' u,
      hs !! index = Some hole -> body tt index F = Return (F', u) ->
      apply_writes [(hole, f)] F = Return F') ->
  forall F F' u,
    foldM (H:=value_ops) body tt (seq 0 (length hs)) F = Return (F', u) ->
    apply_writes (map (fun k => (k, f)) hs) F = Return F'.
Proof.
  intros Hbody.
  enough (Hgen : forall l a F F' u,
            (forall j x, l !! j = Some x -> hs !! (a + j) = Some x) ->
            foldM (H:=value_ops) body tt (seq a (length l)) F = Return (F', u) ->
            apply_writes (map (fun k => (k, f)) l) F = Return F').
  { intros F F' u. apply (Hgen hs 0). intros j x Hj. exact Hj. }
  induction l as [|x l IH]; intros a F F' u Hl H.
  - simpl in H. by inversion H.
  - cbn [length seq foldM] in H.
    apply vbind_Return in H as (F1 & u1 & Hb & Hrest). destruct u1.
    assert (Hx : hs !! a = Some x) by (rewrite <- (Nat.add_0_r a); by apply Hl).
    pose proof (Hbody _ _ _ _ _ Hx Hb) as Hw. simpl in Hw.
    apply rbind_Return in Hw as (h & Hh & Hw). inversion Hw; subst F1.
    cbn [map apply_writes]. rewrite Hh. unfold mbind, result_bind, rbind.
    apply (IH (S a) _ _ u); [|exact Hrest].
    intros j y Hj. replace (S a + j) with (a + S j) by lia. by apply Hl.
Qed.

(** A loop whose body performs the writes [W x] performs all of them. *)
Lemma foldM_writes {A} (body : unit -> A -> V unit)
    (W : A -> list (nat * (list Z -> list Z))) (l : list A) :
  (forall x F F' u, body tt x F = Return (F', u) -> apply_writes (W x) F = Return F') ->
  forall F F' u,
    foldM (H:=value_ops) body tt l F = Return (F', u) ->
    apply_writes (concat (map W l)) F = Return F'.
Proof.
  intros Hbody. induction l as [|x l IH]; intros F F' u H.
  - simpl in H. by inversion H.
  - cbn [foldM] in H. apply vbind_Return in H as (F1 & u1 & Hb & Hrest). destruct u1.
    cbn [map concat]. apply apply_writes_app. exists F1. split.
    + by eapply Hbody.
    + by eapply IH.
Qed.

(** The writes of one observation: its action holes, each restricted to
    the admissible actions of the dictionary ([[0]] for an observation
    the dictionary lacks), then its memory holes, each set to all
    updates; nothing for an observation without action holes. *)
Definition writes_of_obs (q : Quotient) (result_dict : gmap nat (list Z)) (obs : nat)
  : list (nat * (list Z -> list Z)) :=
  match observation_action_holes q !! obs, observation_memory_holes q !! obs,
        max_successor_memory_size q !! obs with
  | Some act_obs_holes, Some mem_obs_holes, Some num_updates =>
      if decide (length act_obs_holes = 0) then []
      else map (fun k => (k, target (default [0%Z] (result_dict !! obs)))) act_obs_holes
           ++ map (fun k => (k, fun _ => py_range num_updates)) mem_obs_holes
  | _, _, _ => []
  end.

Lemma restrict_observation_writes q result_dict obs F F' u :
  restrict_observation (H:=value_ops) q result_dict obs F = Return (F', u) ->
  apply_writes (writes_of_obs q result_dict obs) F = Return F'.
Proof.
  unfold restrict_observation, writes_of_obs. intros H.
  apply vbind_Return in H as (F1 & num_actions & H1 & H).
  apply vlift_Return in H1 as [-> _].
  apply vbind_Return in H as (F1 & num_updates & H1 & H).
  apply vlift_Return in H1 as [-> Hnu]. apply at_index_Return in Hnu.
  apply vbind_Return in H as (F1 & hs & H1 & H).
  apply vlift_Return in H1 as [-> Hhs]. apply at_index_Return in Hhs.
  apply vbind_Return in H as (F1 & ms & H1 & H).
  apply vlift_Return in H1 as [-> Hms]. apply at_index_Return in Hms.
  rewrite Hhs, Hms, Hnu. case_decide as Hz.
  - simpl in H. by inversion H.
  - apply vbind_Return in H as (F1 & u1 & Hact & Hmem).
    apply apply_writes_app. exists F1. split.
    + revert Hact. apply index_loop. clear.
      intros index hole F F' u Hhole H.
      apply vbind_Return in H as (F1 & hole' & H1 & H).
      apply vlift_Return in H1 as [-> Hh']. apply at_index_Return in Hh'.
      rewrite Hhole in Hh'. inversion Hh'; subst hole'.
      apply vbind_Return in H as (F1 & actions & H1 & H).
      apply vlift_Return in H1 as [-> Hsel]. apply at_index_Return in Hsel.
      assert (Hacts : actions = default [0%Z] (result_dict !! obs)).
      { destruct (result_dict !! obs) as [acts|]; rewrite list_lookup_fmap, Hhole in Hsel;
          by inversion Hsel. }
      apply vbind_Return in H as (F1 & opts & Hloop & H).
      apply options_loop in Hloop as [-> Hopts].
      simpl in H. apply rbind_Return in H as (h & Hh & H). inversion H; subst F'.
      simpl. rewrite Hh. unfold mbind, result_bind, rbind.
      apply at_index_Return in Hh. rewrite (Hopts h Hh). simpl.
      unfold target. by rewrite Hacts.
    + revert Hmem. apply index_loop. clear.
      intros index hole F F' u Hhole H.
      apply vbind_Return in H as (F1 & hole' & H1 & H).
      apply vlift_Return in H1 as [-> Hh']. apply at_index_Return in Hh'.
      rewrite Hhole in Hh'. inversion Hh'; subst hole'.
      apply vbind_Return in H as (F1 & updates & H1 & H).
      apply vlift_Return in H1 as [-> Hsel]. apply at_index_Return in Hsel.
      rewrite list_lookup_fmap, Hhole in Hsel. inversion Hsel; subst updates.
      simpl in H. apply rbind_Return in H as (h & Hh & H). inversion H; subst F'.
      simpl. rewrite Hh. reflexivity.
Qed.

(** All writes of [restrict], in the order it performs them. *)
Definition writes (q : Quotient) (result_dict : gmap nat (list Z))
  : list (nat * (list Z -> list Z)) :=
  concat (map (writes_of_obs q result_dict) (seq 0 (observations q))).

Lemma restrict_writes q result_dict F F' u :
  restrict (H:=value_ops) q result_dict F = Return (F', u) ->
  apply_writes (writes q result_dict) F = Return F'.
Proof.
  unfold restrict, writes. apply foldM_writes.
  intros obs F0 F0' u0. apply restrict_observation_writes.
Qed.

(** Every table of the quotient has an entry for every observation. *)
Definition tables_cover (q : Quotient) : Prop :=
  observations q <= length (actions_at_observation q)
  /\ observations q <= length (max_successor_memory_size q)
  /\ observations q <= length (observation_action_holes q)
  /\ observations q <= length (observation_memory_holes q).

Lemma action_hole_write q result_dict obs hs k :
  tables_cover q -> obs < observations q ->
  observation_action_holes q !! obs = Some hs -> k ∈ hs ->
  (k, target (default [0%Z] (result_dict !! obs))) ∈ writes q result_dict.
Proof.
  intros (_ & Hnu & _ & Hms) Hobs Hhs Hk. unfold writes.
  apply list_elem_of_In, in_concat. exists (writes_of_obs q result_dict obs).
  split; [apply in_map, in_seq; lia|]. apply list_elem_of_In.
  unfold writes_of_obs. rewrite Hhs.
  destruct (lookup_lt_is_Some_2 (observation_memory_holes q) obs) as (ms & ->); [lia|].
  destruct (lookup_lt_is_Some_2 (max_successor_memory_size q) obs) as (nu & ->); [lia|].
  rewrite decide_False.
  - apply elem_of_app. left. apply list_elem_of_fmap. by exists k.
  - destruct hs; [by apply elem_of_nil in Hk | done].
Qed.

(** C2, amended. Let [family] denote [F], the dictionary be non-empty,
    the quotient's tables cover every observation and no hole be written
    twice. A returning [get_main_restricted_family] returns a new object
    (its location is not one of the old store, whose objects are all
    unchanged, so [family] still denotes [F]). The new object denotes a
    family [F'] of the same length in which every action hole of an
    observation [obs] has the dictionary's actions for [obs] that are
    among its options, in the dictionary's order ([[0]] when there is
    none); for an observation absent from the dictionary the actions are
    taken to be [[0]], so its action holes are restricted to [[0]]. Holes
    that no observation lists keep their options. *)
Theorem main_restricted_family {Value Export : Type}
    (self : t (Value:=Value) (Export:=Export)) (σ σ' : store) (family r : loc)
    (F : Holes.t) (q : Quotient) (use_cutoffs : bool) :
  let result_dict := select_result_dict self use_cutoffs in
  content σ family = Some F ->
  result_dict <> ∅ ->
  tables_cover q ->
  NoDup (map fst (writes q result_dict)) ->
  get_main_restricted_family self family q use_cutoffs σ = Return (σ', r) ->
  r = length σ + length F
  /\ σ `prefix_of` σ'
  /\ content σ' family = Some F
  /\ exists F',
       content σ' r = Some F' /\ length F' = length F
       /\ (forall obs hs k h,
             obs < observations q ->
             observation_action_holes q !! obs = Some hs -> k ∈ hs ->
             F !! k = Some h ->
             F' !! k
             = Some (assume_options h
                       (target (default [0%Z] (result_dict !! obs)) (Hole.options h))))
       /\ (forall k, k ∉ map fst (writes q result_dict) -> F' !! k = F !! k).
Proof.
  intros result_dict Hc Hne Hcover Hnd Hrun.
  rewrite (get_main_restricted_family_run self σ family F q use_cutoffs Hc Hne) in Hrun.
  fold result_dict in Hrun.
  destruct (restrict (H:=value_ops) q result_dict F) as [[F' u]|e] eqn:Hres;
    [|discriminate].
  inversion Hrun; subst σ' r. clear Hrun.
  apply restrict_writes in Hres.
  pose proof (apply_writes_length _ _ _ Hres) as Hlen.
  assert (Hp : σ `prefix_of` repr σ F') by apply prefix_app_r, reflexivity.
  split; [done|]. split; [exact Hp|]. split; [by eapply content_prefix|].
  exists F'. split.
  { unfold repr. rewrite <- Hlen. apply content_fresh. }
  split; [exact Hlen|]. split.
  - intros obs hs k h Hobs Hhs Hk Hh.
    apply (apply_writes_once _ _ _ _ _ _ Hres Hnd); [|exact Hh].
    by eapply action_hole_write.
  - intros k Hk. by eapply apply_writes_other.
Qed.

(** Two observations with one action hole each and three actions; the
    dictionary restricts observation 0 to action 1 and lacks
    observation 1. *)
Definition q_C2 : Quotient := mkQuotient 2 [3; 3]%Z [[0]; [1]] [[]; []] [1; 1]%Z.

Definition F_C2 : Holes.t :=
  [Hole.mk "A(o0,0)" [0; 1; 2]%Z ["a"; "b"; "c"];
   Hole.mk "A(o1,0)" [0; 1; 2]%Z ["a"; "b"; "c"]].

Definition σ_C2 : store := map OHole F_C2 ++ [OHoles [0; 1]].

Definition control_C2 : t (Value:=Z) (Export:=unit) :=
  mk None {[0 := [1%Z]]} ∅ ∅ None true q_C2 tt.

Definition options_after (r : result (store * loc)) : option (list (list Z)) :=
  match r with
  | Return (σ', l) => map Hole.options <$> content σ' l
  | Raise _ => None
  end.

Example main_family_C2 :
  options_after (get_main_restricted_family control_C2 2 q_C2 true σ_C2)
  = Some [[1]; [0]]%Z
  /\ map Hole.options F_C2 = [[0; 1; 2]; [0; 1; 2]]%Z.
Proof. split; vm_compute; reflexivity. Qed.

(** C2, as stated, fails: the action hole of observation 1, which the
    dictionary lacks, does not keep its options 0, 1, 2 (it is restricted
    to [[0]]). *)
Lemma absent_observation_restricted :
  ~ exists σ' r F',
      get_main_restricted_family control_C2 2 q_C2 true σ_C2 = Return (σ', r)
      /\ content σ' r = Some F'
      /\ Hole.options <$> F' !! 1 = Hole.options <$> F_C2 !! 1.
Proof.
  intros (σ' & r & F' & Hrun & Hc & Hopt).
  vm_compute in Hrun. inversion Hrun; subst σ' r. clear Hrun.
  vm_compute in Hc. inversion Hc; subst F'. clear Hc.
  vm_compute in Hopt. discriminate Hopt.
Qed.

(** With an empty dictionary the family object itself is returned. *)
Example empty_dictionary_returns_family :
  get_main_restricted_family
    (mk (Value:=Z) (Export:=unit) None ∅ ∅ ∅ None true q_C2 tt) 2 q_C2 true σ_C2
  = Return (σ_C2, 2).
Proof. vm_compute. reflexivity. Qed.

Definition σ'_C2 : store :=
  Eval vm_compute in
    match get_main_restricted_family control_C2 2 q_C2 true σ_C2 with
    | Return (σ', _) => σ'
    | Raise _ => []
    end.

Lemma main_restricted_family_witness :
  5 = length σ_C2 + length F_C2
  /\ σ_C2 `prefix_of` σ'_C2
  /\ content σ'_C2 2 = Some F_C2
  /\ exists F',
       content σ'_C2 5 = Some F' /\ length F' = length F_C2
       /\ (forall obs hs k h,
             obs < observations q_C2 ->
             observation_action_holes q_C2 !! obs = Some hs -> k ∈ hs ->
             F_C2 !! k = Some h ->
             F' !! k
             = Some (assume_options h
                       (target (default [0%Z]
                                  (select_result_dict control_C2 true !! obs))
                               (Hole.options h))))
       /\ (forall k, k ∉ map fst (writes q_C2 (select_result_dict control_C2 true)) ->
                     F' !! k = F_C2 !! k).
Proof.
  apply (main_restricted_family control_C2 σ_C2 σ'_C2 2 5 F_C2 q_C2 true).
  - reflexivity.
  - intros H. apply (f_equal (fun m => m !! 0)) in H. vm_compute in H. discriminate H.
  - repeat split; simpl; lia.
  - compute_done.
  - vm_compute. reflexivity.
Defined.

End MainFamilyFacts.

(** ** Holes: picking, sizes and lookups *)

Module FamilyFacts.
Import EnumerateFacts.

Lemma size_cons (h : Hole.t) (F : Holes.t) :
  Holes.size (h :: F) = Hole.size h * Holes.size F.
Proof. reflexivity. Qed.

(** A family is empty exactly when one of its holes has no option. *)
Lemma size_zero (F : Holes.t) :
  Holes.size F = 0 <-> Exists (fun h => Hole.options h = []) F.
Proof.
  induction F as [|h F IH].
  - split; [discriminate | by intros H%Exists_nil].
  - rewrite size_cons, Exists_cons, <- IH. unfold Hole.size.
    destruct (Hole.options h) as [|o os]; simpl; split; try lia; try tauto.
    + intros [H|H]; [discriminate | lia].
Qed.

(** The comprehension of [pick_any]. *)
Lemma first_options_run (F : Holes.t) :
  rmap (fun hole => o ← py_get (Hole.options hole) 0; Return [o]) F
  = if decide (Holes.size F = 0) then Raise IndexError
    else Return (map (fun h => match Hole.options h with
                               | o :: _ => [o]
                               | [] => []
                               end) F).
Proof.
  induction F as [|h F IH]; [done|].
  cbn [rmap map]. rewrite IH, size_cons. unfold Hole.size.
  destruct (Hole.options h) as [|o os]; [done|].
  unfold mbind, result_bind, rbind. simpl.
  destruct (decide (Holes.size F = 0)) as [E|E].
  - rewrite decide_True by lia. done.
  - rewrite decide_False by lia. done.
Qed.

(** X1. [pick_any] raises [IndexError] exactly on a family that has a
    hole without options (a family of size 0). On every other family it
    returns a family of size 1 in which each hole keeps its name and
    labels and has the first of its options as its only option. *)
Theorem pick_any_first_options (F : Holes.t) :
  match Holes.pick_any F with
  | Return A =>
      Holes.size F <> 0 /\ Holes.size A = 1
      /\ Forall2 (fun a h => exists o, head (Hole.options h) = Some o
                    /\ a = Hole.mk (Hole.name h) [o] (Hole.option_labels h)) A F
  | Raise e => e = IndexError /\ Holes.size F = 0
  end.
Proof.
  unfold Holes.pick_any. rewrite first_options_run.
  case_decide as Hz; [done|].
  unfold mbind, result_bind, rbind.
  rewrite HolesFacts.assume_suboptions_run by (by rewrite length_map).
  split; [done|].
  assert (Hne : Forall (fun h => Hole.options h <> []) F).
  { apply Forall_forall. intros h Hh E. apply Hz, size_zero.
    apply Exists_exists. eauto. }
  clear Hz. induction F as [|h F IH]; [by split; [|constructor]|].
  apply Forall_cons in Hne as [Hh HF]. destruct (IH HF) as [Hs Hall].
  cbn [map zip_with]. split.
  - rewrite size_cons, Hs. unfold Hole.size, Hole.assume_suboptions. simpl.
    by destruct (Hole.options h).
  - constructor; [|done].
    destruct (Hole.options h) as [|o os] eqn:E; [done|].
    exists o. done.
Qed.

Lemma size_insert (F : Holes.t) k h h' :
  F !! k = Some h ->
  Holes.size (<[k := h']> F) * Hole.size h = Holes.size F * Hole.size h'.
Proof.
  revert k. induction F as [|h0 F IH]; intros k Hk; [done|].
  destruct k as [|k]; simpl in Hk.
  - inversion Hk; subst. cbn [insert list_insert]. rewrite !size_cons. nia.
  - cbn [insert list_insert]. rewrite !size_cons.
    rewrite <- !Nat.mul_assoc. f_equal. by apply IH.
Qed.

(** X2. Refining one hole rescales the family size by the ratio of the
    new to the old number of options of that hole: for a returned
    [assume_hole_suboptions(i, sub)],
    [size(result) * len(self[i].options) = size(self) * len(sub)]. *)
Theorem assume_hole_suboptions_size (F F' : Holes.t) (i : Z) (sub : list Z)
    (h : Hole.t) :
  Holes.assume_hole_suboptions F i sub = Return F' ->
  py_get F i = Return h ->
  Holes.size F' * Hole.size h = Holes.size F * length sub.
Proof.
  intros H Hg. apply HolesFacts.assume_hole_suboptions_inv in H as (k & h0 & Hk & Hl & ->).
  apply py_get_Return in Hg as (k' & Hk' & Hl').
  rewrite Hk in Hk'. inversion Hk'; subst k'. rewrite Hl in Hl'. inversion Hl'; subst h0.
  by rewrite (size_insert _ _ _ _ Hl).
Qed.

Definition F_two : Holes.t :=
  [Hole.mk "h0" [0; 1; 2]%Z ["a"; "b"; "c"]; Hole.mk "h1" [0; 1]%Z ["x"; "y"]].

Lemma assume_hole_suboptions_size_witness :
  Holes.size [Hole.mk "h0" [0; 1; 2]%Z ["a"; "b"; "c"]; Hole.mk "h1" [1]%Z ["x"; "y"]]
    * 2 = Holes.size F_two * 1.
Proof.
  apply (assume_hole_suboptions_size F_two _ (-1) [1]%Z
           (Hole.mk "h1" [0; 1]%Z ["x"; "y"])); reflexivity.
Defined.

(** X3. [assume_suboptions] reads one entry of [hole_suboptions] per
    hole: entries beyond the number of holes are ignored, and a list
    shorter than the family raises [IndexError]. When it returns, hole
    [k] has exactly the options [hole_suboptions[k]]. *)
Theorem assume_suboptions_lengths (F : Holes.t) (subs : list (list Z)) :
  match Holes.assume_suboptions F subs with
  | Return F' =>
      length F <= length subs /\ F' = zip_with Hole.assume_suboptions F subs
      /\ map Hole.options F' = take (length F) subs
  | Raise e => e = IndexError /\ length subs < length F
  end.
Proof.
  unfold Holes.assume_suboptions.
  change (rmap _ (enumerate F))
    with (rmap (fun '(i, x) => y ← py_get subs i; Return (Hole.assume_suboptions x y))
               (enumerate F)).
  rewrite rmap_enumerate_zip. case_decide as Hlen; [|split; [done | lia]].
  split; [done|]. split; [done|].
  revert subs Hlen. induction F as [|h F IH]; intros [|s subs] Hlen; simpl in *;
    try done; try lia.
  f_equal. apply IH. lia.
Qed.

(** An entry of the dictionary passed to [includes] names a hole of the
    family and one of its options. *)
Definition entry_ok (F : Holes.t) (entry : Z * Z) : Prop :=
  exists h, py_get F entry.1 = Return h /\ entry.2 ∈ Hole.options h.

(** X4. [includes] inspects the entries in order and stops at the first
    one it cannot accept. It returns [True] exactly when every entry names
    a hole of the family and one of that hole's options; it returns
    [False] at the first entry whose option is missing and raises
    [IndexError] at the first entry whose index is out of range, without
    looking at the entries after it. *)
Theorem includes_first_failure (F : Holes.t) (d : list (Z * Z)) :
  match Holes.includes F d with
  | Return true => Forall (entry_ok F) d
  | Return false =>
      exists d1 i o d2 h, d = d1 ++ (i, o) :: d2 /\ Forall (entry_ok F) d1
        /\ py_get F i = Return h /\ o ∉ Hole.options h
  | Raise e =>
      e = IndexError
      /\ exists d1 i o d2, d = d1 ++ (i, o) :: d2 /\ Forall (entry_ok F) d1
           /\ py_get F i = Raise IndexError
  end.
Proof.
  induction d as [|[i o] d IH]; [by constructor|].
  cbn [Holes.includes].
  destruct (py_get F i) as [h|e] eqn:Hg.
  - unfold mbind, result_bind, rbind. unfold py_in.
    destruct (bool_decide (o ∈ Hole.options h)) eqn:Hin; cbn [negb].
    + apply bool_decide_eq_true_1 in Hin.
      assert (Hok : entry_ok F (i, o)) by (exists h; done).
      destruct (Holes.includes F d) as [[|]|e].
      * by constructor.
      * destruct IH as (d1 & i' & o' & d2 & h' & -> & Hd1 & Hg' & Hn).
        exists ((i, o) :: d1), i', o', d2, h'. repeat split; try done. by constructor.
      * destruct IH as (-> & d1 & i' & o' & d2 & -> & Hd1 & Hg').
        split; [done|]. exists ((i, o) :: d1), i', o', d2.
        repeat split; try done. by constructor.
    + apply bool_decide_eq_false_1 in Hin.
      exists [], i, o, d, h. repeat split; try done.
  - unfold mbind, result_bind, rbind.
    assert (e = IndexError) as ->.
    { unfold py_get in Hg. destruct (py_norm (length F) i) as [k|]; [|congruence].
      destruct (F !! k); congruence. }
    split; [done|]. exists [], i, o, d. repeat split; try done.
Qed.

End FamilyFacts.

(** ** DesignSpace: what the solver is told *)

Module EncodingFacts.
Import DesignSpace EnumerateFacts SolverFacts.

Lemma enumerate_lookup {A} (l : list A) k :
  enumerate l !! k = (fun x => (Z.of_nat k, x)) <$> l !! k.
Proof.
  rewrite enumerate_unfold.
  enough (Hgen : forall a,
            zip (map Z.of_nat (seq a (length l))) l !! k
            = (fun x => (Z.of_nat (a + k), x)) <$> l !! k).
  { by rewrite (Hgen 0). }
  revert k. induction l as [|x l IH]; intros k a; [done|].
  cbn [length seq map zip zip_with]. destruct k as [|k]; simpl.
  - by rewrite Nat.add_0_r.
  - rewrite IH. by replace (S a + k) with (a + S k) by lia.
Qed.

Lemma forallb_flat_map {A B} (p : B -> bool) (f : A -> list B) (l : list A) :
  forallb p (flat_map f l) = forallb (fun x => forallb p (f x)) l.
Proof.
  induction l as [|x l IH]; [done|]. simpl. by rewrite forallb_app, IH.
Qed.

Lemma forallb_lookup {A} (p : A -> bool) (l : list A) :
  forallb p l = true <-> forall k x, l !! k = Some x -> p x = true.
Proof.
  rewrite forallb_forall. split.
  - intros H k x Hk. apply H, list_elem_of_In. by eapply list_elem_of_lookup_2.
  - intros H x Hx. apply list_elem_of_In, list_elem_of_lookup in Hx as (k & Hk). eauto.
Qed.

(** The assertions of [z3_initialize], hole by hole. *)
Lemma z3_initialize_solver (ds : t) :
  solver (z3_initialize ds)
  = flat_map (fun '(i, h) => [Z3.Ge i 0; Z3.Lt i (Z.of_nat (Hole.size h))])
             (enumerate (holes ds)).
Proof.
  unfold z3_initialize.
  enough (Hgen : forall l g,
    solver (foldl (fun g '(hole_index, hole) =>
                     mkGlobals (solver g ++ [Z3.Ge hole_index 0;
                                             Z3.Lt hole_index (Z.of_nat (Hole.size hole))])
                               (solver_vars g ++ [hole_index])) g l)
    = solver g ++ flat_map (fun '(i, h) => [Z3.Ge i 0; Z3.Lt i (Z.of_nat (Hole.size h))]) l).
  { by rewrite Hgen. }
  induction l as [|[i h] l IH]; intros g; simpl.
  - by rewrite app_nil_r.
  - rewrite IH. simpl. by rewrite <- app_assoc.
Qed.

Lemma initial_models (ds : t) (m : Z3.model) :
  forallb (Z3.eval m) (solver (z3_initialize ds)) = true <->
  forall k h, holes ds !! k = Some h ->
    (0 <= m (Z.of_nat k) < Z.of_nat (Hole.size h))%Z.
Proof.
  rewrite z3_initialize_solver, forallb_flat_map, forallb_lookup. split.
  - intros H k h Hk.
    specialize (H k (Z.of_nat k, h)). rewrite enumerate_lookup, Hk in H.
    specialize (H eq_refl). simpl in H.
    apply andb_prop in H as [H1 H2]. apply andb_prop in H2 as [H2 _].
    apply Z.leb_le in H1. apply Z.ltb_lt in H2. lia.
  - intros H k [i h] Hk. rewrite enumerate_lookup in Hk.
    destruct (holes ds !! k) as [h'|] eqn:E; [|discriminate].
    inversion Hk; subst. destruct (H _ _ E) as [H1 H2]. simpl.
    apply Z.leb_le in H1. apply Z.ltb_lt in H2. by rewrite H1, H2.
Qed.

(** X5. [z3_initialize] names the solver variable of hole [k] by [k] and
    asserts [0 <= var < hole.size] for it, nothing else: a model
    satisfies the initialised solver exactly when the value of every
    variable is a position below the size of its hole (whatever the
    hole's options are). *)
Theorem z3_initialize_models (ds : t) (m : Z3.model) :
  solver_vars (z3_initialize ds) = map Z.of_nat (seq 0 (length (holes ds)))
  /\ length (solver (z3_initialize ds)) = 2 * length (holes ds)
  /\ (forallb (Z3.eval m) (solver (z3_initialize ds)) = true <->
      forall k h, holes ds !! k = Some h ->
        (0 <= m (Z.of_nat k) < Z.of_nat (Hole.size h))%Z).
Proof.
  split; [apply CegisFacts.z3_initialize_vars|]. split; [|apply initial_models].
  rewrite z3_initialize_solver.
  assert (Hl : length (enumerate (holes ds)) = length (holes ds)).
  { rewrite enumerate_unfold, length_zip_with, length_map, length_seq. lia. }
  rewrite <- Hl. generalize (enumerate (holes ds)) as l.
  induction l as [|[i h] l IH]; [done|].
  simpl in *. rewrite IH. lia.
Qed.

Lemma z3_encode_zip (g : globals) (ds : t) :
  z3_encode g ds
  = if decide (length (holes ds) <= length (solver_vars g))
    then Return (mk (holes ds)
                    (Some (Z3.And (zip_with
                       (fun (hole : Hole.t) var =>
                          Z3.Or (map (fun option => Z3.Eq var option) (Hole.options hole)))
                       (holes ds) (solver_vars g)))))
    else Raise IndexError.
Proof.
  unfold z3_encode.
  change (rmap _ (enumerate (holes ds)))
    with (rmap (fun '(i, x) => y ← py_get (solver_vars g) i;
                  Return ((fun (hole : Hole.t) var =>
                             Z3.Or (map (fun option => Z3.Eq var option)
                                        (Hole.options hole))) x y))
               (enumerate (holes ds))).
  rewrite rmap_enumerate_zip. by case_decide.
Qed.

Lemma eval_options (m : Z3.model) (var : Z) (options : list Z) :
  Z3.eval m (Z3.Or (map (fun option => Z3.Eq var option) options)) = true
  <-> m var ∈ options.
Proof.
  simpl. rewrite existsb_exists. split.
  - intros (e & He & Hev). apply in_map_iff in He as (o & <- & Ho).
    simpl in Hev. apply Z.eqb_eq in Hev. rewrite Hev. by apply list_elem_of_In.
  - intros H. exists (Z3.Eq var (m var)). split.
    + apply in_map_iff. exists (m var). split; [done | by apply list_elem_of_In].
    + simpl. apply Z.eqb_refl.
Qed.

(** X6. [z3_encode] raises [IndexError] exactly when the design space has
    more holes than the solver has variables. Otherwise it stores an
    encoding, leaves the holes as they are, and a model satisfies the
    encoding exactly when the variable of every hole has one of the
    hole's options as its value (so no model does when a hole has no
    option). *)
Theorem z3_encode_models (g : globals) (ds : t) :
  match z3_encode g ds with
  | Return ds' =>
      length (holes ds) <= length (solver_vars g)
      /\ holes ds' = holes ds
      /\ exists enc, encoding ds' = Some enc
           /\ forall m, Z3.eval m enc = true <->
                forall k h var, holes ds !! k = Some h -> solver_vars g !! k = Some var ->
                  m var ∈ Hole.options h
  | Raise e => e = IndexError /\ length (solver_vars g) < length (holes ds)
  end.
Proof.
  rewrite z3_encode_zip. case_decide as Hlen; [|split; [done | lia]].
  split; [done|]. split; [done|]. eexists. split; [reflexivity|].
  intros m. cbn [Z3.eval]. rewrite forallb_lookup. split.
  - intros H k h var Hh Hvar. apply eval_options. apply (H k).
    apply lookup_zip_with_Some. eauto.
  - intros H k cl Hk. apply lookup_zip_with_Some in Hk as (h & var & -> & Hh & Hvar).
    apply eval_options. eauto.
Qed.

(** X7. A returned [exclude_assignment(assignment, conflict)] adds one
    formula to the solver and keeps the variables. The formula rules out
    exactly the models that, at every solver variable, give a hole of
    the conflict the first option it has in [assignment] and give any
    other hole one of its options in [self]: a model that differs from
    [assignment] on a hole of the conflict is never excluded. *)
Theorem exclude_assignment_blocks_exactly (g g' : globals) (self : t)
    (assignment : Holes.t) (conflict : list Z) :
  exclude_assignment g self assignment conflict = Return g' ->
  solver_vars g' = solver_vars g
  /\ exists e, solver g' = solver g ++ [e]
       /\ forall m, Z3.eval m e = false <->
            forall k var, solver_vars g !! k = Some var ->
              if decide (Z.of_nat k ∈ conflict)
              then exists ha, assignment !! k = Some ha
                     /\ head (Hole.options ha) = Some (m var)
              else exists h, holes self !! k = Some h /\ m var ∈ Hole.options h.
Proof.
  unfold exclude_assignment. intros H.
  apply rbind_Return in H as (clauses & Hcl & Hg'). inversion Hg'; subst g'. clear Hg'.
  split; [done|]. eexists. split; [reflexivity|].
  pose proof (rmap_length _ _ _ Hcl) as Hlen.
  assert (Hlen' : length clauses = length (solver_vars g)).
  { rewrite Hlen, enumerate_unfold, length_zip_with, length_map, length_seq. lia. }
  assert (Hbody : forall k var cl m, solver_vars g !! k = Some var ->
            clauses !! k = Some cl ->
            (Z3.eval m cl = true <->
             if decide (Z.of_nat k ∈ conflict)
             then exists ha, assignment !! k = Some ha
                    /\ head (Hole.options ha) = Some (m var)
             else exists h, holes self !! k = Some h /\ m var ∈ Hole.options h)).
  { intros k var cl m Hvar Hk.
    destruct (rmap_enumerate_lookup _ _ _ Hcl k var Hvar) as (cl' & Hk' & Hb).
    rewrite Hk in Hk'. inversion Hk'; subst cl'. clear Hk'.
    simpl in Hb. unfold py_in in Hb. case_decide as Hc.
    - rewrite bool_decide_eq_true_2 in Hb by done.
      apply rbind_Return in Hb as (ha & Hha & Hb).
      apply rbind_Return in Hb as (o & Ho & Hb). inversion Hb; subst cl.
      rewrite py_get_of_nat in Hha. destruct (assignment !! k) as [ha'|]; [|discriminate].
      inversion Hha; subst ha'.
      change 0%Z with (Z.of_nat 0) in Ho. rewrite py_get_of_nat in Ho.
      destruct (Hole.options ha) as [|o' os] eqn:Hopts; [discriminate|].
      simpl in Ho. inversion Ho; subst o'. simpl. rewrite Z.eqb_eq. split.
      + intros Hm. exists ha. rewrite Hopts. simpl. by rewrite Hm.
      + intros (ha' & [= <-] & Hhd). rewrite Hopts in Hhd. simpl in Hhd. congruence.
    - rewrite bool_decide_eq_false_2 in Hb by done.
      apply rbind_Return in Hb as (h & Hh & Hb). inversion Hb; subst cl.
      rewrite py_get_of_nat in Hh. destruct (holes self !! k) as [h'|]; [|discriminate].
      inversion Hh; subst h'. rewrite eval_options. split.
      + intros Hm. by exists h.
      + by intros (h' & [= <-] & Hm). }
  intros m. cbn [Z3.eval]. rewrite negb_false_iff, forallb_lookup. split.
  - intros H k var Hvar.
    destruct (lookup_lt_is_Some_2 clauses k) as (cl & Hk).
    { rewrite Hlen'. by eapply lookup_lt_Some. }
    apply (Hbody k var cl m Hvar Hk). by eapply H.
  - intros H k cl Hk.
    destruct (lookup_lt_is_Some_2 (solver_vars g) k) as (var & Hvar).
    { rewrite <- Hlen'. by eapply lookup_lt_Some. }
    apply (Hbody k var cl m Hvar Hk). by apply H.
Qed.

Lemma exclude_assignment_blocks_exactly_witness :
  solver_vars g1_S5 = solver_vars g0_S5
  /\ exists e, solver g1_S5 = solver g0_S5 ++ [e]
       /\ forall m, Z3.eval m e = false <->
            forall k var, solver_vars g0_S5 !! k = Some var ->
              if decide (Z.of_nat k ∈ [0; 1]%Z)
              then exists ha, a_S5 !! k = Some ha
                     /\ head (Hole.options ha) = Some (m var)
              else exists h, holes self_S5 !! k = Some h /\ m var ∈ Hole.options h.
Proof.
  apply (exclude_assignment_blocks_exactly g0_S5 g1_S5 self_S5 a_S5 [0; 1]%Z).
  reflexivity.
Defined.

(** X8. After [z3_initialize] on a baseline design space, whatever was
    asserted since, a sound solver makes [pick_assignment] on an encoded
    design space return only assignments that give each hole exactly one
    option, taken from the hole's options, and that option is a position
    below the size the hole had in the baseline: an option that is not
    such a position is never picked. *)
Theorem pick_assignment_within_baseline
    (check : list Z3.expr -> Z3.expr -> Z3.check_result)
    (ds0 self : t) (g : globals) (b : Holes.t) :
  Z3.sound check ->
  solver (z3_initialize ds0) ⊆ solver g ->
  solver_vars g = solver_vars (z3_initialize ds0) ->
  encoded g self ->
  pick_assignment check g self = Return (Some b) ->
  Forall2 (fun hb h => exists o, hb = Hole.mk (Hole.name h) [o] (Hole.option_labels h)
                         /\ o ∈ Hole.options h) b (holes self)
  /\ forall k hb h0 o, b !! k = Some hb -> holes ds0 !! k = Some h0 ->
       o ∈ Hole.options hb -> (0 <= o < Z.of_nat (Hole.size h0))%Z.
Proof.
  intros Hsound Hsub Hvars Henc Hpick.
  destruct (encoded_inv _ _ Henc) as (hc & He & Hhc).
  destruct (check (solver g) (Z3.And hc)) as [m| |] eqn:Hc;
    try (unfold pick_assignment in Hpick; rewrite He, Hc in Hpick; discriminate).
  rewrite (pick_assignment_sat _ _ _ _ _ He Hc) in Hpick.
  case_decide as Hlen; [|discriminate]. inversion Hpick; subst b. clear Hpick.
  destruct (Hsound _ _ _ Hc) as [Hall Henc_true].
  assert (Hinit : forallb (Z3.eval m) (solver (z3_initialize ds0)) = true).
  { apply forallb_forall. intros e Hin. rewrite forallb_forall in Hall.
    apply Hall, list_elem_of_In, Hsub. by apply list_elem_of_In. }
  rewrite initial_models in Hinit.
  split.
  - apply Forall2_same_length_lookup_2.
    + unfold pinned. rewrite length_zip_with. lia.
    + intros k hb h Hb Hh. unfold pinned in Hb.
      apply lookup_zip_with_Some in Hb as (h' & var & -> & Hh' & Hvar).
      rewrite Hh in Hh'. inversion Hh'; subst h'.
      exists (m var). split; [done|].
      destruct (Hhc k h Hh) as (var' & Hvar' & Hck).
      rewrite Hvar in Hvar'. inversion Hvar'; subst var'.
      apply eval_options. cbn [Z3.eval] in Henc_true.
      exact (forallb_true_lookup _ _ _ _ Henc_true Hck).
  - intros k hb h0 o Hb Hh0 Ho. unfold pinned in Hb.
    apply lookup_zip_with_Some in Hb as (h' & var & -> & Hh' & Hvar).
    simpl in Ho. apply list_elem_of_singleton in Ho. subst o.
    rewrite Hvars, CegisFacts.z3_initialize_vars, list_lookup_fmap in Hvar.
    destruct (seq 0 (length (holes ds0)) !! k) as [k'|] eqn:Hseq; [|discriminate].
    apply lookup_seq in Hseq as [-> _]. inversion Hvar; subst var.
    by apply Hinit.
Qed.

Lemma pick_assignment_within_baseline_witness :
  Forall2 (fun hb h => exists o, hb = Hole.mk (Hole.name h) [o] (Hole.option_labels h)
                         /\ o ∈ Hole.options h) b_S5 (holes self_S5)
  /\ forall k hb h0 o, b_S5 !! k = Some hb -> holes (init holes_S5) !! k = Some h0 ->
       o ∈ Hole.options hb -> (0 <= o < Z.of_nat (Hole.size h0))%Z.
Proof.
  apply (pick_assignment_within_baseline check_S5 (init holes_S5) self_S5 g1_S5 b_S5).
  - apply search_sound.
  - assert (E : exists e0, solver g1_S5 = solver (z3_initialize (init holes_S5)) ++ [e0])
      by (eexists; reflexivity).
    destruct E as (e0 & ->). intros e He. apply elem_of_app. by left.
  - reflexivity.
  - reflexivity.
  - reflexivity.
Defined.

End EncodingFacts.

(** ** CombinationColoring: colors of a subspace and their assignments *)

Module ColoringQueryFacts.
Import Coloring EnumerateFacts.

(** Every entry of the combination that is set is an option of the hole
    at its position in the subspace. *)
Definition compatible (t : combination) (subspace : Holes.t) : Prop :=
  forall k h, subspace !! k = Some h ->
    exists entry, t !! k = Some entry
      /\ forall o, entry = Some o -> o ∈ Hole.options h.

Lemma contained_spec (t : combination) (subspace : Holes.t) :
  match contained t (enumerate subspace) with
  | Return true => compatible t subspace
  | Return false => ~ compatible t subspace
  | Raise e => e = IndexError /\ length t < length subspace
  end.
Proof.
  rewrite enumerate_unfold.
  enough (Hgen : forall a,
    match contained t (zip (map Z.of_nat (seq a (length subspace))) subspace) with
    | Return true =>
        forall k h, subspace !! k = Some h ->
          exists entry, t !! (a + k) = Some entry
            /\ forall o, entry = Some o -> o ∈ Hole.options h
    | Return false =>
        ~ forall k h, subspace !! k = Some h ->
            exists entry, t !! (a + k) = Some entry
              /\ forall o, entry = Some o -> o ∈ Hole.options h
    | Raise e => e = IndexError /\ length t < a + length subspace
    end).
  { exact (Hgen 0). }
  induction subspace as [|h sub IH]; intros a; [done|].
  cbn [length seq map zip zip_with contained]. rewrite py_get_of_nat.
  destruct (t !! a) as [c|] eqn:Et.
  2:{ apply lookup_ge_None in Et. split; [done | simpl; lia]. }
  unfold mbind, result_bind, rbind.
  assert (Hstep : forall (P : Hole.t -> nat -> Prop),
            (forall k h', sub !! k = Some h' -> P h' (S a + k)) -> P h (a + 0) ->
            forall k h', (h :: sub) !! k = Some h' -> P h' (a + k)).
  { intros P Hs H0 [|k] h' Hk; simpl in Hk.
    - by inversion Hk; subst.
    - replace (a + S k) with (S a + k) by lia. by apply Hs. }
  assert (Hrest :
    match contained t (zip (map Z.of_nat (seq (S a) (length sub))) sub) with
    | Return true =>
        (forall o, c = Some o -> o ∈ Hole.options h) ->
        forall k h', (h :: sub) !! k = Some h' ->
          exists entry, t !! (a + k) = Some entry
            /\ forall o, entry = Some o -> o ∈ Hole.options h'
    | Return false =>
        ~ forall k h', (h :: sub) !! k = Some h' ->
            exists entry, t !! (a + k) = Some entry
              /\ forall o, entry = Some o -> o ∈ Hole.options h'
    | Raise e => e = IndexError /\ length t < a + length (h :: sub)
    end).
  { specialize (IH (S a)).
    destruct (contained t (zip (map Z.of_nat (seq (S a) (length sub))) sub)) as [[|]|e].
    - intros Hc. apply (Hstep (fun h' j => exists entry, t !! j = Some entry
                                 /\ forall o, entry = Some o -> o ∈ Hole.options h')).
      + exact IH.
      + rewrite Nat.add_0_r. eauto.
    - intros Hall. apply IH. intros k h' Hk.
      specialize (Hall (S k) h' Hk). by replace (a + S k) with (S a + k) in Hall by lia.
    - destruct IH as [-> Hlt]. split; [done | simpl; lia]. }
  destruct c as [o|].
  - unfold py_in. destruct (bool_decide (o ∈ Hole.options h)) eqn:Ho; cbn [negb].
    + apply bool_decide_eq_true_1 in Ho.
      destruct (contained t (zip (map Z.of_nat (seq (S a) (length sub))) sub)) as [[|]|e];
        try done.
      apply Hrest. by intros o' [= <-].
    + apply bool_decide_eq_false_1 in Ho. intros Hall.
      destruct (Hall 0 h eq_refl) as (entry & He & Hin).
      rewrite Nat.add_0_r, Et in He. inversion He; subst entry. by apply Ho, Hin.
  - destruct (contained t (zip (map Z.of_nat (seq (S a) (length sub))) sub)) as [[|]|e];
      try done.
    apply Hrest. discriminate.
Qed.

(** The outer loop of [subcolors] over any list of items. *)
Lemma subcolors_fold (subspace : Holes.t) (l : list (combination * nat)) :
  forall s : gset nat,
    match rfold (fun colors '(combination, color) =>
                   c ← contained combination (enumerate subspace);
                   Return (if (c : bool) then colors ∪ {[color]} else colors)) s l with
    | Return cs =>
        forall c, c ∈ cs <->
          c ∈ s \/ exists t, (t, c) ∈ l /\ compatible t subspace
    | Raise e =>
        e = IndexError /\ exists t c, (t, c) ∈ l /\ length t < length subspace
    end.
Proof.
  induction l as [|[t c0] l IH]; intros s.
  - simpl. intros c. split; [by left|]. intros [H|(t & H & _)]; [done|].
    by apply elem_of_nil in H.
  - cbn [rfold]. pose proof (contained_spec t subspace) as Hc.
    destruct (contained t (enumerate subspace)) as [b|e].
    + unfold mbind, result_bind, rbind in *.
      specialize (IH (if b then s ∪ {[c0]} else s)).
      match goal with
      | |- match ?r with _ => _ end =>
          destruct r as [cs|e] eqn:Er
      end.
      * intros c. rewrite IH. destruct b.
        -- rewrite elem_of_union, elem_of_singleton. split.
           ++ intros [[H| ->]|(t' & H & Hcomp)]; [by left | | ].
              ** right. exists t. split; [apply elem_of_cons; by left | done].
              ** right. exists t'. split; [apply elem_of_cons; by right | done].
           ++ intros [H|(t' & H & Hcomp)]; [by left; left|].
              apply elem_of_cons in H as [[= -> ->]|H]; [by left; right|].
              right. eauto.
        -- split.
           ++ intros [H|(t' & H & Hcomp)]; [by left|].
              right. exists t'. split; [apply elem_of_cons; by right | done].
           ++ intros [H|(t' & H & Hcomp)]; [by left|].
              apply elem_of_cons in H as [[= -> ->]|H]; [done|].
              right. eauto.
      * destruct IH as (-> & t' & c' & H & Hlt). split; [done|].
        exists t', c'. split; [apply elem_of_cons; by right | done].
    + destruct Hc as [-> Hlt]. split; [done|].
      exists t, c0. split; [apply elem_of_cons; by left | done].
Qed.

(** X9. [subcolors] returns exactly the colors of the stored
    combinations that are contained in the subspace: at every hole of the
    subspace the combination is either unset or names one of the hole's
    options. It raises [IndexError] only when some stored combination has
    fewer entries than the subspace has holes. *)
Theorem subcolors_contained (cc : CombinationColoring) (subspace : Holes.t) :
  match subcolors cc subspace with
  | Return cs =>
      forall c, c ∈ cs <->
        exists t, coloring cc !! t = Some c /\ compatible t subspace
  | Raise e =>
      e = IndexError
      /\ exists t c, coloring cc !! t = Some c /\ length t < length subspace
  end.
Proof.
  unfold subcolors.
  pose proof (subcolors_fold subspace (map_to_list (coloring cc)) ∅) as H.
  match goal with
  | |- match ?r with _ => _ end => destruct r as [cs|e]
  end.
  - intros c. rewrite H. split.
    + intros [Hc|(t & Ht & Hcomp)]; [by apply elem_of_empty in Hc|].
      exists t. split; [by apply elem_of_map_to_list | done].
    + intros (t & Ht & Hcomp). right. exists t.
      split; [by apply elem_of_map_to_list | done].
  - destruct H as (-> & t & c & Ht & Hlt). split; [done|].
    exists t, c. split; [by apply elem_of_map_to_list | done].
Qed.

(** On a refinement the inner loop returns whenever it returned on the
    subspace, and accepts only what was accepted there. *)
Lemma contained_mono (t : combination) (sub' sub : Holes.t) :
  Forall2 (fun h' h => Hole.options h' ⊆ Hole.options h) sub' sub ->
  forall b, contained t (enumerate sub) = Return b ->
    exists b', contained t (enumerate sub') = Return b' /\ (b' = true -> b = true).
Proof.
  intros HR. rewrite !enumerate_unfold. generalize 0 as a.
  induction HR as [|h' h sub' sub Hsub _ IH]; intros a b Hb.
  - exists true. split; [done|]. by inversion Hb.
  - cbn [length seq map zip zip_with contained] in *.
    destruct (py_get t (Z.of_nat a)) as [c|e]; [|discriminate].
    unfold mbind, result_bind, rbind in *.
    destruct c as [o|]; [|by apply IH].
    unfold py_in in *.
    destruct (bool_decide (o ∈ Hole.options h')) eqn:Ho'; cbn [negb].
    + apply bool_decide_eq_true_1 in Ho'.
      rewrite (bool_decide_eq_true_2 (o ∈ Hole.options h)) in Hb by (by apply Hsub).
      by apply IH.
    + exists false. split; [done | discriminate].
Qed.

(** X10. Refining a subspace can only lose colors: when [subcolors]
    returns for a subspace, it returns for every refinement of it, with a
    subset of the colors. *)
Theorem subcolors_monotone (cc : CombinationColoring) (sub' sub : Holes.t)
    (cs : gset nat) :
  HolesFacts.refines sub' sub ->
  subcolors cc sub = Return cs ->
  exists cs', subcolors cc sub' = Return cs' /\ cs' ⊆ cs.
Proof.
  intros HR. unfold subcolors.
  assert (HR' : Forall2 (fun h' h => Hole.options h' ⊆ Hole.options h) sub' sub).
  { eapply Forall2_impl; [exact HR|]. by intros h' h [_ ?]. }
  assert (Hgen : forall (l : list (combination * nat)) (s s' : gset nat),
    s' ⊆ s -> forall cs0,
    rfold (fun colors '(combination, color) =>
             c ← contained combination (enumerate sub);
             Return (if (c : bool) then colors ∪ {[color]} else colors)) s l
      = Return cs0 ->
    exists cs', rfold (fun colors '(combination, color) =>
                         c ← contained combination (enumerate sub');
                         Return (if (c : bool) then colors ∪ {[color]} else colors)) s' l
                  = Return cs' /\ cs' ⊆ cs0).
  { induction l as [|[t c0] l IH]; intros s s' Hs cs0 H.
    - inversion H; subst. by exists s'.
    - cbn [rfold] in *. apply rbind_Return in H as (s1 & Hs1 & H).
      apply rbind_Return in Hs1 as (b & Hb & [= <-]).
      destruct (contained_mono t sub' sub HR' b Hb) as (b' & -> & Hbb).
      unfold mbind at 1, result_bind, rbind. unfold mbind at 1, result_bind, rbind.
      eapply IH; [|exact H].
      destruct b'; [rewrite Hbb by done|destruct b]; set_solver. }
  apply Hgen. done.
Qed.

(** The loop of [subcolors_proper] over any list of items. *)
Lemma subcolors_proper_fold (hole_index : Z) (options : list Z)
    (l : list (combination * nat)) :
  forall s : gset nat,
    match rfold (fun colors '(combination, color) =>
                   c ← py_get combination hole_index;
                   Return (match c with
                           | Some o => if py_in o options then colors ∪ {[color]}
                                       else colors
                           | None => colors
                           end)) s l with
    | Return cs =>
        (forall c, c ∈ cs <->
           c ∈ s \/ exists t o, (t, c) ∈ l /\ py_get t hole_index = Return (Some o)
                       /\ o ∈ options)
        /\ (forall t c, (t, c) ∈ l -> exists entry, py_get t hole_index = Return entry)
    | Raise e =>
        e = IndexError /\ exists t c, (t, c) ∈ l /\ py_get t hole_index = Raise IndexError
    end.
Proof.
  induction l as [|[t c0] l IH]; intros s.
  - simpl. split.
    + intros c. split; [by left|]. intros [H|(t & o & H & _)]; [done|].
      by apply elem_of_nil in H.
    + intros t c H. by apply elem_of_nil in H.
  - cbn [rfold]. destruct (py_get t hole_index) as [entry|e] eqn:Hg.
    + unfold mbind, result_bind, rbind in *.
      set (s1 := match entry with
                 | Some o => if py_in o options then s ∪ {[c0]} else s
                 | None => s
                 end).
      specialize (IH s1).
      match goal with
      | |- match ?r with _ => _ end => destruct r as [cs|e] eqn:Er
      end.
      * destruct IH as [IH IHall]. split.
        -- intros c. rewrite IH.
           assert (Hs1 : c ∈ s1 <->
                         c ∈ s \/ (c = c0 /\ exists o, entry = Some o /\ o ∈ options)).
           { unfold s1, py_in. destruct entry as [o|].
             - destruct (bool_decide (o ∈ options)) eqn:E.
               + apply bool_decide_eq_true_1 in E.
                 rewrite elem_of_union, elem_of_singleton. split; [|tauto].
                 intros [?| ->]; [by left | right; eauto].
               + apply bool_decide_eq_false_1 in E. split; [by left|].
                 intros [?|[_ (o' & [= <-] & ?)]]; done.
             - split; [by left|]. intros [?|[_ (o' & ? & _)]]; done. }
           rewrite Hs1. split.
           ++ intros [[?|[-> (o & -> & Ho)]]|(t' & o & H & Hrest)]; [by left | |].
              ** right. exists t, o. split; [apply elem_of_cons; by left | done].
              ** right. exists t', o. split; [apply elem_of_cons; by right | done].
           ++ intros [?|(t' & o & H & Hg' & Ho)]; [by left; left|].
              apply elem_of_cons in H as [[= -> ->]|H].
              ** left. right. split; [done|]. exists o. split; [congruence | done].
              ** right. exists t', o. done.
        -- intros t' c' H. apply elem_of_cons in H as [[= -> ->]|H]; [by exists entry|].
           by eapply IHall.
      * destruct IH as (-> & t' & c' & H & Hr). split; [done|].
        exists t', c'. split; [apply elem_of_cons; by right | done].
    + assert (e = IndexError) as ->.
      { unfold py_get in Hg. destruct (py_norm (length t) hole_index) as [k|]; [|congruence].
        destruct (t !! k); congruence. }
      split; [done|]. exists t, c0. split; [apply elem_of_cons; by left | done].
Qed.

(** X26. [subcolors_proper(hole_index, options)] raises [IndexError]
    exactly when some stored combination has no entry at [hole_index]:
    when it returns, every stored combination has one. It then returns
    exactly the colors of the stored combinations whose entry at
    [hole_index] is set to one of [options]; a combination that leaves
    the hole unset is never included (where [subcolors] would accept
    it). *)
Theorem subcolors_proper_set (cc : CombinationColoring) (hole_index : Z)
    (options : list Z) :
  match subcolors_proper cc hole_index options with
  | Return cs =>
      (forall t c, coloring cc !! t = Some c ->
         exists entry, py_get t hole_index = Return entry)
      /\ (forall c, c ∈ cs <->
            exists t o, coloring cc !! t = Some c /\ py_get t hole_index = Return (Some o)
                        /\ o ∈ options)
  | Raise e =>
      e = IndexError
      /\ exists t c, coloring cc !! t = Some c /\ py_get t hole_index = Raise IndexError
  end.
Proof.
  unfold subcolors_proper.
  pose proof (subcolors_proper_fold hole_index options (map_to_list (coloring cc)) ∅) as H.
  match goal with
  | |- match ?r with _ => _ end => destruct r as [cs|e]
  end.
  - destruct H as [H Hall]. split.
    + intros t c Ht. apply (Hall t c). by apply elem_of_map_to_list.
    + intros c. rewrite H. split.
      * intros [Hc|(t & o & Ht & Hrest)]; [by apply elem_of_empty in Hc|].
        exists t, o. split; [by apply elem_of_map_to_list | done].
      * intros (t & o & Ht & Hrest). right. exists t, o.
        split; [by apply elem_of_map_to_list | done].
  - destruct H as (-> & t & c & Ht & Hr). split; [done|].
    exists t, c. split; [by apply elem_of_map_to_list | done].
Qed.

(** One stored combination, set at the second of two holes. *)
Definition cc_ex : CombinationColoring :=
  (get_or_make_color (get_or_make_color init [None; Some 1%Z]).1 [Some 0%Z; None]).1.

Definition sub_ex : Holes.t :=
  [Hole.mk "h0" [0; 1]%Z ["a"; "b"]; Hole.mk "h1" [0; 1]%Z ["x"; "y"]].

Definition sub'_ex : Holes.t :=
  [Hole.mk "h0" [0; 1]%Z ["a"; "b"]; Hole.mk "h1" [0]%Z ["x"; "y"]].

Lemma subcolors_monotone_witness :
  exists cs', subcolors cc_ex sub'_ex = Return cs' /\ cs' ⊆ {[1; 2]}.
Proof.
  apply (subcolors_monotone cc_ex sub'_ex sub_ex {[1; 2]}).
  - constructor; [split; [done | done] |].
    constructor; [split; [unfold Hole.size; simpl; lia |] | constructor].
    intros x Hx. apply list_elem_of_singleton in Hx. subst x. simpl.
    apply elem_of_cons. by left.
  - vm_compute. reflexivity.
Defined.

(** The loop of [get_hole_assignments] over one combination. *)
Lemma assignments_of_combination (t : combination) :
  forall a (has has' : list (gset Z)),
    rfold (fun hole_assignments '(hole_index, assignment) =>
             match assignment with
             | None => Return hole_assignments
             | Some x =>
                 s ← py_get hole_assignments hole_index;
                 py_set hole_assignments hole_index (s ∪ {[x]})
             end) has (zip (map Z.of_nat (seq a (length t))) t) = Return has' ->
    length has' = length has
    /\ forall k s', has' !! k = Some s' ->
         exists s, has !! k = Some s
           /\ forall x, x ∈ s' <-> x ∈ s \/ (a <= k /\ t !! (k - a) = Some (Some x)).
Proof.
  induction t as [|c t IH]; intros a has has' H.
  - inversion H; subst. split; [done|]. intros k s' Hk. exists s'. split; [done|].
    intros x. split; [by left|]. intros [?|[_ Hx]]; [done|]. by rewrite lookup_nil in Hx.
  - cbn [length seq map zip zip_with rfold] in H.
    apply rbind_Return in H as (has1 & H1 & H).
    destruct (IH _ _ _ H) as (Hlen & Hspec). clear IH H.
    assert (Hshift : forall k (x : Z), S a <= k ->
              t !! (k - S a) = (c :: t) !! (k - a)).
    { intros k x Hk. replace (k - a) with (S (k - S a)) by lia. done. }
    destruct c as [x0|].
    + apply rbind_Return in H1 as (s0 & Hs0 & H1).
      rewrite py_get_of_nat in Hs0.
      destruct (has !! a) as [s0'|] eqn:Ea; [|discriminate]. inversion Hs0; subst s0'.
      unfold py_set in H1. rewrite py_norm_of_nat in H1 by (by eapply lookup_lt_Some).
      inversion H1; subst has1. clear H1 Hs0.
      rewrite length_insert in Hlen. split; [done|].
      intros k s' Hk. destruct (Hspec k s' Hk) as (s1 & Hs1 & Hx).
      destruct (decide (a = k)) as [<-|Hne].
      * rewrite list_lookup_insert_eq in Hs1 by (by eapply lookup_lt_Some).
        inversion Hs1; subst s1. exists s0. split; [done|].
        intros x. rewrite Hx, elem_of_union, elem_of_singleton, Nat.sub_diag. simpl.
        split.
        -- intros [[?| ->]|[? _]]; [by left | by right | lia].
        -- intros [?|[_ [= ->]]]; [by left; left | by left; right].
      * rewrite list_lookup_insert_ne in Hs1 by done.
        exists s1. split; [done|]. intros x. rewrite Hx. split.
        -- intros [?|[Hle Ht]]; [by left|]. right. split; [lia|].
           by rewrite <- (Hshift k x Hle).
        -- intros [?|[Hle Ht]]; [by left|]. right.
           assert (S a <= k) by lia. split; [done|]. by rewrite (Hshift k x).
    + inversion H1; subst has1. split; [done|].
      intros k s' Hk. destruct (Hspec k s' Hk) as (s1 & Hs1 & Hx).
      exists s1. split; [done|]. intros x. rewrite Hx. split.
      * intros [?|[Hle Ht]]; [by left|]. right. split; [lia|].
        by rewrite <- (Hshift k x Hle).
      * intros [?|[Hle Ht]]; [by left|]. right.
        destruct (decide (a = k)) as [<-|Hne].
        -- rewrite Nat.sub_diag in Ht. discriminate.
        -- assert (S a <= k) by lia. split; [done|]. by rewrite (Hshift k x).
Qed.

(** The loop of [get_hole_assignments] over the colors. *)
Lemma assignments_of_colors (cc : CombinationColoring) (colors : list nat) :
  forall (has A : list (gset Z)),
    rfold (fun hole_assignments color =>
             if decide (color = 0) then Return hole_assignments
             else
               match reverse_coloring cc !! color with
               | None => Raise KeyError
               | Some combination =>
                   rfold (fun hole_assignments '(hole_index, assignment) =>
                            match assignment with
                            | None => Return hole_assignments
                            | Some a =>
                                s ← py_get hole_assignments hole_index;
                                py_set hole_assignments hole_index (s ∪ {[a]})
                            end)
                         hole_assignments (enumerate combination)
               end) has colors = Return A ->
    length A = length has
    /\ (forall c, c ∈ colors -> c <> 0 -> is_Some (reverse_coloring cc !! c))
    /\ forall k s', A !! k = Some s' ->
         exists s, has !! k = Some s
           /\ forall x, x ∈ s' <->
                x ∈ s \/ exists c t, c ∈ colors /\ c <> 0
                           /\ reverse_coloring cc !! c = Some t
                           /\ t !! k = Some (Some x).
Proof.
  induction colors as [|c0 colors IH]; intros has A H.
  - inversion H; subst. split; [done|]. split.
    { intros c Hc. by apply elem_of_nil in Hc. }
    intros k s' Hk. exists s'. split; [done|]. intros x. split; [by left|].
    intros [?|(c & t & Hc & _)]; [done|]. by apply elem_of_nil in Hc.
  - cbn [rfold] in H. apply rbind_Return in H as (has1 & H1 & H).
    destruct (IH _ _ H) as (Hlen & Hkeys & Hspec). clear IH H.
    case_decide as Hz.
    + inversion H1; subst has1. split; [done|]. split.
      { intros c Hc Hc0. apply elem_of_cons in Hc as [->|Hc]; [done | by apply Hkeys]. }
      intros k s' Hk. destruct (Hspec k s' Hk) as (s & Hs & Hx).
      exists s. split; [done|]. intros x. rewrite Hx. split.
      * intros [?|(c & t & Hc & Hrest)]; [by left|].
        right. exists c, t. split; [apply elem_of_cons; by right | done].
      * intros [?|(c & t & Hc & Hc0 & Hrest)]; [by left|].
        apply elem_of_cons in Hc as [->|Hc]; [done|]. right. eauto.
    + destruct (reverse_coloring cc !! c0) as [t0|] eqn:Et0; [|discriminate].
      rewrite enumerate_unfold in H1.
      destruct (assignments_of_combination t0 0 _ _ H1) as (Hlen1 & Hspec1).
      split; [lia|]. split.
      { intros c Hc Hc0. apply elem_of_cons in Hc as [->|Hc]; [eauto | by apply Hkeys]. }
      intros k s' Hk. destruct (Hspec k s' Hk) as (s1 & Hs1 & Hx).
      destruct (Hspec1 k s1 Hs1) as (s & Hs & Hx1).
      exists s. split; [done|]. intros x. rewrite Hx, Hx1, Nat.sub_0_r. split.
      * intros [[?|[_ Ht]]|(c & t & Hc & Hrest)]; [by left | |].
        -- right. exists c0, t0. split; [apply elem_of_cons; by left | done].
        -- right. exists c, t. split; [apply elem_of_cons; by right | done].
      * intros [?|(c & t & Hc & Hc0 & Hrev & Ht)]; [by left; left|].
        apply elem_of_cons in Hc as [->|Hc].
        -- left. right. split; [lia|]. congruence.
        -- right. by exists c, t.
Qed.

(** X11. A returned [get_hole_assignments(colors)] has one set per hole
    of [self.holes], and the set of hole [k] holds exactly the values
    that the combinations of the given colors set at position [k]; color
    0 contributes nothing, and every other given color is one that
    [reverse_coloring] knows (an unknown color raises [KeyError]). *)
Theorem get_hole_assignments_collects (holes : Holes.t) (cc : CombinationColoring)
    (colors : list nat) (A : list (gset Z)) :
  get_hole_assignments holes cc colors = Return A ->
  length A = length holes
  /\ (forall c, c ∈ colors -> c <> 0 -> is_Some (reverse_coloring cc !! c))
  /\ forall k s x, A !! k = Some s ->
       (x ∈ s <-> exists c t, c ∈ colors /\ c <> 0
                    /\ reverse_coloring cc !! c = Some t /\ t !! k = Some (Some x)).
Proof.
  unfold get_hole_assignments. intros H.
  destruct (assignments_of_colors cc colors _ _ H) as (Hlen & Hkeys & Hspec).
  rewrite length_map in Hlen. split; [done|]. split; [done|].
  intros k s x Hk. destruct (Hspec k s Hk) as (s0 & Hs0 & Hx).
  rewrite list_lookup_fmap in Hs0. destruct (holes !! k); [|discriminate].
  inversion Hs0; subst s0. rewrite Hx. split.
  - intros [Hin|?]; [by apply elem_of_empty in Hin | done].
  - by right.
Qed.

Lemma get_hole_assignments_collects_witness :
  length [({[0%Z]} : gset Z); {[1%Z]}] = length sub_ex
  /\ (forall c, c ∈ [0; 2; 1] -> c <> 0 -> is_Some (reverse_coloring cc_ex !! c))
  /\ forall k s x, [({[0%Z]} : gset Z); {[1%Z]}] !! k = Some s ->
       (x ∈ s <-> exists c t, c ∈ [0; 2; 1] /\ c <> 0
                    /\ reverse_coloring cc_ex !! c = Some t /\ t !! k = Some (Some x)).
Proof.
  apply (get_hole_assignments_collects sub_ex cc_ex [0; 2; 1]).
  vm_compute. reflexivity.
Defined.

(** X12. On a coloring the class produced, the assignments collected
    from colors that [subcolors] returned for a subspace stay within the
    subspace: every value collected for a hole is an option of that hole
    in the subspace. *)
Theorem get_hole_assignments_of_subcolors (holes subspace : Holes.t)
    (cc : CombinationColoring) (cs : gset nat) (colors : list nat)
    (A : list (gset Z)) :
  reachable cc ->
  subcolors cc subspace = Return cs ->
  (forall c, c ∈ colors -> c ∈ cs) ->
  get_hole_assignments holes cc colors = Return A ->
  forall k s h x, A !! k = Some s -> subspace !! k = Some h -> x ∈ s ->
    x ∈ Hole.options h.
Proof.
  intros Hr Hsub Hcs HA k s h x Hk Hh Hx.
  apply ColoringFacts.reachable_consistent in Hr.
  unfold get_hole_assignments in HA.
  destruct (assignments_of_colors cc colors _ _ HA) as (_ & _ & Hspec).
  destruct (Hspec k s Hk) as (s0 & Hs0 & Hin).
  rewrite list_lookup_fmap in Hs0. destruct (holes !! k) as [h0|]; [|discriminate].
  inversion Hs0; subst s0. apply Hin in Hx.
  destruct Hx as [Hx|(c & t & Hc & Hc0 & Hrev & Ht)]; [by apply elem_of_empty in Hx|].
  unfold subcolors in Hsub.
  pose proof (subcolors_fold subspace (map_to_list (coloring cc)) ∅) as Hfold.
  rewrite Hsub in Hfold. apply Hcs, Hfold in Hc.
  destruct Hc as [Hc|(t' & Ht' & Hcomp)]; [by apply elem_of_empty in Hc|].
  apply elem_of_map_to_list in Ht'. destruct (Hr _ _ Ht') as [_ Hrev'].
  rewrite Hrev in Hrev'. inversion Hrev'; subst t'.
  destruct (Hcomp k h Hh) as (entry & He & Hopt).
  rewrite Ht in He. inversion He; subst entry. by apply Hopt.
Qed.

Lemma get_hole_assignments_of_subcolors_witness :
  1%Z ∈ Hole.options (Hole.mk "h1" [0; 1]%Z ["x"; "y"]).
Proof.
  apply (get_hole_assignments_of_subcolors sub_ex sub_ex cc_ex {[1; 2]} [1]
           [(∅ : gset Z); {[1%Z]}] (reachable_step _ _ (reachable_step _ _ reachable_init))
           eq_refl
           (fun c Hc => eq_ind_r (fun c => c ∈ ({[1; 2]} : gset nat))
                          (proj2 (elem_of_union _ _ _)
                             (or_introl (proj2 (elem_of_singleton _ _) eq_refl)))
                          (proj1 (list_elem_of_singleton _ _) Hc))
           eq_refl 1%nat {[1%Z]}).
  - reflexivity.
  - reflexivity.
  - by apply elem_of_singleton.
Defined.

(** What [get_or_make_color] also keeps: [reverse_coloring] holds
    exactly the colors 1 .. [colors], each mapped to a combination that
    [coloring] maps back. *)
Definition dense (cc : CombinationColoring) : Prop :=
  forall c, 1 <= c <= colors cc ->
    exists t, reverse_coloring cc !! c = Some t /\ coloring cc !! t = Some c.

Lemma reachable_dense (cc : CombinationColoring) : reachable cc -> dense cc.
Proof.
  induction 1 as [|cc t Hr IH].
  - intros c Hc. unfold colors in Hc. simpl in Hc. rewrite map_size_empty in Hc. lia.
  - apply ColoringFacts.reachable_consistent in Hr.
    destruct (coloring cc !! t) as [c0|] eqn:Ht.
    + by rewrite (ColoringFacts.get_present _ _ _ Hr Ht).
    + rewrite (ColoringFacts.get_absent _ _ Ht). simpl.
      intros c Hc. unfold colors in *. simpl in *.
      rewrite (map_size_insert_None _ _ _ Ht) in Hc.
      destruct (decide (c = size (coloring cc) + 1)) as [->|Hne].
      * exists t. by rewrite !lookup_insert_eq.
      * destruct (IH c) as (t' & Hrev & Hcol); [unfold colors; lia|].
        exists t'. rewrite lookup_insert_ne by lia. split; [done|].
        rewrite lookup_insert_ne by congruence. done.
Qed.

(** X13. On every coloring the class can produce, no two combinations
    share a color, and the colors in use are exactly 1, ..., [colors]:
    none is skipped and none is used twice. *)
Theorem colors_dense_injective (cc : CombinationColoring) :
  reachable cc ->
  (forall t1 t2 c, coloring cc !! t1 = Some c -> coloring cc !! t2 = Some c -> t1 = t2)
  /\ (forall c, 1 <= c <= colors cc <-> exists t, coloring cc !! t = Some c).
Proof.
  intros Hr. pose proof (ColoringFacts.reachable_consistent _ Hr) as Hc.
  pose proof (reachable_dense _ Hr) as Hd. split.
  - intros t1 t2 c H1 H2.
    destruct (Hc _ _ H1) as [_ Hr1]. destruct (Hc _ _ H2) as [_ Hr2]. congruence.
  - intros c. split.
    + intros Hrange. destruct (Hd c Hrange) as (t & _ & Ht). eauto.
    + intros (t & Ht). by destruct (Hc _ _ Ht).
Qed.

Lemma colors_dense_injective_witness :
  (forall t1 t2 c, coloring cc_ex !! t1 = Some c -> coloring cc_ex !! t2 = Some c -> t1 = t2)
  /\ (forall c, 1 <= c <= colors cc_ex <-> exists t, coloring cc_ex !! t = Some c).
Proof.
  apply (colors_dense_injective cc_ex).
  apply reachable_step, reachable_step, reachable_init.
Defined.

End ColoringQueryFacts.

(** ** CEGIS: what a finished run says about the family *)

Module CegisResultFacts.
Import DesignSpace EnumerateFacts SolverFacts CegisFacts EncodingFacts.

(** The assignment that gives hole [k] of the family the option [x_k]. *)
Definition assign (F : Holes.t) (x : list Z) : Holes.t :=
  zip_with (fun h o => Hole.mk (Hole.name h) [o] (Hole.option_labels h)) F x.

(** An assignment of the family: hole by hole the same name and labels
    and one option, taken from the hole's options. *)
Definition member (a F : Holes.t) : Prop :=
  Forall2 (fun ha h => exists o, ha = Hole.mk (Hole.name h) [o] (Hole.option_labels h)
                         /\ o ∈ Hole.options h) a F.

(** The oracle gives up on no option vector of the list: when it does
    not answer [sat], none of them satisfies the assertions and the
    assumption. *)
Definition complete_on (cands : list (list Z))
    (check : list Z3.expr -> Z3.expr -> Z3.check_result) : Prop :=
  forall assertions assumption x,
    x ∈ cands -> (forall m, check assertions assumption <> Z3.sat m) ->
    ~ (forallb (Z3.eval (Z3.model_of x)) assertions = true
       /\ Z3.eval (Z3.model_of x) assumption = true).

Lemma search_complete (cands : list (list Z)) : complete_on cands (Z3.search cands).
Proof.
  intros A e x Hx Hns [HA He]. unfold Z3.search in Hns.
  destruct (find _ cands) as [y|] eqn:Ef.
  - by apply (Hns (Z3.model_of y)).
  - apply list_elem_of_In in Hx. pose proof (find_none _ _ Ef x Hx) as Hf.
    simpl in Hf. by rewrite HA, He in Hf.
Qed.

Lemma pinned_assign (m : Z3.model) (F : Holes.t) (vars : list Z) :
  pinned m F vars = assign F (map m vars).
Proof.
  unfold pinned, assign. revert vars.
  induction F as [|h F IH]; intros [|v vars]; simpl; try done. by rewrite IH.
Qed.

Lemma exclude_assignment_vars g ds a c g' :
  exclude_assignment g ds a c = Return g' -> solver_vars g' = solver_vars g.
Proof.
  unfold exclude_assignment. intros H.
  apply rbind_Return in H as (cl & _ & H). by inversion H.
Qed.

Lemma exclude_fold_vars ds a (conflicts : list (list Z)) :
  forall g g',
    rfold (fun g conflict => exclude_assignment g ds a conflict) g conflicts = Return g' ->
    solver_vars g' = solver_vars g.
Proof.
  induction conflicts as [|c cs IH]; intros g g' H.
  - by inversion H.
  - cbn [rfold] in H. apply rbind_Return in H as (g1 & H1 & H).
    rewrite (IH _ _ H). by eapply exclude_assignment_vars.
Qed.

(** With a sound oracle a picked assignment is an assignment of the
    design space. *)
Lemma pick_member check g ds a :
  Z3.sound check -> encoded g ds ->
  pick_assignment check g ds = Return (Some a) -> member a (holes ds).
Proof.
  intros Hsound Henc Hpick.
  destruct (encoded_inv _ _ Henc) as (hc & He & Hhc).
  destruct (check (solver g) (Z3.And hc)) as [m| |] eqn:Hc;
    try (unfold pick_assignment in Hpick; rewrite He, Hc in Hpick; discriminate).
  rewrite (pick_assignment_sat _ _ _ _ _ He Hc) in Hpick.
  case_decide as Hlen; [|discriminate]. inversion Hpick; subst a. clear Hpick.
  destruct (Hsound _ _ _ Hc) as [_ Henc_true].
  apply Forall2_same_length_lookup_2.
  - unfold pinned. rewrite length_zip_with. lia.
  - intros k hb h Hb Hh. unfold pinned in Hb.
    apply lookup_zip_with_Some in Hb as (h' & var & -> & Hh' & Hvar).
    rewrite Hh in Hh'. inversion Hh'; subst h'.
    exists (m var). split; [done|].
    destruct (Hhc k h Hh) as (var' & Hvar' & Hck).
    rewrite Hvar in Hvar'. inversion Hvar'; subst var'.
    apply eval_options. cbn [Z3.eval] in Henc_true.
    exact (forallb_true_lookup _ _ _ _ Henc_true Hck).
Qed.

Lemma z3_encode_encoded g ds0 ds :
  z3_encode g ds0 = Return ds -> encoded g ds /\ holes ds = holes ds0.
Proof.
  intros H. unfold encoded. rewrite z3_encode_zip in *.
  case_decide as Hlen; [|discriminate]. inversion H; subst ds. simpl.
  by rewrite decide_True.
Qed.

Section Result.

Context {Property Optimality Value DTMC : Type}.
Variable check : list Z3.expr -> Z3.expr -> Z3.check_result.
Variable build : Holes.t -> DTMC.
Variable check_properties_all : DTMC -> list Property -> bool * list Property.
Variable check_optimality : DTMC -> Optimality -> Value * bool.
Variable update_optimum : Optimality -> Value -> Optimality.

Abbreviation body := (SynthesizerCEGIS.body check build check_properties_all
                                            check_optimality update_optimum).
Abbreviation loop := (SynthesizerCEGIS.loop check build check_properties_all
                                            check_optimality update_optimum).

(** The model checker's verdict on an assignment. *)
Definition accepted (props : list Property) (a : Holes.t) : bool :=
  (check_properties_all (build a) props).1.

(** The stored result, if any, was accepted and is an assignment of the
    family. *)
Definition good (F : Holes.t) (props : list Property)
    (st : SynthesizerCEGIS.state (Optimality:=Optimality)) : Prop :=
  forall a, SynthesizerCEGIS.satisfying_assignment st = Some a ->
    accepted props a = true /\ member a F.

Lemma body_good ds (props : list Property) st a r :
  good (holes ds) props st -> member a (holes ds) ->
  body ds props st a = Return r ->
  match r with
  | SynthesizerCEGIS.Break st' => good (holes ds) props st'
  | SynthesizerCEGIS.Continue st' next =>
      good (holes ds) props st'
      /\ solver_vars (SynthesizerCEGIS.globals st')
         = solver_vars (SynthesizerCEGIS.globals st)
      /\ pick_assignment check (SynthesizerCEGIS.globals st') ds = Return next
  end.
Proof.
  intros Hgood Hmem. unfold SynthesizerCEGIS.body.
  destruct (check_properties_all (build a) props) as [sat unsat] eqn:Hcpa.
  assert (Hacc : sat = true -> accepted props a = true).
  { intros ->. unfold accepted. by rewrite Hcpa. }
  assert (Hcont : forall (confl : list (list Z)) opt' sat' it pr,
            (forall a', sat' = Some a' -> accepted props a' = true /\ member a' (holes ds)) ->
            (g ← rfold (fun g conflict => exclude_assignment g ds a conflict)
                       (SynthesizerCEGIS.globals st) confl;
             next ← pick_assignment check g ds;
             Return (SynthesizerCEGIS.Continue
                       (SynthesizerCEGIS.mkState g opt' sat' it pr) next)) = Return r ->
            match r with
            | SynthesizerCEGIS.Break st' => good (holes ds) props st'
            | SynthesizerCEGIS.Continue st' next =>
                good (holes ds) props st'
                /\ solver_vars (SynthesizerCEGIS.globals st')
                   = solver_vars (SynthesizerCEGIS.globals st)
                /\ pick_assignment check (SynthesizerCEGIS.globals st') ds = Return next
            end).
  { intros confl opt' sat' it pr Hsat' H.
    apply rbind_Return in H as (g & Hg & H).
    apply rbind_Return in H as (next & Hn & H). inversion H; subst r. simpl.
    split; [exact Hsat'|]. split; [by eapply exclude_fold_vars | done]. }
  destruct (SynthesizerCEGIS.optimality st) as [opt|] eqn:Hopt.
  - destruct (check_optimality (build a) opt) as [optimum improves] eqn:Hco.
    destruct sat, improves; cbv zeta beta iota; apply Hcont;
      try (intros a' [= <-]; split; [by apply Hacc | done]); apply Hgood.
  - destruct sat; cbv zeta beta iota.
    + intros [= <-]. intros a' Ha'. simpl in Ha'. inversion Ha'; subst a'.
      split; [by apply Hacc | done].
    + apply Hcont. apply Hgood.
Qed.

Lemma loop_good ds (props : list Property) :
  Z3.sound check ->
  forall fuel st assignment st',
    loop fuel ds props st assignment = Some (Return st') ->
    good (holes ds) props st ->
    encoded (SynthesizerCEGIS.globals st) ds ->
    pick_assignment check (SynthesizerCEGIS.globals st) ds = Return assignment ->
    good (holes ds) props st'.
Proof.
  intros Hsound. induction fuel as [|fuel IH]; intros st assignment st' H Hgood Henc Hpick.
  - destruct assignment; [discriminate|]. simpl in H. by inversion H; subst.
  - destruct assignment as [a|]; [|simpl in H; by inversion H; subst].
    cbn [SynthesizerCEGIS.loop] in H.
    destruct (body ds props st a) as [r|e] eqn:Hbody; [|discriminate].
    pose proof (body_good ds props st a r Hgood (pick_member _ _ _ _ Hsound Henc Hpick)
                          Hbody) as Hr.
    destruct r as [st1|st1 next].
    + by inversion H; subst.
    + destruct Hr as (Hg1 & Hv & Hn).
      eapply IH; [exact H | exact Hg1 | by eapply encoded_vars | exact Hn].
Qed.

(** X14. With a sound solver, whatever the model checker answers and
    however long the loop runs: the assignment that a finished
    [SynthesizerCEGIS.run] reports is an assignment of the sketch's design
    space (every hole keeps its name and labels and has one of its own
    options) on whose DTMC the model checker found all properties
    satisfied. *)
Theorem cegis_result_accepted
    (sketch : SynthesizerCEGIS.Sketch (Property:=Property) (Optimality:=Optimality))
    (fuel : nat) (st : SynthesizerCEGIS.state) (a : Holes.t) :
  Z3.sound check ->
  SynthesizerCEGIS.run check build check_properties_all check_optimality
                       update_optimum sketch fuel = Some (Return st) ->
  SynthesizerCEGIS.satisfying_assignment st = Some a ->
  accepted (SynthesizerCEGIS.properties sketch) a = true
  /\ member a (holes (SynthesizerCEGIS.design_space sketch)).
Proof.
  intros Hsound Hrun Ha. unfold SynthesizerCEGIS.run in Hrun.
  destruct (z3_encode _ (SynthesizerCEGIS.design_space sketch)) as [ds|e] eqn:Henc;
    [|discriminate].
  destruct (z3_encode_encoded _ _ _ Henc) as [Hds Hholes].
  destruct (pick_assignment check _ ds) as [assignment|e] eqn:Hpick; [|discriminate].
  rewrite <- Hholes.
  eapply (loop_good ds _ Hsound _ _ _ _ Hrun); try done.
Qed.

End Result.

(** A sketch with two holes and a model checker that accepts the
    assignments whose first hole has option 1. *)
Definition sketch_ex : SynthesizerCEGIS.Sketch (Property:=unit) (Optimality:=unit) :=
  SynthesizerCEGIS.mkSketch
    (init [Hole.mk "h0" [0; 1]%Z ["a"; "b"]; Hole.mk "h1" [0; 1]%Z ["a"; "b"]])
    [tt] None.

Definition accept_h0_1 (dtmc : Holes.t) (props : list unit) : bool * list unit :=
  match dtmc with
  | h :: _ => if bool_decide (Hole.options h = [1%Z]) then (true, []) else (false, props)
  | [] => (false, props)
  end.

Definition run_ex (fuel : nat) : option (result SynthesizerCEGIS.state) :=
  SynthesizerCEGIS.run (DTMC:=Holes.t) (Value:=unit) check_S2 (fun a => a)
    accept_h0_1 (fun _ _ => (tt, false)) (fun o _ => o) sketch_ex fuel.

Definition st_ex : SynthesizerCEGIS.state :=
  Eval vm_compute in
    match run_ex 4 with
    | Some (Return st) => st
    | _ => SynthesizerCEGIS.mkState (mkGlobals [] []) None None 0 0
    end.

Definition a_ex : Holes.t :=
  [Hole.mk "h0" [1]%Z ["a"; "b"]; Hole.mk "h1" [0]%Z ["a"; "b"]].

Example run_ex_result :
  run_ex 4 = Some (Return st_ex)
  /\ SynthesizerCEGIS.satisfying_assignment st_ex = Some a_ex
  /\ SynthesizerCEGIS.iterations_dtmc st_ex = 3.
Proof. repeat split; vm_compute; reflexivity. Qed.

Lemma cegis_result_accepted_witness :
  accepted (DTMC:=Holes.t) (fun a => a) accept_h0_1 [tt] a_ex = true
  /\ member a_ex (holes (SynthesizerCEGIS.design_space sketch_ex)).
Proof.
  apply (cegis_result_accepted (DTMC:=Holes.t) (Value:=unit) check_S2 (fun a => a)
           accept_h0_1 (fun _ _ => (tt, false)) (fun o _ => o) sketch_ex 4 st_ex a_ex).
  - apply search_sound.
  - vm_compute. reflexivity.
  - vm_compute. reflexivity.
Defined.

(** *** When no assignment is reported *)

Lemma candidates_elem_inv (F : Holes.t) (x : list Z) :
  x ∈ candidates F -> Forall2 (fun o h => o ∈ Hole.options h) x F.
Proof.
  revert x. induction F as [|h F IH]; intros x Hx; simpl in Hx.
  - apply list_elem_of_singleton in Hx. subst. constructor.
  - apply list_elem_of_In, in_flat_map in Hx as (o & Ho & Hx).
    apply in_map_iff in Hx as (x' & <- & Hx').
    constructor; [by apply list_elem_of_In | by apply IH, list_elem_of_In].
Qed.

(** Every option is a position below the size of its hole. *)
Definition in_range (F : Holes.t) (x : list Z) : Prop :=
  forall k o h, x !! k = Some o -> F !! k = Some h ->
    (0 <= o < Z.of_nat (Hole.size h))%Z.

Lemma exclude_fold_exact {P} g ds m (ups : list P) :
  length (holes ds) = length (solver_vars g) ->
  forall g0 g',
    solver_vars g0 = solver_vars g ->
    rfold (fun g1 conflict =>
             exclude_assignment g1 ds (pinned m (holes ds) (solver_vars g)) conflict) g0
          (map (fun _ => map fst (enumerate (pinned m (holes ds) (solver_vars g)))) ups)
      = Return g' ->
    solver_vars g' = solver_vars g
    /\ forall e, e ∈ solver g' ->
         e ∈ solver g0 \/ e = blocking (solver_vars g) (map m (solver_vars g)).
Proof.
  intros Hlen. induction ups as [|p ps IH]; intros g0 g' Hv H.
  - inversion H; subst. split; [done | by left].
  - cbn [map rfold] in H. apply rbind_Return in H as (g1 & H1 & H).
    pose proof (exclude_all g0 ds m) as Hex. cbv zeta in Hex.
    rewrite Hv in Hex. rewrite (Hex Hlen) in H1. inversion H1; subst g1. clear H1 Hex.
    destruct (IH (mkGlobals (solver g0 ++ [blocking (solver_vars g)
                                                   (map m (solver_vars g))])
                            (solver_vars g)) g' eq_refl H) as (Hv' & He).
    split; [done|].
    intros e Hin. destruct (He e Hin) as [Hin'| ->]; [|by right].
    simpl in Hin'. apply elem_of_app in Hin' as [?|Hin']; [by left|].
    apply list_elem_of_singleton in Hin'. by right.
Qed.

Section NoResult.

Context {Property Optimality Value DTMC : Type}.
Variable check : list Z3.expr -> Z3.expr -> Z3.check_result.
Variable build : Holes.t -> DTMC.
Variable check_properties_all : DTMC -> list Property -> bool * list Property.
Variable check_optimality : DTMC -> Optimality -> Value * bool.
Variable update_optimum : Optimality -> Value -> Optimality.

Abbreviation body := (SynthesizerCEGIS.body check build check_properties_all
                                            check_optimality update_optimum).
Abbreviation loop := (SynthesizerCEGIS.loop check build check_properties_all
                                            check_optimality update_optimum).
Abbreviation accepted := (accepted build check_properties_all).

(** The solver holds the assertions of [z3_initialize] and blocking
    clauses of assignments that the model checker refused, nothing else. *)
Definition only_refused (F : Holes.t) (props : list Property) (g : globals) : Prop :=
  solver_vars g = map Z.of_nat (seq 0 (length F))
  /\ forall e, e ∈ solver g ->
       e ∈ solver (z3_initialize (init F))
       \/ exists m, e = blocking (solver_vars g) (map m (solver_vars g))
                    /\ accepted props (pinned m F (solver_vars g)) = false.

Lemma body_no_result ds (props : list Property)
    (st : SynthesizerCEGIS.state (Optimality:=Optimality)) a r :
  SynthesizerCEGIS.optimality st = None ->
  SynthesizerCEGIS.satisfying_assignment st = None ->
  only_refused (holes ds) props (SynthesizerCEGIS.globals st) ->
  encoded (SynthesizerCEGIS.globals st) ds ->
  pick_assignment check (SynthesizerCEGIS.globals st) ds = Return (Some a) ->
  body ds props st a = Return r ->
  match r with
  | SynthesizerCEGIS.Break st' => SynthesizerCEGIS.satisfying_assignment st' <> None
  | SynthesizerCEGIS.Continue st' next =>
      SynthesizerCEGIS.optimality st' = None
      /\ SynthesizerCEGIS.satisfying_assignment st' = None
      /\ only_refused (holes ds) props (SynthesizerCEGIS.globals st')
      /\ pick_assignment check (SynthesizerCEGIS.globals st') ds = Return next
  end.
Proof.
  intros Hopt Hsat (Hvars & Honly) Henc Hpick.
  set (g := SynthesizerCEGIS.globals st) in *.
  destruct (encoded_inv _ _ Henc) as (hc & He & _).
  destruct (check (solver g) (Z3.And hc)) as [m| |] eqn:Hc;
    try (unfold pick_assignment in Hpick; rewrite He, Hc in Hpick; discriminate).
  rewrite (pick_assignment_sat _ _ _ _ _ He Hc) in Hpick.
  case_decide as Hle; [|discriminate]. inversion Hpick; subst a. clear Hpick.
  assert (Hlen : length (holes ds) = length (solver_vars g))
    by (by rewrite Hvars, length_map, length_seq).
  unfold SynthesizerCEGIS.body. rewrite Hopt.
  destruct (check_properties_all (build (pinned m (holes ds) (solver_vars g))) props)
    as [sat unsat] eqn:Hcpa.
  destruct sat; cbv zeta beta iota.
  - intros [= <-]. simpl. discriminate.
  - intros H. apply rbind_Return in H as (g' & Hg' & H).
    apply rbind_Return in H as (next & Hn & H). inversion H; subst r. simpl.
    split; [done|]. split; [done|]. split; [|done].
    destruct (exclude_fold_exact g ds m (map (inl (B:=Optimality)) unsat) Hlen g g'
                eq_refl Hg') as (Hv' & He').
    split; [by rewrite Hv'|].
    intros e Hin. destruct (He' e Hin) as [Hin'| ->].
    + rewrite Hv'. by apply Honly.
    + right. exists m. rewrite Hv'. split; [done|].
      unfold CegisResultFacts.accepted. by rewrite Hcpa.
Qed.

Lemma loop_no_result ds (props : list Property) :
  forall fuel (st : SynthesizerCEGIS.state (Optimality:=Optimality)) assignment st',
    loop fuel ds props st assignment = Some (Return st') ->
    SynthesizerCEGIS.satisfying_assignment st' = None ->
    SynthesizerCEGIS.optimality st = None ->
    SynthesizerCEGIS.satisfying_assignment st = None ->
    only_refused (holes ds) props (SynthesizerCEGIS.globals st) ->
    encoded (SynthesizerCEGIS.globals st) ds ->
    pick_assignment check (SynthesizerCEGIS.globals st) ds = Return assignment ->
    only_refused (holes ds) props (SynthesizerCEGIS.globals st')
    /\ encoded (SynthesizerCEGIS.globals st') ds
    /\ pick_assignment check (SynthesizerCEGIS.globals st') ds = Return None.
Proof.
  induction fuel as [|fuel IH]; intros st assignment st' H Hnone Hopt Hsat Honly Henc Hpick.
  - destruct assignment; [discriminate|]. simpl in H. by inversion H; subst.
  - destruct assignment as [a|]; [|simpl in H; by inversion H; subst].
    cbn [SynthesizerCEGIS.loop] in H.
    destruct (body ds props st a) as [r|e] eqn:Hbody; [|discriminate].
    pose proof (body_no_result ds props st a r Hopt Hsat Honly Henc Hpick Hbody) as Hr.
    destruct r as [st1|st1 next].
    + inversion H; subst. done.
    + destruct Hr as (Hopt1 & Hsat1 & Honly1 & Hn).
      eapply IH; try done.
      eapply encoded_vars; [|exact Henc].
      destruct Honly as [-> _]. by destruct Honly1 as [-> _].
Qed.

Lemma model_of_lookup (x : list Z) k o :
  x !! k = Some o -> Z3.model_of x (Z.of_nat k) = o.
Proof.
  intros Hk. unfold Z3.model_of. rewrite Nat2Z.id.
  apply nth_lookup_Some with (d := 0%Z) in Hk. by rewrite <- Hk, nth_lookup.
Qed.

(** When the pick fails on such a solver, every option vector of the
    family within the initial ranges was refused. *)
Lemma none_all_refused ds (props : list Property) g :
  complete_on (candidates (holes ds)) check ->
  only_refused (holes ds) props g -> encoded g ds ->
  pick_assignment check g ds = Return None ->
  forall x, x ∈ candidates (holes ds) -> in_range (holes ds) x ->
    accepted props (assign (holes ds) x) = false.
Proof.
  intros Hcomplete (Hvars & Honly) Henc Hpick x Hx Hrange.
  pose proof (candidates_elem_inv _ _ Hx) as Hmem.
  pose proof (Forall2_length _ _ _ Hmem) as Hxlen.
  unfold encoded in Henc. rewrite z3_encode_zip in Henc.
  case_decide as Hle; [|discriminate].
  set (enc := Z3.And (zip_with
                 (fun (hole : Hole.t) var =>
                    Z3.Or (map (fun option => Z3.Eq var option) (Hole.options hole)))
                 (holes ds) (solver_vars g))) in *.
  assert (He : encoding ds = Some enc) by (destruct ds; simpl in *; congruence).
  assert (Hns : forall m, check (solver g) enc <> Z3.sat m).
  { intros m Hc. rewrite (pick_assignment_sat _ _ _ _ _ He Hc) in Hpick.
    case_decide; discriminate. }
  assert (Hvar : forall k, k < length (holes ds) -> solver_vars g !! k = Some (Z.of_nat k)).
  { intros k Hk. rewrite Hvars, list_lookup_fmap, lookup_seq_lt by done. done. }
  assert (Henc_true : Z3.eval (Z3.model_of x) enc = true).
  { unfold enc. cbn [Z3.eval]. apply forallb_lookup. intros k cl Hk.
    apply lookup_zip_with_Some in Hk as (h & var & -> & Hh & Hv).
    rewrite Hvar in Hv by (by eapply lookup_lt_Some). inversion Hv; subst var.
    apply eval_options.
    destruct (Forall2_lookup_r _ _ _ _ _ Hmem Hh) as (o & Ho & Hin).
    by rewrite (model_of_lookup _ _ _ Ho). }
  destruct (forallb (Z3.eval (Z3.model_of x)) (solver g)) eqn:Hall.
  { exfalso. by apply (Hcomplete (solver g) enc x Hx Hns). }
  apply forallb_false_lookup in Hall as (j & e & Hj & Hfalse).
  destruct (Honly e (list_elem_of_lookup_2 _ _ _ Hj)) as [Hinit|(m & -> & Hrej)].
  - exfalso.
    assert (Hin : forallb (Z3.eval (Z3.model_of x)) (solver (z3_initialize (init (holes ds))))
                  = true).
    { apply initial_models. simpl. intros k h Hh.
      destruct (Forall2_lookup_r _ _ _ _ _ Hmem Hh) as (o & Ho & _).
      rewrite (model_of_lookup _ _ _ Ho). by eapply Hrange. }
    rewrite forallb_forall in Hin. specialize (Hin e).
    rewrite Hin in Hfalse; [discriminate | by apply list_elem_of_In].
  - rewrite pinned_assign in Hrej.
    replace x with (map m (solver_vars g)); [done|].
    unfold blocking in Hfalse. cbn [Z3.eval] in Hfalse.
    apply negb_false_iff in Hfalse. rewrite forallb_lookup in Hfalse.
    apply list_eq_same_length with (length x);
      [done | by rewrite length_map, Hvars, length_map, length_seq |].
    intros k y o Hk Hy Ho.
    rewrite list_lookup_fmap, Hvar in Hy by lia. inversion Hy; subst y.
    specialize (Hfalse k (Z3.Eq (Z.of_nat k) (m (Z.of_nat k)))).
    rewrite blocking_map, list_lookup_fmap, Hvar in Hfalse by lia.
    specialize (Hfalse eq_refl). simpl in Hfalse. apply Z.eqb_eq in Hfalse.
    by rewrite (model_of_lookup _ _ _ Ho) in Hfalse.
Qed.

(** X15. On a sketch without optimality property, with a solver that
    gives up on no option vector of the design space: when
    [SynthesizerCEGIS.run] finishes and reports no assignment, the model
    checker has refused every assignment of the design space whose options
    are positions below the sizes of their holes (the range that
    [z3_initialize] asserts). *)
Theorem cegis_none_all_refused
    (sketch : SynthesizerCEGIS.Sketch (Property:=Property) (Optimality:=Optimality))
    (fuel : nat) (st : SynthesizerCEGIS.state) :
  complete_on (candidates (holes (SynthesizerCEGIS.design_space sketch))) check ->
  SynthesizerCEGIS.optimality_property sketch = None ->
  SynthesizerCEGIS.run check build check_properties_all check_optimality
                       update_optimum sketch fuel = Some (Return st) ->
  SynthesizerCEGIS.satisfying_assignment st = None ->
  forall x, x ∈ candidates (holes (SynthesizerCEGIS.design_space sketch)) ->
    in_range (holes (SynthesizerCEGIS.design_space sketch)) x ->
    accepted (SynthesizerCEGIS.properties sketch)
             (assign (holes (SynthesizerCEGIS.design_space sketch)) x) = false.
Proof.
  intros Hcomplete Hopt Hrun Hnone. unfold SynthesizerCEGIS.run in Hrun.
  destruct (z3_encode _ (SynthesizerCEGIS.design_space sketch)) as [ds|e] eqn:Henc;
    [|discriminate].
  destruct (z3_encode_encoded _ _ _ Henc) as [Hds Hholes].
  destruct (pick_assignment check _ ds) as [assignment|e] eqn:Hpick; [|discriminate].
  rewrite <- Hholes in *.
  destruct (loop_no_result ds _ _ _ _ _ Hrun Hnone) as (Honly & Henc' & Hpick');
    try done.
  { simpl. split.
    - by rewrite z3_initialize_vars, Hholes.
    - intros e He. left. rewrite !z3_initialize_solver in *. simpl. by rewrite Hholes. }
  intros x Hx Hr. by eapply none_all_refused.
Qed.

End NoResult.

Definition st_S2 : SynthesizerCEGIS.state :=
  Eval vm_compute in
    match run_S2 4 with
    | Some (Return st) => st
    | _ => SynthesizerCEGIS.mkState (mkGlobals [] []) None None 0 0
    end.

Lemma cegis_none_all_refused_witness :
  CegisResultFacts.accepted (DTMC:=Holes.t) (fun a => a) violate_all [tt]
    (assign (holes (SynthesizerCEGIS.design_space sketch_S2)) [1; 0]%Z) = false.
Proof.
  apply (cegis_none_all_refused (DTMC:=Holes.t) (Value:=unit) check_S2 (fun a => a)
           violate_all (fun _ _ => (tt, false)) (fun o _ => o) sketch_S2 4 st_S2).
  - apply search_complete.
  - reflexivity.
  - vm_compute. reflexivity.
  - reflexivity.
  - apply candidates_elem. repeat constructor.
  - intros k o h Hk Hh.
    destruct k as [|[|k]]; simpl in Hk, Hh; inversion Hk; inversion Hh; subst;
      unfold Hole.size; simpl; lia.
Defined.

End CegisResultFacts.

(** ** StageControl: what a step does to the stage *)

Module StageStepFacts.
Import PrimFloat PyNum StageControl StageFacts.

Lemma rbind_Raise {A B} (m : result A) (k : A -> result B) e :
  (x ← m; k x) = Raise e <-> m = Raise e \/ exists a, m = Return a /\ k a = Raise e.
Proof.
  unfold mbind, result_bind, rbind. destruct m as [a|e']; split.
  - intros H. right. eauto.
  - intros [H|(a' & Ha & Hk)]; [discriminate | by inversion Ha].
  - intros [= ->]. by left.
  - intros [[= ->]|(a' & Ha & _)]; [done | discriminate].
Qed.

(** Arithmetic raises only when an [int] is too large for a float, and a
    division also when the divisor is zero. *)
Lemma as_float_Raise (x : num) e : as_float x = Raise e -> e = OverflowError.
Proof.
  destruct x as [z|f]; simpl; [|discriminate]. unfold float_of_int.
  destruct (SpecFloat.binary_normalize _ _ _ _ _); congruence.
Qed.

Lemma add_Raise (x y : num) e : add x y = Raise e -> e = OverflowError.
Proof.
  assert (Hf : forall (a b : num) (k : float -> float -> num),
            (a' ← as_float a; b' ← as_float b; Return (k a' b')) = Raise e ->
            e = OverflowError).
  { intros a b k H.
    apply rbind_Raise in H as [H|(a' & _ & H)]; [exact (as_float_Raise _ _ H)|].
    apply rbind_Raise in H as [H|(b' & _ & H)]; [exact (as_float_Raise _ _ H)|].
    discriminate. }
  destruct x as [a|a], y as [b|b]; cbn [add]; try discriminate;
    apply (Hf _ _ (fun a' b' => PyFloat (a' + b'))).
Qed.

Lemma truediv_Raise (x y : num) e :
  truediv x y = Raise e -> e = ZeroDivisionError \/ e = OverflowError.
Proof.
  assert (Hf : forall a b : num,
            (a' ← as_float a; b' ← as_float b;
             if (b' =? 0)%float then Raise ZeroDivisionError
             else Return (PyFloat (a' / b'))) = Raise e ->
            e = ZeroDivisionError \/ e = OverflowError).
  { intros a b H.
    apply rbind_Raise in H as [H|(a' & _ & H)]; [right; exact (as_float_Raise _ _ H)|].
    apply rbind_Raise in H as [H|(b' & _ & H)]; [right; exact (as_float_Raise _ _ H)|].
    destruct (b' =? 0)%float; [left; congruence | discriminate]. }
  destruct x as [a|a], y as [b|b]; cbn [truediv]; try apply Hf. intros H.
  apply rbind_Raise in H as [H|(q & _ & H)]; [|discriminate].
  unfold int_truediv in H. destruct (b =? 0)%Z; [left; congruence|].
  destruct (SpecFloat.SFdiv _ _ _ _); try discriminate. right. congruence.
Qed.

(** [f == 0] for a float [f] is the float comparison with 0.0. *)
Lemma eqb_float_zero (f : float) : PyNum.eqb (PyFloat f) (PyInt 0) = (f =? 0)%float.
Proof.
  unfold PyNum.eqb, compare, compare_float_int.
  rewrite FloatAxioms.eqb_spec.
  change (FloatOps.Prim2SF 0) with (SpecFloat.S754_zero false).
  destruct (FloatOps.Prim2SF f) as [s|s| |s m e]; try done; try (by destruct s).
  unfold SpecFloat.SFeqb, SpecFloat.SFcompare.
  assert (H : forall v : Z, v <> 0%Z ->
            match (match e with
                   | Z.neg k => (v ?= 0 * 2 ^ Z.pos k)%Z
                   | _ => (v * 2 ^ e ?= 0)%Z
                   end) with Eq => true | _ => false end = false).
  { intros v Hv. destruct e as [|k|k].
    - rewrite Z.pow_0_r, Z.mul_1_r. destruct (v ?= 0)%Z eqn:E; try done.
      by apply Z.compare_eq in E.
    - destruct (v * 2 ^ Z.pos k ?= 0)%Z eqn:E; try done.
      apply Z.compare_eq in E. apply Z.mul_eq_0 in E as [E|E]; [done|].
      pose proof (Z.pow_pos_nonneg 2 (Z.pos k)). lia.
    - rewrite Z.mul_0_l. destruct (v ?= 0)%Z eqn:E; try done.
      by apply Z.compare_eq in E. }
  destruct s; rewrite H; done.
Qed.

(** A division that returns had a divisor that is not zero. *)
Lemma truediv_Return_nonzero (x y r : num) :
  truediv x y = Return r -> PyNum.eqb y (PyInt 0) = false.
Proof.
  assert (Hf : forall a b' : result float,
            forall r, (a' ← a; b ← b'; if (b =? 0)%float then Raise ZeroDivisionError
                                       else Return (PyFloat (a' / b))) = Return r ->
            exists b, b' = Return b /\ (b =? 0)%float = false).
  { intros a b' r0 H. apply rbind_Return in H as (a' & _ & H).
    apply rbind_Return in H as (b & Hb & H). exists b. split; [done|].
    by destruct (b =? 0)%float. }
  assert (Hint : forall b fb, float_of_int b = Return fb -> (fb =? 0)%float = false ->
                   PyNum.eqb (PyInt b) (PyInt 0) = false).
  { intros b fb Hb Hz. unfold PyNum.eqb, compare.
    destruct (b ?= 0)%Z eqn:E; try done. apply Z.compare_eq in E. subst b.
    vm_compute in Hb. inversion Hb; subst fb. vm_compute in Hz. discriminate. }
  destruct x as [a|a], y as [b|b]; cbn [truediv]; intros H.
  - apply rbind_Return in H as (q & H & _). unfold int_truediv in H.
    unfold PyNum.eqb, compare. destruct (b =? 0)%Z eqn:E; [discriminate|].
    apply Z.eqb_neq in E. destruct (b ?= 0)%Z eqn:E'; try done.
    by apply Z.compare_eq in E'.
  - destruct (Hf _ _ _ H) as (b' & [= <-] & Hz). by rewrite eqb_float_zero.
  - destruct (Hf _ _ _ H) as (b' & Hb & Hz). by eapply Hint.
  - destruct (Hf _ _ _ H) as (b' & [= <-] & Hz). by rewrite eqb_float_zero.
Qed.

(** X16. With [stage_start] bound to [start]: whenever [step] returns,
    the flag it returns tells exactly whether the stage changed. A step
    in the AR stage always switches and allocates the time read times the
    current factor to CEGIS; a step that does not switch was taken in the
    CEGIS stage before the allocated time ran out, and it leaves the
    recorded times, the allocation and the factor as they were. *)
Theorem step_reports_switch (self self' : t) (p r1 r2 : num) (b : bool) :
  step (Some start) self p r1 r2 = Return (self', b) ->
  stage_cegar self' = xorb (stage_cegar self) b
  /\ models_total self' = models_total self
  /\ (stage_cegar self = true ->
      b = true
      /\ mul r2 (cegis_allocated_time_factor self) = Return (cegis_allocated_time self')
      /\ add (stage_time_cegar self) r2 = Return (stage_time_cegar self'))
  /\ (b = false ->
      stage_cegar self = false /\ ltb r1 (cegis_allocated_time self) = true
      /\ stage_time_cegar self' = stage_time_cegar self
      /\ stage_time_cegis self' = stage_time_cegis self
      /\ cegis_allocated_time self' = cegis_allocated_time self
      /\ cegis_allocated_time_factor self' = cegis_allocated_time_factor self).
Proof.
  destruct self as [tc pc ts ps fac sc alloc mt]. unfold step. step_fields.
  intros H.
  apply rbind_Return in H as (d_cegar & _ & H).
  apply rbind_Return in H as (pruned_cegar & _ & H). step_fields.
  apply rbind_Return in H as (d_cegis & _ & H).
  apply rbind_Return in H as (pruned_cegis & _ & H). step_fields.
  destruct sc; step_fields; cbn [negb andb] in H.
  - apply rbind_Return in H as (time_cegar & Htime & H).
    apply rbind_Return in H as (allocated & Halloc & H).
    inversion H; subst self' b. unfold start. step_fields.
    repeat split; done.
  - destruct (ltb r1 alloc) eqn:Hlt.
    + inversion H; subst self' b. step_fields. repeat split; done.
    + apply rbind_Return in H as (time_cegis & _ & H). step_fields.
      apply rbind_Return in H as (rate_cegar & _ & H).
      apply rbind_Return in H as (rate_cegis & _ & H).
      apply rbind_Return in H as (dominance & _ & H).
      apply rbind_Return in H as (factor & _ & H).
      inversion H; subst self' b. unfold start. step_fields.
      repeat split; done.
Qed.

(** The controller after an AR stage that pruned 100 of 1000 models in
    one second. *)
Definition after_ar : t :=
  Eval vm_compute in
    match step (Some start) (set_models_total init (PyInt 1000))
               (PyInt 100) (PyFloat 1) (PyFloat 1) with
    | Return (self', _) => self'
    | Raise _ => init
    end.

Lemma step_reports_switch_witness :
  stage_cegar after_ar = xorb (stage_cegar (set_models_total init (PyInt 1000))) true.
Proof.
  apply (step_reports_switch (set_models_total init (PyInt 1000)) after_ar
           (PyInt 100) (PyFloat 1) (PyFloat 1) true).
  vm_compute. reflexivity.
Defined.

(** X17. A step that ends a CEGIS stage (the allocated time has run out)
    needs no binding of [stage_start], and it raises only
    [ZeroDivisionError] or [OverflowError]. When it returns, it has
    switched back to AR, neither recorded time is zero, and the new
    factor is the float 1.0 when one of the two methods has pruned
    nothing; when both have pruned, neither the CEGIS success rate nor
    the AR dominance is zero, and the factor is 1 divided by the AR
    dominance, each quotient being Python's. *)
Theorem cegis_stage_end (f : option (t -> bool -> t)) (self : t) (N p r1 r2 : num) :
  stage_cegar self = false -> models_total self = Some N ->
  ltb r1 (cegis_allocated_time self) = false ->
  match step f self p r1 r2 with
  | Return (self', b) =>
      b = true /\ stage_cegar self' = true
      /\ PyNum.eqb (stage_time_cegar self') (PyInt 0) = false
      /\ PyNum.eqb (stage_time_cegis self') (PyInt 0) = false
      /\ stage_time_cegar self' = stage_time_cegar self
      /\ add (stage_time_cegis self) r2 = Return (stage_time_cegis self')
      /\ (PyNum.eqb (stage_pruned_cegar self') (PyInt 0)
          || PyNum.eqb (stage_pruned_cegis self') (PyInt 0) = true ->
          cegis_allocated_time_factor self' = PyFloat 1)
      /\ (PyNum.eqb (stage_pruned_cegar self') (PyInt 0)
          || PyNum.eqb (stage_pruned_cegis self') (PyInt 0) = false ->
          exists rate_cegar rate_cegis dominance,
            truediv (stage_pruned_cegar self') (stage_time_cegar self') = Return rate_cegar
            /\ truediv (stage_pruned_cegis self') (stage_time_cegis self')
               = Return rate_cegis
            /\ truediv rate_cegar rate_cegis = Return dominance
            /\ PyNum.eqb rate_cegis (PyInt 0) = false
            /\ PyNum.eqb dominance (PyInt 0) = false
            /\ truediv (PyInt 1) dominance = Return (cegis_allocated_time_factor self'))
  | Raise e => e = ZeroDivisionError \/ e = OverflowError
  end.
Proof.
  destruct self as [tc pc ts ps fac sc alloc mt]. step_fields.
  intros -> -> Hlt. unfold step. step_fields.
  unfold mbind, result_bind, rbind.
  destruct (add pc (PyInt 0)) as [pc'|e] eqn:Hpc; [|right; by eapply add_Raise].
  step_fields.
  destruct (truediv p N) as [d|e] eqn:Hd; [|by eapply truediv_Raise].
  destruct (add ps d) as [ps'|e] eqn:Hps; [|right; by eapply add_Raise].
  step_fields. rewrite Hlt. cbn [andb].
  destruct (add ts r2) as [ts'|e] eqn:Hts; [|right; by eapply add_Raise].
  step_fields.
  destruct (truediv pc' tc) as [rate_cegar|e] eqn:Hrc; [|by eapply truediv_Raise].
  destruct (truediv ps' ts') as [rate_cegis|e] eqn:Hrs; [|by eapply truediv_Raise].
  destruct (PyNum.eqb pc' (PyInt 0) || PyNum.eqb ps' (PyInt 0)) eqn:Hzero.
  - change (truediv (PyInt 1) (PyInt 1)) with (Return (PyFloat 1)).
    unfold start. step_fields. rewrite Hzero.
    repeat split; try done.
    + by eapply truediv_Return_nonzero.
    + by eapply truediv_Return_nonzero.
  - destruct (truediv rate_cegar rate_cegis) as [dominance|e] eqn:Hdom;
      [|by eapply truediv_Raise].
    destruct (truediv (PyInt 1) dominance) as [factor|e] eqn:Hfac;
      [|by eapply truediv_Raise].
    unfold start. step_fields. rewrite Hzero.
    repeat split; try done.
    + by eapply truediv_Return_nonzero.
    + by eapply truediv_Return_nonzero.
    + intros _. exists rate_cegar, rate_cegis, dominance.
      repeat split; try done; by eapply truediv_Return_nonzero.
Qed.

Lemma cegis_stage_end_witness :
  match step (Some start)
             (mk (PyFloat 1) (PyFloat tenth) (PyInt 0) (PyInt 0) (PyFloat 1) false
                 (PyFloat 1) (Some (PyInt 1000)))
             (PyInt 10) (PyFloat 1) (PyFloat 1) with
  | Return (self', b) =>
      b = true /\ stage_cegar self' = true
      /\ PyNum.eqb (stage_time_cegar self') (PyInt 0) = false
      /\ PyNum.eqb (stage_time_cegis self') (PyInt 0) = false
      /\ stage_time_cegar self' = PyFloat 1
      /\ add (PyInt 0) (PyFloat 1) = Return (stage_time_cegis self')
      /\ (PyNum.eqb (stage_pruned_cegar self') (PyInt 0)
          || PyNum.eqb (stage_pruned_cegis self') (PyInt 0) = true ->
          cegis_allocated_time_factor self' = PyFloat 1)
      /\ (PyNum.eqb (stage_pruned_cegar self') (PyInt 0)
          || PyNum.eqb (stage_pruned_cegis self') (PyInt 0) = false ->
          exists rate_cegar rate_cegis dominance,
            truediv (stage_pruned_cegar self') (stage_time_cegar self') = Return rate_cegar
            /\ truediv (stage_pruned_cegis self') (stage_time_cegis self')
               = Return rate_cegis
            /\ truediv rate_cegar rate_cegis = Return dominance
            /\ PyNum.eqb rate_cegis (PyInt 0) = false
            /\ PyNum.eqb dominance (PyInt 0) = false
            /\ truediv (PyInt 1) dominance = Return (cegis_allocated_time_factor self'))
  | Raise e => e = ZeroDivisionError \/ e = OverflowError
  end.
Proof.
  apply (cegis_stage_end (Some start)
           (mk (PyFloat 1) (PyFloat tenth) (PyInt 0) (PyInt 0) (PyFloat 1) false
               (PyFloat 1) (Some (PyInt 1000)))
           (PyInt 1000) (PyInt 10) (PyFloat 1) (PyFloat 1)); reflexivity.
Defined.

(** An AR stage on which the timer read 0 makes the end of the next
    CEGIS stage fail. *)
Example zero_ar_time_raises :
  step (Some start)
       (mk (PyInt 0) (PyFloat tenth) (PyInt 0) (PyInt 0) (PyFloat 1) false (PyInt 0)
           (Some (PyInt 1000)))
       (PyInt 10) (PyFloat 1) (PyFloat 1)
  = Raise ZeroDivisionError.
Proof. vm_compute. reflexivity. Qed.

(** So does a CEGIS success rate that underflows: the smallest positive
    float pruned in 10 seconds gives the rate 0.0, although both methods
    have pruned and no recorded time is zero. *)
Example zero_rate_raises :
  step (Some start)
       (mk (PyFloat 1) (PyFloat tenth) (PyInt 0) (PyFloat 0x0.0000000000001p-1022)
           (PyFloat 1) false (PyFloat 1) (Some (PyInt 1000)))
       (PyInt 0) (PyFloat 10) (PyFloat 10)
  = Raise ZeroDivisionError.
Proof. vm_compute. reflexivity. Qed.

End StageStepFacts.

(** ** SimulatedModel: sampled paths and the model's transitions *)

Module SimulationPathFacts.
Import SimulatedModel.

(** The matrix lists [s'] in row [a] of the row group of [s]. *)
Definition transition (model : Model) (s a s' : nat) : Prop :=
  exists rows row, transition_matrix model !! s = Some rows
    /\ rows !! a = Some row /\ s' ∈ map fst row.

(** A path of the model from [s]: each pair holds the state reached and
    one of its actions, and the next state is a successor under that
    action. *)
Fixpoint follows (model : Model) (s : nat) (path : list (nat * nat)) : Prop :=
  match path with
  | [] => True
  | (s0, a) :: rest =>
      s0 = s
      /\ (exists rows, transition_matrix model !! s = Some rows /\ a < length rows)
      /\ match rest with
         | [] => True
         | (s1, _) :: _ => transition model s a s1 /\ follows model s1 rest
         end
  end.

Lemma init_tables (model : Model) (self : t) :
  init model = Return self ->
  SimulatedModel.model self = model
  /\ state_row_group self
     = map (fun rows => map (fun row => (map fst row, map snd row)) rows)
           (transition_matrix model)
  /\ state_is_absorbing self
     = imap (fun state rows =>
               forallb (fun row => forallb (fun entry => Nat.eqb (fst entry) state) row) rows)
            (transition_matrix model).
Proof.
  unfold init. intros H. apply rbind_Return in H as (c & _ & H). by inversion H.
Qed.

Lemma sample_action_range (model : Model) (self : t) s d a :
  init model = Return self -> sample_action self s d = Return a ->
  exists rows, transition_matrix model !! s = Some rows /\ a < length rows.
Proof.
  intros Hinit H. destruct (init_tables _ _ Hinit) as (Hm & _ & _).
  unfold sample_action, get_nr_available_actions in H. rewrite Hm in H.
  apply rbind_Return in H as (n & Hn & H).
  apply rbind_Return in Hn as (rows & Hrows & [= <-]).
  apply at_index_Return in Hrows. exists rows. split; [done|].
  case_decide as Hz; [discriminate|]. inversion H; subst a.
  by apply Nat.mod_upper_bound.
Qed.

Lemma sample_successor_listed (model : Model) (self : t) s a d s' :
  init model = Return self -> sample_successor self s a d = Return s' ->
  transition model s a s'.
Proof.
  intros Hinit H. destruct (init_tables _ _ Hinit) as (_ & Hg & _).
  unfold sample_successor in H. rewrite Hg in H.
  apply rbind_Return in H as (group & Hgroup & H).
  apply rbind_Return in H as ([succs probs] & Hrow & H).
  apply at_index_Return in Hgroup. apply at_index_Return in Hrow.
  rewrite list_lookup_fmap in Hgroup.
  destruct (transition_matrix model !! s) as [rows|] eqn:Erows; [|discriminate].
  inversion Hgroup; subst group. rewrite list_lookup_fmap in Hrow.
  destruct (rows !! a) as [row|] eqn:Erow; [|discriminate].
  inversion Hrow; subst succs probs.
  case_decide; [discriminate|].
  destruct (Qle_bool _ 0); [discriminate|].
  apply at_index_Return in H. exists rows, row. repeat split; try done.
  by eapply list_elem_of_lookup_2.
Qed.

Lemma sample_path_loop_follows (model : Model) (self : t) tape n :
  init model = Return self ->
  forall k state path res,
    sample_path_loop self tape n k state path = Return res ->
    exists ext, res = path ++ ext /\ follows model state ext.
Proof.
  intros Hinit. induction n as [|n IH]; intros k state path res H; simpl in H.
  - inversion H; subst. exists []. by rewrite app_nil_r.
  - apply rbind_Return in H as (absorbing & _ & H). destruct absorbing.
    + inversion H; subst. exists []. by rewrite app_nil_r.
    + apply rbind_Return in H as (action & Ha & H).
      apply rbind_Return in H as (state' & Hs & H).
      destruct (IH _ _ _ _ H) as (ext & -> & Hext).
      exists ((state, action) :: ext). rewrite <- app_assoc. split; [done|].
      cbn [follows]. split; [done|]. split; [by eapply sample_action_range|].
      destruct ext as [|[s1 a1] ext]; [done|].
      pose proof Hext as [Hs1 _]. subst s1.
      split; [by eapply sample_successor_listed | exact Hext].
Qed.

(** X18. For a simulated model built by [__init__] and any draws, a path
    returned by [sample_path(s, L)] is a path of the model from [s]: its
    first pair, if any, is at [s]; the action of every pair is one of the
    available actions of the pair's state; and the state of the next pair
    is listed in the matrix row of that state and action. *)
Theorem sample_path_follows_transitions (model : Model) (self : t)
    (tape : nat -> nat) (s : nat) (L : Z) (path : list (nat * nat)) :
  init model = Return self ->
  sample_path self tape s L = Return path ->
  follows model s path.
Proof.
  intros Hinit H. unfold sample_path in H.
  destruct (sample_path_loop_follows _ _ _ _ Hinit _ _ _ _ H) as (ext & -> & Hext).
  done.
Qed.

Lemma sample_path_follows_transitions_witness :
  follows SimulationFacts.model_ex 0 [(0, 0); (1, 0); (1, 0)]%nat.
Proof.
  apply (sample_path_follows_transitions SimulationFacts.model_ex SimulationFacts.self_ex
           (fun _ => 0%nat) 0%nat 3%Z); reflexivity.
Defined.

(** The objects a simulation can be in: the one [__init__] builds, and
    those that calls of [simulate_action] and [reset_simulation] lead
    to. *)
Inductive reached (model : Model) : t -> Prop :=
  | reached_init self : init model = Return self -> reached model self
  | reached_simulate self action draw self' :
      reached model self -> simulate_action self action draw = Return self' ->
      reached model self'
  | reached_reset self self' :
      reached model self -> reset_simulation self = Return self' ->
      reached model self'.

(** The calls only move the current state: the tables stay those of
    [__init__]. *)
Lemma reached_tables (model : Model) (self : t) :
  reached model self ->
  exists self0, init model = Return self0
    /\ state_row_group self = state_row_group self0
    /\ state_is_absorbing self = state_is_absorbing self0.
Proof.
  induction 1 as [self Hinit|self action draw self' _ IH H|self self' _ IH H].
  - by exists self.
  - destruct IH as (self0 & Hinit & Hg & Ha). exists self0.
    unfold simulate_action in H. apply rbind_Return in H as (s' & _ & [= <-]). done.
  - destruct IH as (self0 & Hinit & Hg & Ha). exists self0.
    unfold reset_simulation in H. apply rbind_Return in H as (s' & _ & [= <-]). done.
Qed.

(** X19. In a simulation, however far it has run, a state flagged as
    absorbing is never left: whatever action and draw, a successor that
    [sample_successor] returns for it is the state itself, so
    [simulate_action] keeps the current state, which is still flagged
    absorbing afterwards. *)
Theorem absorbing_state_stays (model : Model) (self self' : t) (action draw : nat) :
  reached model self ->
  state_is_absorbing self !! current_state self = Some true ->
  simulate_action self action draw = Return self' ->
  current_state self' = current_state self
  /\ state_is_absorbing self' !! current_state self' = Some true.
Proof.
  intros Hreached Habs H.
  destruct (reached_tables _ _ Hreached) as (self0 & Hinit & Hg & Ha).
  unfold simulate_action in H.
  apply rbind_Return in H as (s' & Hs & [= <-]). cbn [current_state state_is_absorbing].
  assert (Hs0 : sample_successor self0 (current_state self) action draw = Return s').
  { unfold sample_successor in *. by rewrite <- Hg. }
  destruct (sample_successor_listed _ _ _ _ _ _ Hinit Hs0)
    as (rows & row & Hrows & Hrow & Hin).
  assert (s' = current_state self) as ->; [|done].
  rewrite Ha, (SimulationFacts.init_absorbing _ _ _ Hinit), Hrows in Habs.
  simpl in Habs. inversion Habs as [Hall]. rewrite forallb_forall in Hall.
  specialize (Hall row (proj1 (list_elem_of_In _ _) (list_elem_of_lookup_2 _ _ _ Hrow))).
  rewrite forallb_forall in Hall.
  apply list_elem_of_fmap in Hin as (entry & -> & Hentry).
  specialize (Hall entry (proj1 (list_elem_of_In _ _) Hentry)).
  by apply Nat.eqb_eq in Hall.
Qed.

(** The example chain after one simulated action, which leads from its
    initial state 0 to state 1, and after a second one, which leads to
    the absorbing state 2. *)
Definition self_at_1 : t :=
  Eval cbv in
    match simulate_action SimulationFacts.self_ex 0 0 with
    | Return s => s
    | Raise _ => SimulationFacts.self_ex
    end.

Definition self_at_2 : t :=
  Eval cbv in
    match simulate_action self_at_1 1 0 with
    | Return s => s
    | Raise _ => SimulationFacts.self_ex
    end.

Lemma absorbing_state_stays_witness :
  current_state self_at_2 = 2
  /\ current_state self_at_2 = current_state self_at_2
  /\ state_is_absorbing self_at_2 !! current_state self_at_2 = Some true.
Proof.
  split; [reflexivity|].
  apply (absorbing_state_stays SimulationFacts.model_ex self_at_2 self_at_2 0 5).
  - apply (reached_simulate _ self_at_1 1 0); [|reflexivity].
    apply (reached_simulate _ SimulationFacts.self_ex 0 0); [|reflexivity].
    apply reached_init. reflexivity.
  - reflexivity.
  - reflexivity.
Defined.


End SimulationPathFacts.

(** ** StormPOMDPControl: the result dictionaries *)

Module ResultDictFacts.
Import StormPOMDPControl.

Lemma append_missing_cons (l : list Z) a l' :
  append_missing l (a :: l')
  = append_missing (if negb (py_in a l) then l ++ [a] else l) l'.
Proof. reflexivity. Qed.

Lemma append_missing_prefix (l' : list Z) : forall l, l `prefix_of` append_missing l l'.
Proof.
  induction l' as [|a l' IH]; intros l; [done|].
  rewrite append_missing_cons. etrans; [|apply IH].
  destruct (negb (py_in a l)); [by apply prefix_app_r | done].
Qed.

Lemma append_missing_elem (l' : list Z) :
  forall l x, x ∈ append_missing l l' <-> x ∈ l \/ x ∈ l'.
Proof.
  induction l' as [|a l' IH]; intros l x.
  - simpl. split; [by left|]. intros [?|H]; [done | by apply elem_of_nil in H].
  - rewrite append_missing_cons, IH, elem_of_cons. unfold py_in.
    destruct (bool_decide (a ∈ l)) eqn:E; cbn [negb].
    + apply bool_decide_eq_true_1 in E. split; [tauto|].
      intros [?|[->|?]]; tauto.
    + rewrite elem_of_app, list_elem_of_singleton. tauto.
Qed.

Lemma append_missing_NoDup (l' : list Z) :
  forall l, NoDup l -> NoDup (append_missing l l').
Proof.
  induction l' as [|a l' IH]; intros l Hnd; [done|].
  rewrite append_missing_cons. apply IH. unfold py_in.
  destruct (bool_decide (a ∈ l)) eqn:E; cbn [negb]; [done|].
  apply bool_decide_eq_false_1 in E. apply NoDup_app. split; [done|]. split.
  - intros x Hx Hx'. apply list_elem_of_singleton in Hx'. by subst.
  - apply NoDup_singleton.
Qed.

(** Nothing is appended to a list that has all the actions. *)
Lemma append_missing_absorb (l' : list Z) :
  forall l, (forall x, x ∈ l' -> x ∈ l) -> append_missing l l' = l.
Proof.
  induction l' as [|a l' IH]; intros l H; [done|].
  rewrite append_missing_cons. unfold py_in.
  rewrite bool_decide_eq_true_2 by (apply H, elem_of_cons; by left).
  cbn [negb]. apply IH. intros x Hx. apply H, elem_of_cons. by right.
Qed.

(** The entry of one observation after the join. *)
Definition joined (o p : option (list Z)) : option (list Z) :=
  match o, p with
  | Some l, Some l' => Some (append_missing l l')
  | Some l, None => Some l
  | None, p => p
  end.

Lemma join_results_lookup (n : nat) (d p : gmap nat (list Z)) (obs : nat) :
  join_results n d p !! obs
  = if decide (obs < n) then joined (d !! obs) (p !! obs) else d !! obs.
Proof.
  unfold join_results.
  enough (Hgen : forall a (d0 : gmap nat (list Z)),
    foldl (fun (result_dict : gmap nat (list Z)) obs =>
             match result_dict !! obs with
             | Some actions =>
                 match p !! obs with
                 | Some paynt_actions =>
                     <[obs := append_missing actions paynt_actions]> result_dict
                 | None => result_dict
                 end
             | None =>
                 match p !! obs with
                 | Some paynt_actions => <[obs := paynt_actions]> result_dict
                 | None => result_dict
                 end
             end) d0 (seq a n) !! obs
    = if decide (a <= obs < a + n) then joined (d0 !! obs) (p !! obs) else d0 !! obs).
  { rewrite Hgen. destruct (decide (obs < n)).
    - rewrite decide_True by lia. done.
    - rewrite decide_False by lia. done. }
  induction n as [|n IH]; intros a d0.
  - simpl. rewrite decide_False by lia. done.
  - cbn [seq foldl]. rewrite IH.
    set (d1 := match d0 !! a with
               | Some actions =>
                   match p !! a with
                   | Some paynt_actions => <[a := append_missing actions paynt_actions]> d0
                   | None => d0
                   end
               | None =>
                   match p !! a with
                   | Some paynt_actions => <[a := paynt_actions]> d0
                   | None => d0
                   end
               end).
    assert (Hd1 : forall j, d1 !! j = if decide (j = a) then joined (d0 !! a) (p !! a)
                                      else d0 !! j).
    { intros j. unfold d1, joined. destruct (decide (j = a)) as [->|Hne].
      - destruct (d0 !! a) eqn:E1, (p !! a) eqn:E2; rewrite ?lookup_insert_eq; done.
      - destruct (d0 !! a), (p !! a); rewrite ?lookup_insert_ne by done; done. }
    rewrite Hd1. destruct (decide (obs = a)) as [->|Hne].
    + rewrite decide_False by lia. rewrite decide_True by lia. done.
    + destruct (decide (S a <= obs < S a + n)).
      * rewrite decide_True by lia. done.
      * rewrite decide_False by lia. done.
Qed.

(** X22. After [join_results], for every observation below
    [quotient.observations]: an entry that only [result_dict_paynt] had is
    taken over; an entry of [result_dict] keeps its actions in their
    order and gets the actions of the [result_dict_paynt] entry that it
    did not list, each once, so it lists exactly the actions of either
    entry and stays duplicate-free. Entries of other observations are
    left alone, and a second call changes nothing. *)
Theorem join_results_union (n : nat) (d p : gmap nat (list Z)) (obs : nat) :
  (n <= obs -> join_results n d p !! obs = d !! obs)
  /\ (obs < n ->
      match d !! obs, p !! obs with
      | Some l, Some l' =>
          exists l'', join_results n d p !! obs = Some l''
            /\ l `prefix_of` l''
            /\ (forall a, a ∈ l'' <-> a ∈ l \/ a ∈ l')
            /\ (NoDup l -> NoDup l'')
      | Some l, None => join_results n d p !! obs = Some l
      | None, o => join_results n d p !! obs = o
      end)
  /\ join_results n (join_results n d p) p = join_results n d p.
Proof.
  split; [|split].
  - intros H. rewrite join_results_lookup, decide_False by lia. done.
  - intros H. rewrite join_results_lookup, decide_True by done.
    destruct (d !! obs) as [l|], (p !! obs) as [l'|]; simpl; try done.
    exists (append_missing l l'). split; [done|]. split; [apply append_missing_prefix|].
    split; [apply append_missing_elem | apply append_missing_NoDup].
  - apply map_eq. intros k. rewrite !join_results_lookup.
    case_decide; [|done].
    destruct (d !! k) as [l|], (p !! k) as [l'|]; simpl; try done.
    + f_equal. apply append_missing_absorb. intros x Hx.
      apply append_missing_elem. by right.
    + f_equal. by apply append_missing_absorb.
Qed.

(** The hole is an action hole whose name gives the observation label at
    position [k] of the labels. *)
Definition names_observation (observation_labels : list string) (hole : Hole.t)
    (k : nat) : Prop :=
  startswith (Hole.name hole) "M"%char = false
  /\ index observation_labels (split_first (strip (Hole.name hole) "A()") ","%char)
     = Return k.

Lemma parse_loop (observation_labels : list string) (holes : Holes.t) :
  forall (r r' : gmap nat (list Z)),
    rfold (fun (result : gmap nat (list Z)) hole =>
             if startswith (Hole.name hole) "M"%char then Return result
             else
               let name := strip (Hole.name hole) "A()" in
               let obs := split_first name ","%char in
               observation ← index observation_labels obs;
               option ← py_get (Hole.options hole) 0;
               match result !! observation with
               | None => Raise KeyError
               | Some actions =>
                   if negb (py_in option actions)
                   then Return (<[observation := actions ++ [option]]> result)
                   else Return result
               end) r holes = Return r' ->
    forall k,
      match r !! k with
      | None => r' !! k = None
      | Some l =>
          exists l', r' !! k = Some l'
            /\ (NoDup l -> NoDup l')
            /\ forall o, o ∈ l' <->
                 o ∈ l \/ exists hole, hole ∈ holes
                            /\ names_observation observation_labels hole k
                            /\ head (Hole.options hole) = Some o
      end.
Proof.
  induction holes as [|hole holes IH]; intros r r' H k.
  - inversion H; subst. destruct (r' !! k) as [l|]; [|done].
    exists l. split; [done|]. split; [done|]. intros o. split; [by left|].
    intros [?|(h & Hh & _)]; [done | by apply elem_of_nil in Hh].
  - cbn [rfold] in H. apply rbind_Return in H as (r1 & H1 & H).
    specialize (IH _ _ H k). clear H.
    destruct (startswith (Hole.name hole) "M"%char) eqn:EM.
    { inversion H1; subst r1. destruct (r !! k) as [l|]; [|done].
      destruct IH as (l' & Hl' & Hnd & Hel). exists l'. split; [done|]. split; [done|].
      intros o. rewrite Hel. split.
      - intros [?|(h & Hh & Hrest)]; [by left|]. right. exists h.
        split; [apply elem_of_cons; by right | done].
      - intros [?|(h & Hh & Hn & Hhd)]; [by left|].
        apply elem_of_cons in Hh as [->|Hh]; [|right; eauto].
        destruct Hn as [Hn _]. congruence. }
    cbv zeta in H1. apply rbind_Return in H1 as (observation & Hobs & H1).
    apply rbind_Return in H1 as (option & Hopt & H1).
    assert (Hhd : head (Hole.options hole) = Some option).
    { change 0%Z with (Z.of_nat 0) in Hopt. rewrite py_get_of_nat in Hopt.
      destruct (Hole.options hole); [discriminate | by inversion Hopt]. }
    assert (Hname : names_observation observation_labels hole observation) by done.
    destruct (r !! observation) as [actions|] eqn:Eact; [|discriminate].
    assert (Hr1 : forall j, r1 !! j
              = if decide (j = observation)
                then Some (if negb (py_in option actions) then actions ++ [option]
                           else actions)
                else r !! j).
    { intros j. destruct (negb (py_in option actions)); inversion H1; subst r1.
      - destruct (decide (j = observation)) as [->|Hne].
        + by rewrite lookup_insert_eq.
        + by rewrite lookup_insert_ne.
      - destruct (decide (j = observation)) as [->|Hne]; done. }
    rewrite Hr1 in IH. destruct (decide (k = observation)) as [->|Hne].
    + rewrite Eact. destruct IH as (l' & Hl' & Hnd & Hel).
      exists l'. split; [done|]. split.
      * intros Hnda. apply Hnd. unfold py_in.
        destruct (bool_decide (option ∈ actions)) eqn:E; cbn [negb]; [done|].
        apply bool_decide_eq_false_1 in E. apply NoDup_app. split; [done|]. split.
        -- intros x Hx Hx'. apply list_elem_of_singleton in Hx'. by subst.
        -- apply NoDup_singleton.
      * intros o. rewrite Hel. unfold py_in.
        assert (Hin : o ∈ (if negb (bool_decide (option ∈ actions))
                           then actions ++ [option] else actions)
                      <-> o ∈ actions \/ o = option).
        { destruct (bool_decide (option ∈ actions)) eqn:E; cbn [negb].
          - apply bool_decide_eq_true_1 in E. split; [by left|].
            intros [?| ->]; done.
          - by rewrite elem_of_app, list_elem_of_singleton. }
        rewrite Hin. split.
        -- intros [[?| ->]|(h & Hh & Hrest)]; [by left | |].
           ++ right. exists hole. split; [apply elem_of_cons; by left | done].
           ++ right. exists h. split; [apply elem_of_cons; by right | done].
        -- intros [?|(h & Hh & Hn & Hhd')]; [by left; left|].
           apply elem_of_cons in Hh as [->|Hh]; [|right; eauto].
           left. right. congruence.
    + destruct (r !! k) as [l|]; [|done].
      destruct IH as (l' & Hl' & Hnd & Hel). exists l'. split; [done|]. split; [done|].
      intros o. rewrite Hel. split.
      * intros [?|(h & Hh & Hrest)]; [by left|]. right. exists h.
        split; [apply elem_of_cons; by right | done].
      * intros [?|(h & Hh & Hn & Hhd')]; [by left|].
        apply elem_of_cons in Hh as [->|Hh]; [|right; eauto].
        exfalso. destruct Hn as [_ Hn], Hname as [_ Hn']. congruence.
Qed.

(** X23. In the dictionary that a returning [parse_paynt_result] stores,
    every key is an observation below [quotient.observations], and its
    list is non-empty, duplicate-free and holds exactly the first options
    of the holes of the latest result that are not memory holes (their
    name does not start with [M]) and whose name gives the label of that
    observation. *)
Theorem parse_paynt_result_entries (observation_labels : list string)
    (observations : nat) (holes : Holes.t) (d : gmap nat (list Z)) :
  parse_paynt_result observation_labels observations (Some holes) = Return d ->
  forall k l, d !! k = Some l ->
    k < observations /\ l <> [] /\ NoDup l
    /\ forall o, o ∈ l <->
         exists hole, hole ∈ holes /\ names_observation observation_labels hole k
                      /\ head (Hole.options hole) = Some o.
Proof.
  unfold parse_paynt_result. intros H k l Hk.
  apply rbind_Return in H as (r' & Hfold & [= <-]).
  apply map_lookup_filter_Some in Hk as [Hk Hne]. simpl in Hne.
  pose proof (parse_loop _ _ _ _ Hfold k) as Hspec.
  destruct (list_to_map (map (fun x => (x, [])) (seq 0 observations))
              !! k) as [l0|] eqn:E0; [|congruence].
  apply elem_of_list_to_map_2 in E0.
  apply list_elem_of_fmap in E0 as (x & [= Hxk Hl0] & Hx). subst x l0.
  apply list_elem_of_In, in_seq in Hx.
  destruct Hspec as (l' & Hl' & Hnd & Hel). rewrite Hk in Hl'. inversion Hl'; subst l'.
  split; [lia|]. split; [done|]. split; [apply Hnd; constructor|].
  intros o. rewrite Hel. split.
  - intros [Hin|?]; [by apply elem_of_nil in Hin | done].
  - by right.
Qed.

Definition holes_paynt : Holes.t :=
  [Hole.mk "A(o0,0)" [1]%Z ["a"; "b"]; Hole.mk "M(o0,0)" [0]%Z ["m"];
   Hole.mk "A(o1,0)" [0]%Z ["a"; "b"]; Hole.mk "A(o0,1)" [1]%Z ["a"; "b"]].

Lemma parse_paynt_result_entries_witness :
  0 < 3 /\ [1%Z] <> [] /\ NoDup [1%Z]
  /\ forall o, o ∈ [1%Z] <->
       exists hole, hole ∈ holes_paynt /\ names_observation ["o0"; "o1"; "o2"] hole 0
                    /\ head (Hole.options hole) = Some o.
Proof.
  apply (parse_paynt_result_entries ["o0"; "o1"; "o2"] 3 holes_paynt
           {[0%nat := [1%Z]; 1%nat := [0%Z]]}).
  - vm_compute. reflexivity.
  - reflexivity.
Defined.

End ResultDictFacts.

(** ** StormPOMDPControl: the records appended to a subfamily description *)

Module SubfamilyCompletionFacts.
Import StormPOMDPControl EnumerateFacts SubfamilyFacts.

(** A loop whose body appends a list that depends on the element alone
    appends these lists in order. *)
Lemma rfold_flat_map {A S} (body : list S -> A -> result (list S)) (g : A -> list S)
    (l : list A) :
  (forall s x s', x ∈ l -> body s x = Return s' -> s' = s ++ g x) ->
  forall s s', rfold body s l = Return s' -> s' = s ++ flat_map g l.
Proof.
  induction l as [|x l IH]; intros Hbody s s' H; simpl in H.
  - inversion H; subst. simpl. by rewrite app_nil_r.
  - apply rbind_Return in H as (s1 & H1 & H).
    rewrite (Hbody _ _ _ (list_elem_of_here _ _) H1) in H.
    rewrite (IH (fun s0 y s0' Hy => Hbody s0 y s0' (list_elem_of_further _ _ _ Hy)) _ _ H).
    simpl. by rewrite app_assoc.
Qed.

Lemma flat_map_ext_elem {A B} (f g : A -> list B) (l : list A) :
  (forall x, In x l -> f x = g x) -> flat_map f l = flat_map g l.
Proof.
  induction l as [|x l IH]; intros H; [done|]. simpl.
  rewrite (H x) by (by left). rewrite IH; [done|]. intros y Hy. apply H. by right.
Qed.

Lemma flat_map_filter (P : Z -> Prop) `{forall x, Decision (P x)} (l : list Z) :
  flat_map (fun a => if bool_decide (P a) then [a] else []) l = filter P l.
Proof.
  induction l as [|a l IH]; [done|]. simpl. rewrite IH, filter_cons.
  destruct (decide (P a)).
  - by rewrite bool_decide_eq_true_2.
  - by rewrite bool_decide_eq_false_2.
Qed.

(** The restriction recorded for an action hole that the description
    does not mention yet: the actions below [num_actions] that are
    options of the hole in the family, in increasing order. *)
Definition allowed (F : Holes.t) (hl : nat) (num_actions : Z) : list Z :=
  match F !! hl with
  | Some h => filter (fun a => a ∈ Hole.options h) (py_range num_actions)
  | None => []
  end.

(** The records that the second loop of [get_subfamilies] appends to a
    description that mentions the holes [holes]: one per action hole of
    every observation, with an empty restriction for a hole already
    mentioned. *)
Definition completion (q : Quotient) (F : Holes.t) (holes : list nat)
  : list Restriction :=
  flat_map (fun obs =>
              match actions_at_observation q !! obs,
                    observation_action_holes q !! obs with
              | Some num_actions, Some act_obs_holes =>
                  map (fun hl => mkRestriction hl
                                   (if decide (hl ∈ holes) then []
                                    else allowed F hl num_actions))
                      act_obs_holes
              | _, _ => []
              end)
           (seq 0 (observations q)).

Lemma restriction_loop (F : Holes.t) (hl : nat) (num_actions : Z) (res : list Z) :
  rfold (fun restriction action =>
           h ← at_index F hl;
           if py_in action (Hole.options h)
           then Return (restriction ++ [action])
           else Return restriction)
        [] (py_range num_actions) = Return res ->
  res = allowed F hl num_actions.
Proof.
  intros H. unfold allowed. destruct (F !! hl) as [h|] eqn:Eh.
  - rewrite <- flat_map_filter.
    apply (rfold_flat_map _ (fun a => if bool_decide (a ∈ Hole.options h) then [a] else []))
      in H; [done|].
    intros s a s' _ Hb. unfold at_index in Hb. rewrite Eh in Hb. simpl in Hb.
    unfold py_in in Hb. destruct (bool_decide (a ∈ Hole.options h)).
    + by inversion Hb.
    + inversion Hb. by rewrite app_nil_r.
  - destruct (py_range num_actions) as [|a l]; [by inversion H|].
    simpl in H. unfold at_index in H. by rewrite Eh in H.
Qed.

Lemma seq_lookup_index n index : index ∈ seq 0 n -> seq 0 n !! index = Some index.
Proof.
  intros H. apply list_elem_of_In, in_seq in H. apply lookup_seq. lia.
Qed.

Lemma completion_loop (q : Quotient) (F : Holes.t) (holes : list nat)
    (d0 d : list Restriction) :
  rfold (fun subfamily obs =>
           num_actions ← at_index (actions_at_observation q) obs;
           act_obs_holes ← at_index (observation_action_holes q) obs;
           rfold (fun subfamily index =>
                    hole ← at_index act_obs_holes index;
                    restriction ←
                      (if decide (hole ∉ holes) then
                         rfold (fun restriction action =>
                                  h ← at_index F hole;
                                  if py_in action (Hole.options h)
                                  then Return (restriction ++ [action])
                                  else Return restriction)
                               [] (py_range num_actions)
                       else Return []);
                    Return (subfamily ++ [mkRestriction hole restriction]))
                 subfamily (seq 0 (length act_obs_holes)))
        d0 (seq 0 (observations q)) = Return d ->
  d = d0 ++ completion q F holes.
Proof.
  unfold completion. apply rfold_flat_map. intros s obs s' _ H.
  apply rbind_Return in H as (num_actions & Hna & H).
  apply rbind_Return in H as (act_obs_holes & Hhs & H).
  apply at_index_Return in Hna. apply at_index_Return in Hhs. rewrite Hna, Hhs.
  apply (rfold_flat_map _
           (fun index => match act_obs_holes !! index with
                         | Some hl => [mkRestriction hl
                                         (if decide (hl ∈ holes) then []
                                          else allowed F hl num_actions)]
                         | None => []
                         end)) in H.
  - rewrite H. f_equal. clear.
    enough (Hgen : forall a, flat_map
              (fun index => match (drop a act_obs_holes) !! (index - a) with
                            | Some hl => [mkRestriction hl
                                            (if decide (hl ∈ holes) then []
                                             else allowed F hl num_actions)]
                            | None => []
                            end) (seq a (length (drop a act_obs_holes)))
            = map (fun hl => mkRestriction hl
                               (if decide (hl ∈ holes) then []
                                else allowed F hl num_actions))
                  (drop a act_obs_holes)).
    { specialize (Hgen 0). rewrite drop_0 in Hgen. rewrite <- Hgen.
      apply flat_map_ext_elem. intros index _. by rewrite Nat.sub_0_r. }
    intros a. generalize (drop a act_obs_holes) as l. clear. intros l. revert a.
    induction l as [|hl l IH]; intros a; [done|].
    cbn [length seq flat_map map]. rewrite Nat.sub_diag. simpl. f_equal.
    rewrite <- (IH (S a)). apply flat_map_ext_elem. intros index Hin.
    apply in_seq in Hin. replace (index - a) with (S (index - S a)) by lia. done.
  - intros s0 index s0' Hin Hb.
    apply rbind_Return in Hb as (hl & Hhl & Hb). apply at_index_Return in Hhl.
    rewrite Hhl. apply rbind_Return in Hb as (restriction & Hres & Hb).
    inversion Hb; subst s0'. f_equal. f_equal. f_equal.
    destruct (decide (hl ∉ holes)) as [Hn|Hn].
    + rewrite decide_False by done. by apply restriction_loop.
    + inversion Hres. rewrite decide_True; [done|].
      destruct (decide (hl ∈ holes)); [done | contradiction].
Qed.

Lemma completion_loop_reads (q : Quotient) (F : Holes.t) (holes : list nat)
    (d0 d : list Restriction) (obs : nat) :
  rfold (fun subfamily obs =>
           num_actions ← at_index (actions_at_observation q) obs;
           act_obs_holes ← at_index (observation_action_holes q) obs;
           rfold (fun subfamily index =>
                    hole ← at_index act_obs_holes index;
                    restriction ←
                      (if decide (hole ∉ holes) then
                         rfold (fun restriction action =>
                                  h ← at_index F hole;
                                  if py_in action (Hole.options h)
                                  then Return (restriction ++ [action])
                                  else Return restriction)
                               [] (py_range num_actions)
                       else Return []);
                    Return (subfamily ++ [mkRestriction hole restriction]))
                 subfamily (seq 0 (length act_obs_holes)))
        d0 (seq 0 (observations q)) = Return d ->
  obs < observations q -> is_Some (actions_at_observation q !! obs).
Proof.
  intros H Hobs.
  assert (Hin : obs ∈ seq 0 (observations q)) by (apply list_elem_of_In, in_seq; lia).
  revert d0 H Hin. generalize (seq 0 (observations q)) as l.
  induction l as [|o l IH]; intros s H Hin; [by apply elem_of_nil in Hin|].
  cbn [rfold] in H. apply rbind_Return in H as (s1 & H1 & H).
  apply elem_of_cons in Hin as [->|Hin]; [|by eapply IH].
  apply rbind_Return in H1 as (na & Hna & _). apply at_index_Return in Hna. eauto.
Qed.

(** X24. In a returned [get_subfamilies(R, F)] with non-empty [R], the
    [i]-th description consists of its [i + 1] prefix records followed by
    one record for every action hole of every observation of the
    quotient, in the order of the observations. The record of a hole that
    the prefix does not mention lists the actions of that observation that
    are options of the hole in [F]; the record of a hole that the prefix
    mentions has an empty restriction, so every hole restricted by the
    prefix that is an action hole of an observation occurs a second time,
    with no action allowed. *)
Theorem get_subfamilies_completion (q : Quotient) (R : list Restriction)
    (F : Holes.t) (subs : list (list Restriction)) :
  R <> [] -> get_subfamilies q R F = Return subs ->
  forall i d, subs !! i = Some d ->
    length (take (i + 1) d) = i + 1
    /\ d = take (i + 1) d ++ completion q F (map hole (take (i + 1) d))
    /\ forall r obs hs, r ∈ take (i + 1) d -> obs < observations q ->
         observation_action_holes q !! obs = Some hs -> hole r ∈ hs ->
         mkRestriction (hole r) [] ∈ drop (i + 1) d.
Proof.
  intros HR H i d Hd. unfold get_subfamilies in H.
  destruct (decide (length R = 0)) as [Hz|_]; [by destruct R|].
  apply rbind_Return in H as (subs0 & H1 & H2).
  pose proof (rmap_length _ _ _ H1) as Hl1. rewrite length_seq in Hl1.
  pose proof (rmap_length _ _ _ H2) as Hl2.
  assert (Hi : i < length R) by (apply lookup_lt_Some in Hd; lia).
  destruct (lookup_lt_is_Some_2 subs0 i) as (d0 & Hd0); [lia|].
  destruct (rmap_lookup _ _ _ H2 _ _ Hd0) as (d' & Hd' & Hfold).
  rewrite Hd in Hd'. inversion Hd'; subst d'. clear Hd'.
  assert (Hseq : seq 0 (length R) !! i = Some i) by (apply lookup_seq; split; [done | lia]).
  destruct (rmap_lookup _ _ _ H1 _ _ Hseq) as (d0' & Hd0' & Hinner).
  rewrite Hd0 in Hd0'. inversion Hd0'; subst d0'. clear Hd0'.
  pose proof (rmap_length _ _ _ Hinner) as Hld0. rewrite length_seq in Hld0.
  pose proof (fun obs => completion_loop_reads _ _ _ _ _ obs Hfold) as Hreads.
  apply completion_loop in Hfold.
  assert (Htake : take (i + 1) d = d0).
  { rewrite Hfold, take_app_length'; [done | lia]. }
  rewrite Htake. split; [done|]. split; [exact Hfold|].
  intros r obs hs Hr Hobs Hhs Hin.
  rewrite Hfold, drop_app_length' by lia.
  unfold completion. apply list_elem_of_In, in_flat_map. exists obs. split.
  { apply in_seq. lia. }
  rewrite Hhs.
  destruct (actions_at_observation q !! obs) as [na|] eqn:Ena.
  - apply in_map_iff. exists (hole r). split; [|by apply list_elem_of_In].
    rewrite decide_True; [done|]. apply list_elem_of_fmap. eauto.
  - destruct (Hreads obs Hobs) as (na & Hna). congruence.
Qed.

Definition d1_ex : list Restriction :=
  [mkRestriction 0 [0]%Z; mkRestriction 1 [0; 2]%Z; mkRestriction 0 [];
   mkRestriction 1 []].

Lemma get_subfamilies_completion_witness :
  length (take (1 + 1) d1_ex) = 1 + 1
  /\ d1_ex = take (1 + 1) d1_ex ++ completion q_ex F_ex (map hole (take (1 + 1) d1_ex))
  /\ forall r obs hs, r ∈ take (1 + 1) d1_ex -> obs < observations q_ex ->
       observation_action_holes q_ex !! obs = Some hs -> hole r ∈ hs ->
       mkRestriction (hole r) [] ∈ drop (1 + 1) d1_ex.
Proof.
  apply (get_subfamilies_completion q_ex R_ex F_ex subs_ex).
  - discriminate.
  - vm_compute. reflexivity.
  - reflexivity.
Defined.

Lemma get_subfamilies_returns_witness :
  exists subs, get_subfamilies q_ex R_ex F_ex = Return subs.
Proof.
  apply (get_subfamilies_returns q_ex R_ex F_ex).
  - split; [simpl; lia|]. split; [simpl; lia|].
    repeat constructor; simpl; lia.
  - repeat constructor; simpl; lia.
Defined.

End SubfamilyCompletionFacts.

(** ** Abstraction refinement: what the stack accounts for *)

Module ArFacts.
Import SynthesizerAR.

Lemma refines_trans (F1 F2 F3 : Holes.t) :
  HolesFacts.refines F1 F2 -> HolesFacts.refines F2 F3 -> HolesFacts.refines F1 F3.
Proof.
  unfold HolesFacts.refines. intros H12. revert F3.
  induction H12 as [|h1 h2 F1 F2 [Hs Ho] _ IH]; intros F3 H23.
  - by inversion H23.
  - inversion H23 as [|? h3 ? F3' [Hs' Ho'] H23']; subst.
    constructor; [|by apply IH]. split; [lia|]. intros x Hx. by apply Ho', Ho.
Qed.

Lemma pick_any_refines (F A : Holes.t) :
  Holes.pick_any F = Return A -> HolesFacts.refines A F.
Proof.
  unfold Holes.pick_any. rewrite FamilyFacts.first_options_run.
  case_decide as Hz; [discriminate|].
  unfold mbind, result_bind, rbind.
  rewrite HolesFacts.assume_suboptions_run by (by rewrite length_map).
  intros [= <-].
  assert (Hne : Forall (fun h => Hole.options h <> []) F).
  { apply Forall_forall. intros h Hh E. apply Hz, FamilyFacts.size_zero.
    apply Exists_exists. eauto. }
  clear Hz. induction F as [|h F IH]; [constructor|].
  apply Forall_cons in Hne as [Hh HF]. cbn [map zip_with].
  constructor; [|by apply IH].
  unfold Hole.size, Hole.assume_suboptions. simpl.
  destruct (Hole.options h) as [|o os]; [done|]. split; [simpl; lia|].
  intros x Hx. apply list_elem_of_singleton in Hx. subst. apply elem_of_cons. by left.
Qed.

Section Stack.

Context {Family Property Optimality MDP Result Value : Type}.
Variable holes : Family -> Holes.t.
Variable properties : Family -> list Property.
Variable build : Family -> MDP.
Variable check_properties :
  MDP -> list Property -> option bool * list Property * list Result.
Variable check_optimality :
  MDP -> Optimality -> Result * option Value * option Holes.t * bool.
Variable update_optimum : Optimality -> Value -> Optimality.
Variable prepare_split : MDP -> Result -> list Property -> list Family.

Abbreviation body := (SynthesizerAR.body holes properties build check_properties
                                         check_optimality update_optimum prepare_split).
Abbreviation loop := (SynthesizerAR.loop holes properties build check_properties
                                         check_optimality update_optimum prepare_split).

(** The number of assignments on the stack. *)
Definition total (fs : list Family) : nat :=
  foldr (fun f n => Holes.size (holes f) + n) 0 fs.

Lemma total_app (fs gs : list Family) : total (fs ++ gs) = total fs + total gs.
Proof. induction fs as [|f fs IH]; simpl; [done|]. rewrite IH. lia. Qed.

Lemma total_rev (fs : list Family) : total (rev fs) = total fs.
Proof.
  induction fs as [|f fs IH]; simpl; [done|]. rewrite total_app, IH. simpl. lia.
Qed.

(** A split keeps the assignments of the family it splits, by number. *)
Definition split_partitions : Prop :=
  forall f result props,
    total (prepare_split (build f) result props) = Holes.size (holes f).

(** A split yields refinements of the family it splits. *)
Definition split_refines : Prop :=
  forall f result props f',
    f' ∈ prepare_split (build f) result props ->
    HolesFacts.refines (holes f') (holes f).

(** One pass: what it does to the counters, the stack and the result. *)
Lemma body_cases (st : state) (family : Family) (rest : list Family) (r : body_result) :
  body st family rest = Return r ->
  match r with
  | Break st' =>
      optimality st = None /\ families st' = rest /\ pruned st' = pruned st
      /\ (check_properties (build family) (properties family)).1.1 = Some true
      /\ exists a, Holes.pick_any (holes family) = Return a
                   /\ satisfying_assignment st' = Some a
  | Continue st' =>
      (optimality st = None ->
       optimality st' = None /\ satisfying_assignment st' = satisfying_assignment st)
      /\ (is_Some (optimality st) -> is_Some (optimality st'))
      /\ ((families st' = rest
           /\ pruned st' = pruned st + Holes.size (holes family))
          \/ (exists result props,
                families st' = rev (prepare_split (build family) result props) ++ rest
                /\ pruned st' = pruned st))
  end.
Proof.
  unfold SynthesizerAR.body.
  destruct (check_properties (build family) (properties family))
    as [[feasible uprops] ures] eqn:Hcp.
  assert (Hsplit : forall opt sat (results : list Result),
            (optimality st = None -> opt = None /\ sat = satisfying_assignment st) ->
            (is_Some (optimality st) -> is_Some opt) ->
            (undecided_result ← py_get results (-1);
             Return (Continue (mkState (rev (prepare_split (build family) undecided_result
                                                           uprops) ++ rest)
                                       opt sat (S (iterations_mdp st)) (pruned st))))
            = Return r ->
            match r with
            | Break st' =>
                optimality st = None /\ families st' = rest /\ pruned st' = pruned st
                /\ (feasible, uprops, ures).1.1 = Some true
                /\ exists a, Holes.pick_any (holes family) = Return a
                             /\ satisfying_assignment st' = Some a
            | Continue st' =>
                (optimality st = None ->
                 optimality st' = None
                 /\ satisfying_assignment st' = satisfying_assignment st)
                /\ (is_Some (optimality st) -> is_Some (optimality st'))
                /\ ((families st' = rest
                     /\ pruned st' = pruned st + Holes.size (holes family))
                    \/ (exists result props,
                          families st'
                          = rev (prepare_split (build family) result props) ++ rest
                          /\ pruned st' = pruned st))
            end).
  { intros opt sat results Hn Hs H. apply rbind_Return in H as (res & _ & H).
    inversion H; subst r. simpl. split; [done|]. split; [done|]. right. eauto. }
  destruct feasible as [[|]|]; destruct (optimality st) as [o|] eqn:Hopt;
    cbv zeta beta iota.
  - destruct (check_optimality (build family) o) as [[[results optimum] improving] can]
      eqn:Hco.
    destruct optimum as [v|], can; cbn [negb]; cbv zeta beta iota;
      try (apply Hsplit; [discriminate | eauto]);
      intros [= <-]; simpl; (split; [discriminate|]); (split; [eauto|]); left; done.
  - intros H. apply rbind_Return in H as (a & Ha & [= <-]). simpl.
    repeat split; try done. eauto.
  - intros [= <-]. simpl. split; [discriminate|]. split; [eauto|]. by left.
  - intros [= <-]. simpl. split; [done|]. split; [intros [? ?]; done|]. by left.
  - apply Hsplit; [discriminate | eauto].
  - apply Hsplit; [done | intros [? ?]; done].
Qed.

Lemma loop_accounts :
  split_partitions ->
  forall fuel st st',
    loop fuel st = Some (Return st') ->
    (optimality st = None /\ is_Some (satisfying_assignment st'))
    \/ (families st' = [] /\ pruned st' = pruned st + total (families st)).
Proof.
  intros Hpart. induction fuel as [|fuel IH]; intros st st' H.
  - simpl in H. destruct (families st) eqn:E; [|discriminate].
    inversion H; subst. right. rewrite E. simpl. split; [done | lia].
  - cbn [SynthesizerAR.loop] in H. destruct (families st) as [|family rest] eqn:E.
    { inversion H; subst. right. rewrite E. simpl. split; [done | lia]. }
    destruct (body st family rest) as [r|e] eqn:Hb; [|discriminate].
    pose proof (body_cases _ _ _ _ Hb) as Hr. destruct r as [st1|st1].
    + inversion H; subst. destruct Hr as (Ho & _ & _ & _ & a & _ & Ha).
      left. split; [done|]. rewrite Ha. eauto.
    + destruct Hr as (Hnone & Hsome & Hstack).
      destruct (IH _ _ H) as [[Ho Hs]|[Hf Hp]].
      * left. split; [|done]. destruct (optimality st) as [o|]; [|done].
        destruct (Hsome (ex_intro _ o eq_refl)) as (o' & Ho'). congruence.
      * right. split; [done|]. rewrite Hp. simpl.
        destruct Hstack as [[-> ->]|(res & props & -> & ->)]; [lia|].
        rewrite total_app, total_rev, Hpart. lia.
Qed.

(** X27. When every split keeps the number of assignments of the family
    it splits: a finished [SynthesizerAR.synthesize] that ran with an
    optimality property, or that reports no assignment, has emptied its
    stack and has counted exactly the size of the initial family as
    pruned. *)
Theorem ar_prunes_whole_family (optimality_property : option Optimality)
    (family : Family) (fuel : nat) (st : state) :
  split_partitions ->
  SynthesizerAR.synthesize holes properties build check_properties check_optimality
    update_optimum prepare_split optimality_property family fuel = Some (Return st) ->
  is_Some optimality_property \/ satisfying_assignment st = None ->
  families st = [] /\ pruned st = Holes.size (holes family).
Proof.
  intros Hpart H Hcase. unfold SynthesizerAR.synthesize in H.
  destruct (loop_accounts Hpart _ _ _ H) as [[Ho Hs]|[Hf Hp]].
  - simpl in Ho. exfalso. destruct Hcase as [[o Hc]|Hc].
    + congruence.
    + rewrite Hc in Hs. by destruct Hs.
  - split; [done|]. rewrite Hp. simpl. lia.
Qed.

Lemma loop_result (root : Holes.t) :
  split_refines ->
  forall fuel st st' a,
    loop fuel st = Some (Return st') ->
    optimality st = None -> satisfying_assignment st = None ->
    Forall (fun f => HolesFacts.refines (holes f) root) (families st) ->
    satisfying_assignment st' = Some a ->
    exists f, HolesFacts.refines (holes f) root
      /\ (check_properties (build f) (properties f)).1.1 = Some true
      /\ Holes.pick_any (holes f) = Return a.
Proof.
  intros Href. induction fuel as [|fuel IH]; intros st st' a H Hopt Hsat Hall Ha.
  - simpl in H. destruct (families st); [|discriminate]. inversion H; subst. congruence.
  - cbn [SynthesizerAR.loop] in H. destruct (families st) as [|family rest] eqn:E.
    { inversion H; subst. congruence. }
    apply Forall_cons in Hall as [Hf Hrest].
    destruct (body st family rest) as [r|e] eqn:Hb; [|discriminate].
    pose proof (body_cases _ _ _ _ Hb) as Hr. destruct r as [st1|st1].
    + inversion H; subst. destruct Hr as (_ & _ & _ & Hfeas & a' & Hpick & Ha').
      exists family. rewrite Ha in Ha'. inversion Ha'; subst a'. done.
    + destruct Hr as (Hnone & _ & Hstack). destruct (Hnone Hopt) as [Ho1 Hs1].
      eapply (IH st1 st' a H Ho1); [congruence | | done].
      destruct Hstack as [[-> _]|(res & props & -> & _)]; [done|].
      apply Forall_app. split; [|done]. apply Forall_forall. intros f' Hf'.
      apply list_elem_of_In, in_rev, list_elem_of_In in Hf'.
      eapply refines_trans; [by eapply Href | done].
Qed.

(** X28. Without optimality property, when every split yields
    refinements of the family it splits: the assignment that a finished
    [SynthesizerAR.synthesize] reports is [pick_any] of a family that
    refines the initial family and that the model checker found feasible,
    so it gives every hole of the initial family one of its options. *)
Theorem ar_result_from_feasible_family (family : Family) (fuel : nat) (st : state)
    (a : Holes.t) :
  split_refines ->
  SynthesizerAR.synthesize holes properties build check_properties check_optimality
    update_optimum prepare_split None family fuel = Some (Return st) ->
  satisfying_assignment st = Some a ->
  HolesFacts.refines a (holes family)
  /\ exists f, HolesFacts.refines (holes f) (holes family)
       /\ (check_properties (build f) (properties f)).1.1 = Some true
       /\ Holes.pick_any (holes f) = Return a.
Proof.
  intros Href H Ha. unfold SynthesizerAR.synthesize in H.
  destruct (loop_result (holes family) Href fuel _ st a H eq_refl eq_refl)
    as (f & Hf & Hfeas & Hpick).
  - constructor; [apply HolesFacts.refines_refl | constructor].
  - done.
  - split; [eapply refines_trans; [by apply pick_any_refines | done]|]. eauto.
Qed.

End Stack.

(** An instance: families are lists of holes, an MDP is its family, a
    family of more than one assignment is undecided and split at its
    first hole, a single assignment is feasible when [accept] says so. *)
Definition split_first_hole (mdp : Holes.t) (result : unit) (props : list unit)
  : list Holes.t :=
  match mdp with
  | h :: rest =>
      match Hole.options h with
      | o1 :: o2 :: os =>
          [Hole.assume_suboptions h [o1] :: rest;
           Hole.assume_suboptions h (o2 :: os) :: rest]
      | _ => [mdp]
      end
  | [] => [mdp]
  end.

Definition check_single (accept : Holes.t -> bool) (mdp : Holes.t) (props : list unit)
  : option bool * list unit * list unit :=
  if Nat.eqb (Holes.size mdp) 1 then (Some (accept mdp), [], [])
  else (None, props, [tt]).

Definition synthesize_ex (accept : Holes.t -> bool) (fuel : nat)
  : option (result (state (Family:=Holes.t) (Optimality:=unit))) :=
  synthesize (Value:=unit) (fun f => f) (fun _ => [tt]) (fun f => f)
    (check_single accept) (fun _ _ => (tt, None, None, false)) (fun o _ => o)
    split_first_hole None [Hole.mk "h0" [0; 1]%Z ["a"; "b"]] fuel.

Lemma split_first_hole_partitions :
  split_partitions (Family:=Holes.t) (fun f => f) (fun f => f) split_first_hole.
Proof.
  intros f res props. unfold split_first_hole, total.
  destruct f as [|h rest]; [cbn; lia|].
  destruct (Hole.options h) as [|o1 [|o2 os]] eqn:E; try (cbn; lia).
  cbn [foldr]. rewrite !FamilyFacts.size_cons. unfold Hole.size. simpl. rewrite E.
  simpl. lia.
Qed.

Lemma split_first_hole_refines :
  split_refines (Family:=Holes.t) (fun f => f) (fun f => f) split_first_hole.
Proof.
  intros f res props f' Hf'. unfold split_first_hole in Hf'.
  assert (Hid : f' ∈ [f] -> HolesFacts.refines f' f).
  { intros H. apply list_elem_of_singleton in H. subst. apply HolesFacts.refines_refl. }
  destruct f as [|h rest]; [by apply Hid|].
  destruct (Hole.options h) as [|o1 [|o2 os]] eqn:E; try by apply Hid.
  apply elem_of_cons in Hf' as [->|Hf'];
    [|apply list_elem_of_singleton in Hf'; subst f'];
    (constructor; [|apply HolesFacts.refines_refl]);
    unfold Hole.size; simpl; rewrite E; (split; [simpl; lia|]); intros x Hx.
  - apply list_elem_of_singleton in Hx. subst. apply elem_of_cons. by left.
  - apply elem_of_cons. by right.
Qed.

Definition st_refused : state (Family:=Holes.t) (Optimality:=unit) :=
  Eval vm_compute in
    match synthesize_ex (fun _ => false) 3 with
    | Some (Return st) => st
    | _ => mkState [] None None 0 0
    end.

Lemma ar_prunes_whole_family_witness :
  families st_refused = [] /\ pruned st_refused = 2.
Proof.
  apply (ar_prunes_whole_family (Value:=unit) (fun f => f) (fun _ => [tt]) (fun f => f)
           (check_single (fun _ => false)) (fun _ _ => (tt, None, None, false))
           (fun o _ => o) split_first_hole None
           [Hole.mk "h0" [0; 1]%Z ["a"; "b"]] 3 st_refused).
  - apply split_first_hole_partitions.
  - vm_compute. reflexivity.
  - right. reflexivity.
Defined.

(** The checker accepts the assignment of option 1. *)
Definition accept_1 (mdp : Holes.t) : bool :=
  match mdp with
  | h :: _ => bool_decide (Hole.options h = [1%Z])
  | [] => false
  end.

Definition st_found : state (Family:=Holes.t) (Optimality:=unit) :=
  Eval vm_compute in
    match synthesize_ex accept_1 3 with
    | Some (Return st) => st
    | _ => mkState [] None None 0 0
    end.

Lemma ar_result_from_feasible_family_witness :
  HolesFacts.refines [Hole.mk "h0" [1]%Z ["a"; "b"]] [Hole.mk "h0" [0; 1]%Z ["a"; "b"]]
  /\ exists f, HolesFacts.refines f [Hole.mk "h0" [0; 1]%Z ["a"; "b"]]
       /\ (check_single accept_1 f [tt]).1.1 = Some true
       /\ Holes.pick_any f = Return [Hole.mk "h0" [1]%Z ["a"; "b"]].
Proof.
  apply (ar_result_from_feasible_family (Value:=unit) (fun f => f) (fun _ => [tt])
           (fun f => f) (check_single accept_1) (fun _ _ => (tt, None, None, false))
           (fun o _ => o) split_first_hole
           [Hole.mk "h0" [0; 1]%Z ["a"; "b"]] 3 st_found).
  - apply split_first_hole_refines.
  - vm_compute. reflexivity.
  - reflexivity.
Defined.

End ArFacts.

(** ** StormPOMDPControl: the restrictions of the restricted observations *)

Module RestrictionFacts.
Import StormPOMDPControl SubfamilyFacts SubfamilyCompletionFacts.

(** The loop of [find_obs] over the tables from position [a] on. *)
Definition find_from (hole : nat) (tables : list (list nat)) (a : nat)
    (obs : option nat) : option nat :=
  foldl (fun obs '(obs_holes, index) =>
           if bool_decide (hole ∈ obs_holes) then Some index else obs)
        obs (zip tables (seq a (length tables))).

Lemma find_from_cons hole t0 ts a obs :
  find_from hole (t0 :: ts) a obs
  = find_from hole ts (S a) (if bool_decide (hole ∈ t0) then Some a else obs).
Proof. reflexivity. Qed.

(** No list has the hole: [obs] keeps its value. *)
Lemma find_from_absent hole tables :
  forall a obs, (forall k hs, tables !! k = Some hs -> hole ∉ hs) ->
    find_from hole tables a obs = obs.
Proof.
  induction tables as [|t0 ts IH]; intros a obs H; [done|].
  rewrite find_from_cons, IH.
  - rewrite bool_decide_eq_false_2; [done|]. by apply (H 0).
  - intros k hs Hk. by apply (H (S k)).
Qed.

(** Some list has the hole: [obs] becomes the position of the last such
    list, whatever it was. *)
Lemma find_from_present hole tables :
  forall a obs, (exists i hs, tables !! i = Some hs /\ hole ∈ hs) ->
    exists j hs, find_from hole tables a obs = Some (a + j)
      /\ tables !! j = Some hs /\ hole ∈ hs
      /\ forall k hs', tables !! k = Some hs' -> hole ∈ hs' -> k <= j.
Proof.
  induction tables as [|t0 ts IH]; intros a obs (i & hs & Hi & Hin); [done|].
  rewrite find_from_cons.
  destruct (decide (Exists (fun hs' => hole ∈ hs') ts)) as [Hex|Hnex].
  - apply Exists_exists in Hex as (hs' & Hhs' & Hin').
    apply list_elem_of_lookup in Hhs' as (i' & Hi').
    destruct (IH (S a) (if bool_decide (hole ∈ t0) then Some a else obs))
      as (j & hsj & Hf & Hj & Hinj & Hlast); [eauto|].
    exists (S j), hsj. split; [rewrite Hf; f_equal; lia|]. split; [done|]. split; [done|].
    intros [|k] hs'' Hk Hin''; [lia|]. specialize (Hlast k hs'' Hk Hin''). lia.
  - assert (Hnone : forall k hs', ts !! k = Some hs' -> hole ∉ hs').
    { intros k hs' Hk Hin'. apply Hnex, Exists_exists. exists hs'.
      split; [by eapply list_elem_of_lookup_2 | done]. }
    rewrite find_from_absent by done.
    destruct i as [|i]; [|by destruct (Hnone i hs Hi)].
    simpl in Hi. inversion Hi; subst t0.
    rewrite bool_decide_eq_true_2 by done.
    exists 0, hs. split; [f_equal; lia|]. split; [done|]. split; [done|].
    intros [|k] hs' Hk Hin'; [lia|]. by destruct (Hnone k hs' Hk).
Qed.

(** Every hole is an action hole of at most one observation. *)
Definition disjoint_tables (q : Quotient) : Prop :=
  forall i j hs hs' hole,
    observation_action_holes q !! i = Some hs ->
    observation_action_holes q !! j = Some hs' ->
    hole ∈ hs -> hole ∈ hs' -> i = j.

(** The records for one restricted observation: none if the dictionary
    allows as many actions as the observation has, else one per action
    hole of the observation, each with the dictionary's list. *)
Definition restrictions_of (q : Quotient) (result_dict : gmap nat (list Z))
    (observ : nat) : list Restriction :=
  match observation_action_holes q !! observ, result_dict !! observ,
        actions_at_observation q !! observ with
  | Some hs, Some actions, Some num_actions =>
      if decide (Z.of_nat (length actions) = num_actions) then []
      else map (fun hole => mkRestriction hole actions) hs
  | _, _, _ => []
  end.

Lemma find_obs_indep (tables : list (list nat)) (hole : nat) (obs : option nat) :
  (exists i hs, tables !! i = Some hs /\ hole ∈ hs) ->
  exists j hs, find_obs tables hole obs = Some j /\ find_obs tables hole None = Some j
    /\ tables !! j = Some hs /\ hole ∈ hs.
Proof.
  intros Hex.
  destruct (find_from_present hole tables 0 obs Hex) as (j & hs & Hf & Hj & Hin & Hlast).
  destruct (find_from_present hole tables 0 None Hex) as (j' & hs' & Hf' & Hj' & Hin' & Hlast').
  assert (j = j') as <-.
  { specialize (Hlast _ _ Hj' Hin'). specialize (Hlast' _ _ Hj Hin). lia. }
  exists j, hs. by repeat split.
Qed.

(** The record appended for a hole whose observation is [obs]. *)
Definition record_of (q : Quotient) (result_dict : gmap nat (list Z)) (obs : nat)
    (hole : nat) : list Restriction :=
  match result_dict !! obs, actions_at_observation q !! obs with
  | Some actions, Some num_actions =>
      if decide (Z.of_nat (length actions) = num_actions) then []
      else [mkRestriction hole actions]
  | _, _ => []
  end.

Lemma restrictions_loop_spec (q : Quotient) (result_dict : gmap nat (list Z))
    (holes : list nat) :
  Forall (fun hole => exists i hs, observation_action_holes q !! i = Some hs /\ hole ∈ hs)
         holes ->
  forall obs subfamilies,
    match restrictions_loop q result_dict holes obs subfamilies with
    | UnboundLocalError => False
    | Normal (Raise e) => e = IndexError \/ e = KeyError
    | Normal (Return R) =>
        R = subfamilies
            ++ flat_map (fun hole =>
                           match find_obs (observation_action_holes q) hole None with
                           | Some j => record_of q result_dict j hole
                           | None => []
                           end) holes
    end.
Proof.
  induction holes as [|hole holes IH]; intros Hall obs subs.
  - simpl. by rewrite app_nil_r.
  - apply Forall_cons in Hall as [Hhole Hall]. cbn [restrictions_loop flat_map].
    destruct (find_obs_indep (observation_action_holes q) hole obs Hhole)
      as (j & hs & -> & -> & Hj & Hin).
    unfold record_of at 1.
    destruct (result_dict !! j) as [actions|] eqn:Ed; [|by right].
    unfold at_index.
    destruct (actions_at_observation q !! j) as [num|] eqn:Ea; [|by left].
    case_decide as Hfull.
    + specialize (IH Hall (Some j) subs).
      by destruct (restrictions_loop q result_dict holes (Some j) subs) as [[R|e]|].
    + specialize (IH Hall (Some j) (subs ++ [mkRestriction hole actions])).
      destruct (restrictions_loop q result_dict holes (Some j)
                  (subs ++ [mkRestriction hole actions])) as [[R|e]|]; try done.
      rewrite IH. by rewrite <- app_assoc.
Qed.

Lemma flat_map_concat {A B} (g : A -> list B) (ls : list (list A)) :
  flat_map g (concat ls) = flat_map (flat_map g) ls.
Proof.
  induction ls as [|l ls IH]; [done|]. simpl. by rewrite flat_map_app, IH.
Qed.

Lemma flat_map_singletons {A B} (f : A -> B) (l : list A) :
  flat_map (fun x => [f x]) l = map f l.
Proof. induction l as [|x l IH]; [done|]. simpl. by rewrite IH. Qed.

Lemma flat_map_nil {A B} (l : list A) : flat_map (fun _ : A => @nil B) l = [].
Proof. induction l as [|x l IH]; [done|]. done. Qed.

Lemma rmap_raises_index (tables : list (list nat)) (keys : list nat) e :
  rmap (fun observ => at_index tables observ) keys = Raise e -> e = IndexError.
Proof.
  induction keys as [|k keys IH]; [discriminate|]. cbn [rmap]. intros H.
  unfold mbind, result_bind, rbind in H.
  destruct (at_index tables k) as [hs|e0] eqn:E.
  - destruct (rmap (fun observ => at_index tables observ) keys) as [ys|e'];
      [discriminate|]. inversion H; subst. by apply IH.
  - unfold at_index in E. destruct (tables !! k); inversion E; subst. by inversion H.
Qed.

(** X29. [get_subfamilies_restrictions] never reads its local [obs]
    before the inner loop has assigned it: it raises no
    [UnboundLocalError], only [IndexError] or [KeyError]. When every hole
    is an action hole of at most one observation and the selected
    dictionary is not empty, a returned list holds, for the keys of the
    dictionary in their order, one record per action hole of the
    observation with the dictionary's list as restriction, and no record
    for an observation whose list has as many actions as the observation
    has. *)
Theorem get_subfamilies_restrictions_records {Value Export : Type}
    (self : t (Value:=Value) (Export:=Export)) (keys : list nat) (q : Quotient)
    (use_cutoffs : bool) :
  match get_subfamilies_restrictions self keys q use_cutoffs with
  | UnboundLocalError => False
  | Normal (Raise e) => e = IndexError \/ e = KeyError
  | Normal (Return R) =>
      (select_result_dict self use_cutoffs = ∅ -> R = [])
      /\ (select_result_dict self use_cutoffs <> ∅ -> disjoint_tables q ->
          R = flat_map (restrictions_of q (select_result_dict self use_cutoffs)) keys)
  end.
Proof.
  unfold get_subfamilies_restrictions.
  set (dict := select_result_dict self use_cutoffs).
  case_decide as He; [done|].
  destruct (rmap (fun observ => at_index (observation_action_holes q) observ) keys)
    as [lists|e] eqn:Hlists; [|left; by eapply rmap_raises_index].
  assert (Hlk : forall k hs, lists !! k = Some hs ->
            exists observ, keys !! k = Some observ
              /\ observation_action_holes q !! observ = Some hs).
  { intros k hs Hk.
    destruct (lookup_lt_is_Some_2 keys k) as (observ & Hobs).
    { apply lookup_lt_Some in Hk. pose proof (EnumerateFacts.rmap_length _ _ _ Hlists). lia. }
    destruct (rmap_lookup _ _ _ Hlists _ _ Hobs) as (hs' & Hhs' & Hat).
    apply at_index_Return in Hat. exists observ. split; [done | congruence]. }
  assert (Hall : Forall (fun hole => exists i hs,
                           observation_action_holes q !! i = Some hs /\ hole ∈ hs)
                        (concat lists)).
  { apply Forall_forall. intros hole Hin.
    apply list_elem_of_In, in_concat in Hin as (hs & Hhs & Hin).
    apply list_elem_of_In, list_elem_of_lookup in Hhs as (k & Hk).
    destruct (Hlk _ _ Hk) as (observ & _ & Hobs).
    exists observ, hs. split; [done | by apply list_elem_of_In]. }
  pose proof (restrictions_loop_spec q dict (concat lists) Hall None []) as Hloop.
  destruct (restrictions_loop q dict (concat lists) None []) as [[R|e]|]; try done.
  split; [done|]. intros _ Hdisj. rewrite Hloop. cbn [app]. rewrite flat_map_concat.
  clear Hloop Hall Hlk. revert lists Hlists.
  induction keys as [|observ keys IH]; intros lists Hlists.
  - by inversion Hlists.
  - simpl in Hlists. apply rbind_Return in Hlists as (hs & Hhs & Hlists).
    apply rbind_Return in Hlists as (lists' & Hlists' & [= <-]).
    apply at_index_Return in Hhs. cbn [flat_map]. rewrite (IH _ Hlists'). f_equal.
    unfold restrictions_of. rewrite Hhs.
    rewrite (flat_map_ext_elem _ (record_of q dict observ)).
    + unfold record_of. destruct (dict !! observ) as [actions|]; [|apply flat_map_nil].
      destruct (actions_at_observation q !! observ) as [num|]; [|apply flat_map_nil].
      case_decide; [apply flat_map_nil | apply flat_map_singletons].
    + intros hole Hin. apply list_elem_of_In in Hin.
      destruct (find_obs_indep (observation_action_holes q) hole None)
        as (j & hs' & -> & _ & Hj & Hin'); [eauto|].
      by rewrite (Hdisj _ _ _ _ _ Hj Hhs Hin' Hin).
Qed.

(** Observation 0 is restricted to actions 0 and 1 of its three actions,
    observation 1 is given all of its two actions. *)
Definition control_two : t (Value:=Z) (Export:=unit) :=
  mk None {[0 := [0; 1]%Z; 1 := [0; 1]%Z]} ∅ ∅ None true
     (mkQuotient 2 [3; 2]%Z [[0; 2]; [1]] [[]; []] [1; 1]%Z) tt.

Example get_subfamilies_restrictions_ex :
  get_subfamilies_restrictions control_two [0; 1] (quotient control_two) true
  = Normal (Return [mkRestriction 0 [0; 1]%Z; mkRestriction 2 [0; 1]%Z]).
Proof. vm_compute. reflexivity. Qed.

Lemma get_subfamilies_restrictions_records_witness :
  [mkRestriction 0 [0; 1]%Z; mkRestriction 2 [0; 1]%Z]
  = flat_map (restrictions_of (quotient control_two) (select_result_dict control_two true))
             [0; 1].
Proof.
  pose proof (get_subfamilies_restrictions_records control_two [0; 1]
                (quotient control_two) true) as H.
  rewrite get_subfamilies_restrictions_ex in H. destruct H as [_ H]. apply H.
  - intros E. apply (f_equal (fun m : gmap nat (list Z) => m !! 0)) in E.
    vm_compute in E. discriminate.
  - intros i j hs hs' hole Hi Hj Hin Hin'.
    destruct i as [|[|i]], j as [|[|j]]; simpl in *; try done;
      inversion Hi; inversion Hj; subst; exfalso; set_solver.
Defined.

End RestrictionFacts.
